(** * MFT record handling of the ntfs3 driver (fs/ntfs3/record.c)

    A shallow embedding of the functions of [record.c] and the properties of
    the record/attribute layer that follow from them.

    The record ([mi->mrec]) is a byte buffer; an [ATTRIB *] is the byte
    distance of the attribute from the start of the record ([NULL] is
    [None]).  Integers are [Z] with the wrap-around of the C type written
    out ([u16], [u32], [s32], ...).  Little-endian fields are decoded with
    [get_le] and written with [set_le]. *)

From Stdlib Require Import ZArith List Lia Bool.
From Stdlib Require Import Lists.Finite Sorting.Sorted Sorting.Permutation.
From Stdlib Require Import Init.Byte Strings.Byte.
Import ListNotations.
Open Scope Z_scope.

(* ================================================================== *)
(** * Part I: definitions *)
(* ================================================================== *)

(** ** Machine integers *)

Definition u8 (x : Z) : Z := x mod 2 ^ 8.
Definition u16 (x : Z) : Z := x mod 2 ^ 16.
Definition u32 (x : Z) : Z := x mod 2 ^ 32.
Definition u64 (x : Z) : Z := x mod 2 ^ 64.

(** Conversion of a 32-bit pattern to [int]. *)
Definition s32 (x : Z) : Z :=
  let y := u32 x in if y <? 2 ^ 31 then y else y - 2 ^ 32.

(** [size_t] is 64 bits wide; a negative [int] converts by wrap-around. *)
Definition size_t (x : Z) : Z := u64 x.

(** [CLST] is [u32] in the default configuration of the driver (the typedef
    lives in ntfs.h). *)
Definition CLST_BITS : Z := 32.
Definition clst (x : Z) : Z := x mod 2 ^ CLST_BITS.

(** [#define QuadAlign(n) (((n) + 7u) & (~7u))]: unsigned 32-bit arithmetic. *)
Definition QuadAlign (n : Z) : Z := Z.land (u32 (n + 7)) (u32 (Z.lnot 7)).

(** [#define IsDwordAligned(n) (!((size_t)(n)&3))] *)
Definition IsDwordAligned (n : Z) : bool := Z.land (size_t n) 3 =? 0.

(** ** Byte buffers *)

Definition buffer := list byte.

Definition Z_of_byte (b : byte) : Z := Z.of_N (Byte.to_N b).

Definition byte_of_Z (z : Z) : byte :=
  match Byte.of_N (Z.to_N (z mod 256)) with
  | Some b => b
  | None => x00
  end.

Definition blen (b : buffer) : Z := Z.of_nat (length b).

(** Byte at index [i].  The buffer is all the memory the model knows: a read
    outside of it yields 0, where the code reads whatever lies behind the
    record.  What a call does after it has looked outside the buffer is
    therefore a statement about the model only; where a property would
    depend on it, the theorem has a hypothesis that keeps every position
    the code examines inside the buffer ([attr_in_record],
    [runs_in_record], [record_ok], [names_in_buffer]). *)
Definition getb (b : buffer) (i : Z) : byte :=
  if i <? 0 then x00 else nth (Z.to_nat i) b x00.

(** [overlay b f]: the buffer [b] with the byte at every index [i] where
    [f i = Some y] replaced by [y].  The length never changes: a store
    outside the buffer is dropped. *)
Fixpoint overlay_from (i : Z) (b : buffer) (f : Z -> option byte) : buffer :=
  match b with
  | [] => []
  | x :: b' =>
      match f i with
      | Some y => y
      | None => x
      end :: overlay_from (i + 1) b' f
  end.

Definition overlay (b : buffer) (f : Z -> option byte) : buffer :=
  overlay_from 0 b f.

Definition in_range (lo n i : Z) : bool := (lo <=? i) && (i <? lo + n).

(** [memmove(b + dst, b + src, n)] inside one buffer.  All source bytes are
    read from the buffer as it was, so overlapping regions are handled. *)
Definition memmove (b : buffer) (dst src n : Z) : buffer :=
  overlay b
    (fun i => if in_range dst n i then Some (getb b (src + (i - dst)))
              else None).

(** [memset(b + dst, c, n)] *)
Definition memset (b : buffer) (dst : Z) (c : byte) (n : Z) : buffer :=
  overlay b (fun i => if in_range dst n i then Some c else None).

(** [memcpy(b + dst, src, n)] from memory outside the buffer. *)
Definition memcpy (b : buffer) (dst : Z) (src : list byte) (n : Z) : buffer :=
  overlay b
    (fun i => if in_range dst n i then Some (getb src (i - dst)) else None).

(** The [n] bytes starting at [off]. *)
Definition slice (b : buffer) (off n : Z) : list byte :=
  map (fun k => getb b (off + Z.of_nat k)) (seq 0 (Z.to_nat n)).

Fixpoint bytes_eqb (x y : list byte) : bool :=
  match x, y with
  | [], [] => true
  | a :: x', c :: y' => Byte.eqb a c && bytes_eqb x' y'
  | _, _ => false
  end.

(** Little-endian decoding of [n] bytes at [off]. *)
Fixpoint get_le (n : nat) (b : buffer) (off : Z) : Z :=
  match n with
  | O => 0
  | S n' => Z_of_byte (getb b off) + 256 * get_le n' b (off + 1)
  end.

(** Little-endian store of the low [n] bytes of [v] at [off]. *)
Definition set_le (n : nat) (b : buffer) (off v : Z) : buffer :=
  overlay b
    (fun i => if in_range off (Z.of_nat n) i
              then Some (byte_of_Z (v / 256 ^ (i - off)))
              else None).

(** ** Layout of [MFT_REC] and [ATTRIB]

    The struct declarations and the constants below are those of ntfs.h
    (the NTFS on-disk format); record.c only names them. *)

(** [struct MFT_REC] *)
Definition OFF_rhdr_sign : Z := 0x00.
Definition OFF_seq : Z := 0x10.
Definition OFF_attr_off : Z := 0x14.
Definition OFF_flags : Z := 0x16.
Definition OFF_used : Z := 0x18.
Definition OFF_total : Z := 0x1C.
Definition OFF_next_attr_id : Z := 0x28.
(** [offsetof(MFT_REC, res)] *)
Definition MFTRECORD_FIXUP_OFFSET_1 : Z := 0x2A.

Definition NTFS_FILE_SIGNATURE : Z := 0x454C4946.
Definition RECORD_FLAG_IN_USE : Z := 0x0001.

Definition MFT_REC_MFT : Z := 0.
Definition MFT_REC_RESERVED : Z := 11.
Definition MFT_REC_FREE : Z := 16.

(** [struct ATTRIB]; offsets are relative to the attribute. *)
Definition OFF_type : Z := 0x00.
Definition OFF_size : Z := 0x04.
Definition OFF_non_res : Z := 0x08.
Definition OFF_name_len : Z := 0x09.
Definition OFF_name_off : Z := 0x0A.
Definition OFF_aflags : Z := 0x0C.
Definition OFF_id : Z := 0x0E.
Definition OFF_res_data_size : Z := 0x10.
Definition OFF_res_data_off : Z := 0x14.
Definition OFF_res_flags : Z := 0x16.
Definition OFF_nres_svcn : Z := 0x10.
Definition OFF_nres_evcn : Z := 0x18.
Definition OFF_nres_run_off : Z := 0x20.
Definition OFF_nres_c_unit : Z := 0x22.

Definition SIZEOF_RESIDENT : Z := 0x18.
Definition SIZEOF_NONRESIDENT : Z := 0x40.
Definition SIZEOF_NONRESIDENT_EX : Z := 0x48.

Definition ATTR_END : Z := 0xFFFFFFFF.
Definition ATTR_FLAG_COMPRESSED : Z := 0x0001.
Definition ATTR_FLAG_SPARSED : Z := 0x8000.
Definition RESIDENT_FLAG_INDEXED : Z := 0x01.

(** Record header fields. *)
Definition rec_sign (r : buffer) : Z := get_le 4 r OFF_rhdr_sign.
Definition rec_seq (r : buffer) : Z := get_le 2 r OFF_seq.
Definition rec_attr_off (r : buffer) : Z := get_le 2 r OFF_attr_off.
Definition rec_flags (r : buffer) : Z := get_le 2 r OFF_flags.
Definition rec_used (r : buffer) : Z := get_le 4 r OFF_used.
Definition rec_total (r : buffer) : Z := get_le 4 r OFF_total.
Definition rec_next_attr_id (r : buffer) : Z := get_le 2 r OFF_next_attr_id.

Definition set_rec_seq (r : buffer) (v : Z) := set_le 2 r OFF_seq v.
Definition set_rec_flags (r : buffer) (v : Z) := set_le 2 r OFF_flags v.
Definition set_rec_used (r : buffer) (v : Z) := set_le 4 r OFF_used v.
Definition set_rec_next_attr_id (r : buffer) (v : Z) :=
  set_le 2 r OFF_next_attr_id v.

(** [is_rec_inuse]: [rec->flags & RECORD_FLAG_IN_USE] *)
Definition is_rec_inuse (r : buffer) : bool :=
  negb (Z.land (rec_flags r) RECORD_FLAG_IN_USE =? 0).

(** [clear_rec_inuse]: [rec->flags &= ~RECORD_FLAG_IN_USE] *)
Definition clear_rec_inuse (r : buffer) : buffer :=
  set_rec_flags r (Z.land (rec_flags r) (u16 (Z.lnot RECORD_FLAG_IN_USE))).

(** Attribute fields; [a] is the attribute's position in the record. *)
Definition attr_type (r : buffer) (a : Z) : Z := get_le 4 r (a + OFF_type).
Definition attr_size (r : buffer) (a : Z) : Z := get_le 4 r (a + OFF_size).
Definition attr_non_res (r : buffer) (a : Z) : Z := get_le 1 r (a + OFF_non_res).
Definition attr_name_len (r : buffer) (a : Z) : Z := get_le 1 r (a + OFF_name_len).
Definition attr_name_off (r : buffer) (a : Z) : Z := get_le 2 r (a + OFF_name_off).
Definition attr_flags (r : buffer) (a : Z) : Z := get_le 2 r (a + OFF_aflags).
Definition attr_id (r : buffer) (a : Z) : Z := get_le 2 r (a + OFF_id).
Definition attr_res_data_size (r : buffer) (a : Z) : Z :=
  get_le 4 r (a + OFF_res_data_size).
Definition attr_res_data_off (r : buffer) (a : Z) : Z :=
  get_le 2 r (a + OFF_res_data_off).
Definition attr_res_flags (r : buffer) (a : Z) : Z :=
  get_le 1 r (a + OFF_res_flags).
Definition attr_nres_svcn (r : buffer) (a : Z) : Z :=
  get_le 8 r (a + OFF_nres_svcn).
Definition attr_nres_evcn (r : buffer) (a : Z) : Z :=
  get_le 8 r (a + OFF_nres_evcn).
Definition attr_nres_run_off (r : buffer) (a : Z) : Z :=
  get_le 2 r (a + OFF_nres_run_off).
Definition attr_nres_c_unit (r : buffer) (a : Z) : Z :=
  get_le 1 r (a + OFF_nres_c_unit).

Definition set_attr_type (r : buffer) (a v : Z) := set_le 4 r (a + OFF_type) v.
Definition set_attr_size (r : buffer) (a v : Z) := set_le 4 r (a + OFF_size) v.
Definition set_attr_name_len (r : buffer) (a v : Z) :=
  set_le 1 r (a + OFF_name_len) v.
Definition set_attr_name_off (r : buffer) (a v : Z) :=
  set_le 2 r (a + OFF_name_off) v.
Definition set_attr_id (r : buffer) (a v : Z) := set_le 2 r (a + OFF_id) v.
Definition set_attr_res_data_size (r : buffer) (a v : Z) :=
  set_le 4 r (a + OFF_res_data_size) v.
Definition set_attr_nres_evcn (r : buffer) (a v : Z) :=
  set_le 8 r (a + OFF_nres_evcn) v.

(** [attr_name]: the name bytes of an attribute, [2 * name_len] of them at
    [name_off]. *)
Definition attr_name (r : buffer) (a : Z) : list byte :=
  slice r (a + attr_name_off r a) (2 * attr_name_len r a).

(** [is_attr_ext]: [attr->flags & (ATTR_FLAG_SPARSED | ATTR_FLAG_COMPRESSED)] *)
Definition is_attr_ext (r : buffer) (a : Z) : bool :=
  negb (Z.land (attr_flags r a)
          (Z.lor ATTR_FLAG_SPARSED ATTR_FLAG_COMPRESSED) =? 0).

(** [is_attr_indexed]:
    [!attr->non_res && (attr->res.flags & RESIDENT_FLAG_INDEXED)] *)
Definition is_attr_indexed (r : buffer) (a : Z) : bool :=
  (attr_non_res r a =? 0)
  && negb (Z.land (attr_res_flags r a) RESIDENT_FLAG_INDEXED =? 0).

(** ** The in-memory wrapper *)

(** The fields of [ntfs_sb_info] that record.c reads. *)
Record ntfs_sb_info := {
  record_size : Z;
  record_bits : Z;
  cluster_bits : Z;
  mft_used : Z;          (* sbi->mft.used *)
  new_rec : buffer;      (* sbi->new_rec, the empty-record template *)
  mounted : bool         (* is_mounted(sbi) *)
}.

(** [mft_inode].  [mrec = None] is the [NULL] pointer. *)
Record mft_inode := {
  sbi : ntfs_sb_info;
  rno : Z;
  mrec : option buffer;
  dirty : bool;
  nbufs : Z              (* mi->nb.nbufs *)
}.

(** [mi->mrec] as record.c uses it.  Only [mi_mark_free] tests the pointer;
    everywhere else a [NULL] record reads as the empty buffer. *)
Definition mrec_bytes (mi : mft_inode) : buffer :=
  match mrec mi with
  | Some r => r
  | None => []
  end.

Definition with_mrec (mi : mft_inode) (r : buffer) : mft_inode :=
  {| sbi := sbi mi; rno := rno mi; mrec := Some r; dirty := dirty mi;
     nbufs := nbufs mi |}.

Definition with_dirty (mi : mft_inode) (d : bool) : mft_inode :=
  {| sbi := sbi mi; rno := rno mi; mrec := mrec mi; dirty := d;
     nbufs := nbufs mi |}.

Definition with_nbufs (mi : mft_inode) (n : Z) : mft_inode :=
  {| sbi := sbi mi; rno := rno mi; mrec := mrec mi; dirty := dirty mi;
     nbufs := n |}.

(** ** Collaborators

    Functions of the driver that record.c calls and that live in other
    files: name collation, the run-list serializer, allocation, block I/O
    and the record bitmap.  [world] is the state of everything outside the
    [mft_inode] (disk, bitmap, the run tree of $MFT).  Locking
    ([down_read], [ni_lock], ...) is not part of the model. *)

(** What [run_pack] hands back: its return value ([>= 0]: bytes used,
    [< 0]: error), [*packed_vcns], and the bytes it stored in [run_buf]. *)
Record pack_result := {
  pr_err : Z;
  pr_plen : Z;
  pr_bytes : list byte
}.

Class Collaborators := {
  world : Type;
  runs_tree : Type;
  (** [ntfs_cmp_names(name1, len1, name2, len2, upcase)]; the last argument
      tells whether an upcase table is passed ([false] is [NULL]). *)
  ntfs_cmp_names : list byte -> Z -> list byte -> Z -> bool -> Z;
  (** [run_pack(run, svcn, len, run_buf, run_buf_size, &plen)] *)
  run_pack : runs_tree -> Z -> Z -> Z -> pack_result;
  (** [ntfs_alloc(size, 0)] *)
  ntfs_alloc : world -> Z -> option buffer * world;
  (** [ntfs_read_bh_ex(sbi, run, vbo, &rec->rhdr, bpr, &mi->nb)]: return
      value, bytes left in the record, [nb.nbufs]. *)
  ntfs_read_bh_ex :
    world -> ntfs_sb_info -> Z -> buffer -> Z -> Z * list byte * Z * world;
  (** [attr_load_runs_vcn(mft_ni, ATTR_DATA, NULL, 0, run, vcn)] *)
  attr_load_runs_vcn : world -> ntfs_sb_info -> Z -> Z * world;
  (** [ntfs_write_bh_ex(sbi, &rec->rhdr, &mi->nb, wait)] *)
  ntfs_write_bh_ex : world -> ntfs_sb_info -> buffer -> Z -> Z -> Z * world;
  (** [ntfs_get_bh(sbi, run, vbo, bytes, &mi->nb)]: return value and
      [nb.nbufs]. *)
  ntfs_get_bh : world -> ntfs_sb_info -> Z -> Z -> Z * Z * world;
  (** [ntfs_clear_mft_tail(sbi, from, to)] *)
  ntfs_clear_mft_tail : world -> ntfs_sb_info -> Z -> Z -> world;
  (** [ntfs_mark_rec_free(sbi, rno)] *)
  ntfs_mark_rec_free : world -> ntfs_sb_info -> Z -> world
}.

Definition ENOENT : Z := 2.
Definition ENOMEM : Z := 12.
Definition EINVAL : Z := 22.

(** ** mi_enum_attr *)

(** Lines 241-296: the checks on the attribute at [p], common to both
    branches; [off] is the [u32] offset the code tracks next to the pointer.
    [goto out] is [None]. *)
Definition enum_check (r : buffer) (used p off : Z) : option Z :=
  let asize := attr_size r p in
  if u32 (off + 8) >? used then None
  else if attr_type r p =? ATTR_END then
    (if negb (used =? u32 (off + 8)) then None else None)
  else
    let t32 := attr_type r p in
    if negb (Z.land t32 0xf =? 0) || (t32 >? 0x100) then None
    else if u32 (off + asize) >? used then None
    else if attr_non_res r p =? 0 then
      if asize <? SIZEOF_RESIDENT then None
      else
        let t16 := attr_res_data_off r p in
        if t16 >? asize then None
        else
          let t32 := attr_res_data_size r p in
          if u32 (t16 + t32) >? asize then None
          else Some p
    else if negb (attr_name_len r p =? 0)
            && (attr_name_off r p + 2 * attr_name_len r p
                >? attr_nres_run_off r p) then None
    else if negb (attr_nres_svcn r p =? 0) || negb (is_attr_ext r p) then
      if u32 (asize + 8) <? SIZEOF_NONRESIDENT then None
      else if negb (attr_nres_c_unit r p =? 0) then None
      else Some p
    else if u32 (asize + 8) <? SIZEOF_NONRESIDENT_EX then None
    else Some p.

(** Lines 209-239: where the attribute to check starts, as (pointer, off). *)
Definition enum_start (r : buffer) (used : Z) (attr : option Z)
  : option (Z * Z) :=
  match attr with
  | None =>
      let total := rec_total r in
      let off := rec_attr_off r in
      if used >? total then None
      else if (off >=? used) || (off <? MFTRECORD_FIXUP_OFFSET_1)
              || negb (IsDwordAligned off) then None
      else if negb (is_rec_inuse r) then None
      else Some (off, off)
  | Some p =>
      let off := u32 p in
      if off >=? used then None
      else
        let asize := attr_size r p in
        if asize <? SIZEOF_RESIDENT then None
        else Some (p + asize, u32 (off + asize))
  end.

Definition mi_enum_attr (mi : mft_inode) (attr : option Z) : option Z :=
  let r := mrec_bytes mi in
  let used := rec_used r in
  match enum_start r used attr with
  | None => None
  | Some (p, off) => enum_check r used p off
  end.

(** Every loop over [mi_enum_attr] gets this much fuel.  In the model an
    enumeration moves forward inside the buffer, so it takes at most one
    step per byte: a position outside the buffer reads as zeros and is
    refused.  On a well-formed record ([record_ok]) this is also what the
    code does, as every position it examines lies inside the used part
    of the record. *)
Definition enum_fuel (mi : mft_inode) : nat := S (length (mrec_bytes mi)).

(** The attributes that repeated calls of [mi_enum_attr] yield after
    [attr]. *)
Fixpoint enum_list (fuel : nat) (mi : mft_inode) (attr : option Z)
  : list Z :=
  match fuel with
  | O => []
  | S fuel' =>
      match mi_enum_attr mi attr with
      | None => []
      | Some a => a :: enum_list fuel' mi (Some a)
      end
  end.

Definition attr_list (mi : mft_inode) : list Z :=
  enum_list (enum_fuel mi) mi None.

(** ** mi_find_attr *)

(** The [next_attr:] loop; [None] is "out of fuel". *)
Fixpoint mi_find_attr_loop (fuel : nat) (mi : mft_inode) (attr : option Z)
    (type_in : Z) (name : list byte) (name_len : Z) (id : option Z)
  : option (option Z) :=
  match fuel with
  | O => None
  | S fuel' =>
      match mi_enum_attr mi attr with
      | None => Some None
      | Some a =>
          let r := mrec_bytes mi in
          let atype := attr_type r a in
          if atype >? type_in then Some None
          else if atype <? type_in then
            mi_find_attr_loop fuel' mi (Some a) type_in name name_len id
          else if negb (attr_name_len r a =? name_len) then
            mi_find_attr_loop fuel' mi (Some a) type_in name name_len id
          else if negb (name_len =? 0)
                  && negb (bytes_eqb
                             (slice r (a + attr_name_off r a) (name_len * 2))
                             (slice name 0 (name_len * 2))) then
            mi_find_attr_loop fuel' mi (Some a) type_in name name_len id
          else if match id with
                  | Some i => negb (i =? attr_id r a)
                  | None => false
                  end then
            mi_find_attr_loop fuel' mi (Some a) type_in name name_len id
          else Some (Some a)
      end
  end.

Definition mi_find_attr (mi : mft_inode) (attr : option Z) (type_in : Z)
    (name : list byte) (name_len : Z) (id : option Z) : option Z :=
  match mi_find_attr_loop (enum_fuel mi) mi attr type_in name name_len id with
  | Some res => res
  | None => None
  end.

(** The locator in the words of the specification: over the attributes in
    enumeration order, stop with nothing at the first one whose type is
    above the requested type, and return the first one of the requested
    type whose name has the requested length and bytes and whose id is the
    requested one, if an id is requested. *)
Definition attr_matches (r : buffer) (type_in : Z) (name : list byte)
    (name_len : Z) (id : option Z) (a : Z) : bool :=
  (attr_type r a =? type_in)
  && (attr_name_len r a =? name_len)
  && ((name_len =? 0)
      || bytes_eqb (slice r (a + attr_name_off r a) (name_len * 2))
                   (slice name 0 (name_len * 2)))
  && match id with
     | Some i => i =? attr_id r a
     | None => true
     end.

Fixpoint locate (r : buffer) (type_in : Z) (name : list byte) (name_len : Z)
    (id : option Z) (l : list Z) : option Z :=
  match l with
  | [] => None
  | a :: l' =>
      if attr_type r a >? type_in then None
      else if attr_matches r type_in name name_len id a then Some a
      else locate r type_in name name_len id l'
  end.

(** ** mi_new_attt_id *)

(** The [next_attr:] loop of the slow path; [None] is "out of fuel". *)
Fixpoint new_attt_id_loop (fuel : nat) (mi : mft_inode) (attr : option Z)
    (free_id max_id : Z) : option (Z * Z) :=
  match fuel with
  | O => None
  | S fuel' =>
      match mi_enum_attr mi attr with
      | None => Some (free_id, max_id)
      | Some a =>
          let t16 := attr_id (mrec_bytes mi) a in
          if t16 =? free_id then
            new_attt_id_loop fuel' mi None (u16 (free_id + 1)) max_id
          else
            new_attt_id_loop fuel' mi (Some a) free_id
              (if max_id <? t16 then t16 else max_id)
      end
  end.

(** Each pass over the record takes at most [enum_fuel] steps and there is
    at most one pass per attribute, plus the last one. *)
Definition new_attt_id_fuel (mi : mft_inode) : nat :=
  (enum_fuel mi * enum_fuel mi)%nat.

(** Out of fuel (the last case) the code would still be looping; this
    takes a record with 65536 attributes. *)
Definition mi_new_attt_id (mi : mft_inode) : Z * mft_inode :=
  let r := mrec_bytes mi in
  let id := rec_next_attr_id r in
  let free_id := id in
  if free_id <? 0x7FFF then
    (id, with_mrec mi (set_rec_next_attr_id r (u16 (free_id + 1))))
  else
    match new_attt_id_loop (new_attt_id_fuel mi) mi None 0 0 with
    | Some (free_id, max_id) =>
        (free_id,
         with_dirty (with_mrec mi (set_rec_next_attr_id r (u16 (max_id + 1))))
           true)
    | None => (0, mi)
    end.

(** ** compare_attr and mi_insert_attr *)

Section WithCollaborators.

Context {C : Collaborators}.

(** [int diff = le32_to_cpu(left->type) - le32_to_cpu(type)], then the two
    name comparisons. *)
Definition compare_attr (r : buffer) (left type : Z) (name : list byte)
    (name_len : Z) : Z :=
  let diff := s32 (attr_type r left - type) in
  if negb (diff =? 0) then diff
  else
    let diff :=
      ntfs_cmp_names (attr_name r left) (attr_name_len r left)
        name name_len true in
    if negb (diff =? 0) then diff
    else
      ntfs_cmp_names (attr_name r left) (attr_name_len r left)
        name name_len false.

(** How the scan for the insertion point ends: at the end of the list
    ([attr == NULL]), by [break] at an attribute, or by [return NULL]. *)
Inductive scan_result :=
| ScanEnd
| ScanAt (a : Z)
| ScanReject.

(** The [while ((attr = mi_enum_attr(mi, attr)))] loop; [None] is "out of
    fuel". *)
Fixpoint insert_scan (fuel : nat) (mi : mft_inode) (attr : option Z)
    (type : Z) (name : list byte) (name_len : Z) : option scan_result :=
  match fuel with
  | O => None
  | S fuel' =>
      match mi_enum_attr mi attr with
      | None => Some ScanEnd
      | Some a =>
          let diff := compare_attr (mrec_bytes mi) a type name name_len in
          if diff >? 0 then Some (ScanAt a)
          else if diff <? 0 then
            insert_scan fuel' mi (Some a) type name name_len
          else if negb (is_attr_indexed (mrec_bytes mi) a) then
            Some ScanReject
          else Some (ScanAt a)
      end
  end.

(** Arguments are taken to be in the range of their C types ([asize] a
    [u32], [name_len] a [u8], [name_off] a [u16]). *)
Definition mi_insert_attr (mi : mft_inode) (type : Z) (name : list byte)
    (name_len asize name_off : Z) : option Z * mft_inode :=
  let r := mrec_bytes mi in
  let used := rec_used r in
  if u32 (used + asize) >? record_size (sbi mi) then (None, mi)
  else
    match insert_scan (enum_fuel mi) mi None type name name_len with
    | None => (None, mi)
    | Some ScanReject => (None, mi)
    | Some s =>
        let '(attr, tail) :=
          match s with
          | ScanAt a => (a, size_t (used - size_t a))
          | _ => (u32 (used - 8), 8)
          end in
        let '(id, mi1) := mi_new_attt_id mi in
        let r := mrec_bytes mi1 in
        let r := memmove r (attr + asize) attr tail in
        let r := memset r attr x00 asize in
        let r := set_attr_type r attr type in
        let r := set_attr_size r attr asize in
        let r := set_attr_name_len r attr name_len in
        let r := set_attr_name_off r attr name_off in
        let r := set_attr_id r attr id in
        let r := memcpy r (attr + name_off) name (name_len * 2) in
        let r := set_rec_used r (u32 (used + asize)) in
        (Some attr, with_dirty (with_mrec mi1 r) true)
    end.

(** ** mi_remove_attr *)

Definition mi_remove_attr (mi : mft_inode) (attr : Z) : bool * mft_inode :=
  let r := mrec_bytes mi in
  let aoff := u32 attr in
  let used := rec_used r in
  let asize := attr_size r attr in
  if u32 (aoff + asize) >? used then (false, mi)
  else
    let used := u32 (used - asize) in
    let r := memmove r attr (attr + asize) (u32 (used - aoff)) in
    let r := set_rec_used r used in
    (true, with_dirty (with_mrec mi r) true).

(** ** mi_resize_attr *)

(** Lines 565-571, shared by the two branches. *)
Definition resize_finish (mi : mft_inode) (r : buffer)
    (attr used nsize rsize : Z) : bool * mft_inode :=
  let r := set_rec_used r used in
  let r := set_attr_size r attr nsize in
  let r := if attr_non_res r attr =? 0
           then set_attr_res_data_size r attr rsize
           else r in
  (true, with_dirty (with_mrec mi r) true).

(** [bytes] is an [int]. *)
Definition mi_resize_attr (mi : mft_inode) (attr : Z) (bytes : Z)
  : bool * mft_inode :=
  let r := mrec_bytes mi in
  let aoff := u32 attr in
  let used := rec_used r in
  let asize := attr_size r attr in
  let rsize := attr_res_data_size r attr in
  let tail := s32 (used - aoff - asize) in
  if (tail <? 0) || (aoff >=? used) then (false, mi)
  else if bytes =? 0 then (true, mi)
  else
    let total := rec_total r in
    let next := attr + asize in
    if bytes >? 0 then
      let dsize := s32 (QuadAlign bytes) in
      if u32 (used + dsize) >? total then (false, mi)
      else
        let nsize := u32 (asize + dsize) in
        let r := memmove r (next + dsize) next (size_t tail) in
        let r := memset r next x00 (size_t dsize) in
        resize_finish mi r attr (u32 (used + dsize)) nsize
          (u32 (rsize + dsize))
    else
      let dsize := s32 (QuadAlign (- bytes)) in
      if u32 dsize >? asize then (false, mi)
      else
        let nsize := u32 (asize - dsize) in
        let r := memmove r (next - dsize) next (size_t tail) in
        resize_finish mi r attr (u32 (used - dsize)) nsize
          (u32 (rsize - dsize)).

(** ** mi_pack_runs *)

(** [len] is a [CLST].  The serializer stores its bytes in the
    [run_buf_size] bytes at [run_buf] and nowhere else. *)
Definition mi_pack_runs (mi : mft_inode) (attr : Z) (run : runs_tree)
    (len : Z) : Z * mft_inode :=
  let r := mrec_bytes mi in
  let svcn := clst (attr_nres_svcn r attr) in
  let used := rec_used r in
  let aoff := u32 attr in
  let asize := attr_size r attr in
  let next := attr + asize in
  let run_off := attr_nres_run_off r attr in
  let run_size := u32 (asize - run_off) in
  let tail := u32 (used - aoff - asize) in
  let dsize := u32 (record_size (sbi mi) - used) in
  (* Make a maximum gap in current record *)
  let r := memmove r (next + dsize) next tail in
  (* Pack as much as possible *)
  let run_buf_size := u32 (run_size + dsize) in
  let pr := run_pack run svcn len run_buf_size in
  let out := firstn (Z.to_nat run_buf_size) (pr_bytes pr) in
  let r := memcpy r (attr + run_off) out (blen out) in
  let err := pr_err pr in
  if err <? 0 then
    let r := memmove r next (next + dsize) tail in
    (err, with_mrec mi r)
  else
    let new_run_size := QuadAlign err in
    let r := memmove r (next + new_run_size - run_size) (next + dsize) tail in
    let r := set_attr_size r attr (u32 (asize + new_run_size - run_size)) in
    let r := set_attr_nres_evcn r attr (u64 (clst (svcn + pr_plen pr - 1))) in
    let r := set_rec_used r (u32 (used + new_run_size - run_size)) in
    (0, with_dirty (with_mrec mi r) true).

(** ** Record life cycle: mi_init, mi_read, mi_write, mi_format_new,
    mi_mark_free *)

Definition mi_init (w : world) (mi : mft_inode) (sb : ntfs_sb_info)
    (rn : Z) : Z * mft_inode * world :=
  let '(m, w) := ntfs_alloc w (record_size sb) in
  let mi := {| sbi := sb; rno := rn; mrec := m; dirty := dirty mi;
               nbufs := nbufs mi |} in
  match m with
  | None => (- ENOMEM, mi, w)
  | Some _ => (0, mi, w)
  end.

(** One call of [ntfs_read_bh_ex] on the record of [mi]. *)
Definition read_bh (w : world) (mi : mft_inode) (vbo bpr : Z)
  : Z * mft_inode * world :=
  let r := mrec_bytes mi in
  let '(err, data, nb, w) := ntfs_read_bh_ex w (sbi mi) vbo r bpr in
  (err, with_nbufs (with_mrec mi (memcpy r 0 data bpr)) nb, w).

(** The [ok:] label. *)
Definition mi_read_ok (mi : mft_inode) (bpr : Z) : Z :=
  if negb (rec_total (mrec_bytes mi) =? bpr) then - EINVAL else 0.

Definition mi_read (w : world) (mi : mft_inode) (is_mft : bool)
  : Z * mft_inode * world :=
  let bpr := record_size (sbi mi) in
  let vbo := u64 (Z.shiftl (rno mi) (record_bits (sbi mi))) in
  let '(err, mi, w) := read_bh w mi vbo bpr in
  if err =? 0 then (mi_read_ok mi bpr, mi, w)
  else if err =? 1 then
    let mi := with_dirty mi true in (mi_read_ok mi bpr, mi, w)
  else if negb (err =? - ENOENT) then (err, mi, w)
  else
    let '(err, w) :=
      attr_load_runs_vcn w (sbi mi)
        (Z.shiftr vbo (cluster_bits (sbi mi))) in
    if negb (err =? 0) then (err, mi, w)
    else
      let '(err, mi, w) := read_bh w mi vbo bpr in
      if err =? 1 then
        let mi := with_dirty mi true in (mi_read_ok mi bpr, mi, w)
      else if negb (err =? 0) then (err, mi, w)
      else (mi_read_ok mi bpr, mi, w).

Definition mi_write (w : world) (mi : mft_inode) (wait : Z)
  : Z * mft_inode * world :=
  if negb (dirty mi) then (0, mi, w)
  else
    let '(err, w) :=
      ntfs_write_bh_ex w (sbi mi) (mrec_bytes mi) (nbufs mi) wait in
    if negb (err =? 0) then (err, mi, w)
    else (0, with_dirty mi false, w).

(** Lines 372-385: the sequence number of the record to format, with the
    state [mi_read] leaves behind where it is called. *)
Definition format_new_seq (w : world) (mi : mft_inode) (rn : Z)
    (is_mft : bool) : Z * mft_inode * world :=
  if rn =? MFT_REC_MFT then (1, mi, w)
  else if rn <? MFT_REC_FREE then (u16 rn, mi, w)
  else if rn >=? mft_used (sbi mi) then (1, mi, w)
  else
    let '(err, mi, w) := mi_read w mi is_mft in
    if negb (err =? 0) then (1, mi, w)
    else if rec_sign (mrec_bytes mi) =? NTFS_FILE_SIGNATURE then
      (* Record is reused. Update its sequence number *)
      let seq := u16 (rec_seq (mrec_bytes mi) + 1) in
      let seq := if seq =? 0 then 1 else seq in
      (seq, mi, w)
    else (1, mi, w).

Definition mi_format_new (w : world) (mi : mft_inode) (sb : ntfs_sb_info)
    (rn flags : Z) (is_mft : bool) : Z * mft_inode * world :=
  let vbo := u64 (Z.shiftl rn (record_bits sb)) in
  let '(err, mi, w) := mi_init w mi sb rn in
  if negb (err =? 0) then (err, mi, w)
  else
    let '(seq, mi, w) := format_new_seq w mi rn is_mft in
    let r := mrec_bytes mi in
    let r := memcpy r 0 (new_rec sb) (record_size sb) in
    let r := set_rec_seq r seq in
    let r := set_rec_flags r (Z.lor RECORD_FLAG_IN_USE flags) in
    let mi := with_dirty (with_mrec mi r) true in
    if nbufs mi =? 0 then
      let '(err, nb, w) := ntfs_get_bh w sb vbo (record_size sb) in
      (err, with_nbufs mi nb, w)
    else (err, mi, w).

Definition mi_mark_free (w : world) (mi : mft_inode) : mft_inode * world :=
  let rn := rno mi in
  let sb := sbi mi in
  if (rn >=? MFT_REC_RESERVED) && (rn <? MFT_REC_FREE) then
    let w := ntfs_clear_mft_tail w sb rn (clst (rn + 1)) in
    (with_dirty mi false, w)
  else
    let '(mi, w) :=
      match mrec mi with
      | Some r =>
          let mi := with_dirty (with_mrec mi (clear_rec_inuse r)) true in
          let '(_, mi, w) := mi_write w mi 0 in
          (mi, w)
      | None => (mi, w)
      end in
    (mi, ntfs_mark_rec_free w sb rn).

End WithCollaborators.

(** ** The enumeration as a relation *)

(** [enum_chain mi attr l]: repeated calls of [mi_enum_attr], starting after
    [attr], return the attributes [l] in this order and then [NULL]. *)
Inductive enum_chain (mi : mft_inode) : option Z -> list Z -> Prop :=
| chain_end attr :
    mi_enum_attr mi attr = None -> enum_chain mi attr []
| chain_next attr a l :
    mi_enum_attr mi attr = Some a ->
    enum_chain mi (Some a) l ->
    enum_chain mi attr (a :: l).

(** Bytes of the buffer an enumeration that continues after [attr] can
    still cover. *)
Definition enum_room (mi : mft_inode) (attr : option Z) : nat :=
  match attr with
  | None => length (mrec_bytes mi)
  | Some p => Z.to_nat (blen (mrec_bytes mi) - Z.max 0 p)
  end.

(** The ids of the attributes of a record, in enumeration order. *)
Definition attr_ids (mi : mft_inode) : list Z :=
  map (attr_id (mrec_bytes mi)) (attr_list mi).

Definition max_id_of (ids : list Z) : Z := fold_right Z.max 0 ids.

(** The slow path of [mi_new_attt_id] on the list of ids. *)
Fixpoint id_scan (fuel : nat) (all rest : list Z) (free_id max_id : Z)
  : option (Z * Z) :=
  match fuel with
  | O => None
  | S fuel' =>
      match rest with
      | [] => Some (free_id, max_id)
      | t16 :: rest' =>
          if t16 =? free_id then
            id_scan fuel' all all (u16 (free_id + 1)) max_id
          else
            id_scan fuel' all rest' free_id
              (if max_id <? t16 then t16 else max_id)
      end
  end.

(** ** The attribute that a call of [mi_enum_attr] examines *)

(** Its position: the first attribute offset of the header on the first
    call, and the end of the previous attribute afterwards. *)
Definition current_attr (r : buffer) (attr : option Z) : Z :=
  match attr with
  | None => rec_attr_off r
  | Some q => q + attr_size r q
  end.

(** The same as the 32-bit offset that the code compares with [used]. *)
Definition current_off (r : buffer) (attr : option Z) : Z :=
  match attr with
  | None => rec_attr_off r
  | Some q => u32 (u32 q + attr_size r q)
  end.

(** The least size the code accepts for a non-resident attribute. *)
Definition nonres_min_size (r : buffer) (p : Z) : Z :=
  if negb (attr_nres_svcn r p =? 0) || negb (is_attr_ext r p)
  then SIZEOF_NONRESIDENT - 8
  else SIZEOF_NONRESIDENT_EX - 8.

(** The violations [mi_enum_attr] looks for in the attribute at [p]: its
    first 8 bytes or its declared size reach past [used] (as 32-bit
    sums), its type is not a multiple of 16 up to 0x100, or its size is
    below the minimum of its form. *)
Definition attr_violation (r : buffer) (used p off : Z) : Prop :=
  u32 (off + 8) > used
  \/ Z.land (attr_type r p) 0xf <> 0
  \/ attr_type r p > 0x100
  \/ u32 (off + attr_size r p) > used
  \/ (attr_non_res r p = 0 /\ attr_size r p < SIZEOF_RESIDENT)
  \/ (attr_non_res r p <> 0 /\ attr_size r p < nonres_min_size r p).

(** An attribute that is not quad-aligned, in position or in size. *)
Definition attr_misaligned (r : buffer) (p : Z) : Prop :=
  p mod 8 <> 0 \/ attr_size r p mod 8 <> 0.

(** ** Attributes of a well-formed record *)

(** Rounding up to a multiple of 8, on the integers. *)
Definition round_up_to_8 (n : Z) : Z := 8 * ((n + 7) / 8).

(** The attribute at [attr] lies behind the record header and inside the
    used part of the record, [used <= total], and the buffer holds [total]
    bytes (fewer than 2^31). *)
Definition attr_in_record (mi : mft_inode) (attr : Z) : Prop :=
  let r := mrec_bytes mi in
  MFTRECORD_FIXUP_OFFSET_1 <= attr
  /\ 8 <= attr_size r attr
  /\ attr + attr_size r attr <= rec_used r
  /\ rec_used r <= rec_total r
  /\ rec_total r <= blen r
  /\ blen r < 2 ^ 31.

(** The non-resident attribute at [attr] lies behind the record header and
    inside the used part of the record; its run list starts behind the
    non-resident header and inside the attribute; [used] is within the
    record size of the volume, and the buffer holds a record of that size
    (fewer than 2^31 bytes). *)
Definition nonres_in_record (mi : mft_inode) (attr : Z) : Prop :=
  let r := mrec_bytes mi in
  MFTRECORD_FIXUP_OFFSET_1 <= attr
  /\ SIZEOF_NONRESIDENT <= attr_nres_run_off r attr
  /\ attr_nres_run_off r attr <= attr_size r attr
  /\ attr + attr_size r attr <= rec_used r
  /\ rec_used r <= record_size (sbi mi)
  /\ record_size (sbi mi) <= blen r
  /\ blen r < 2 ^ 31.

(** What [mi_pack_runs] needs to stay inside the buffer: the attribute at
    [attr] lies behind the record header and inside the used part of the
    record, it holds the fields that the function reads and writes (the
    last of them is [run_off]), its run list starts inside the attribute,
    [used] is within the record size of the volume, and the buffer holds a
    record of that size (fewer than 2^31 bytes).  Where the run list starts
    is left open: [mi_enum_attr] does not check [run_off] against the
    non-resident header. *)
Definition runs_in_record (mi : mft_inode) (attr : Z) : Prop :=
  let r := mrec_bytes mi in
  MFTRECORD_FIXUP_OFFSET_1 <= attr
  /\ OFF_nres_run_off + 2 <= attr_size r attr
  /\ attr_nres_run_off r attr <= attr_size r attr
  /\ attr + attr_size r attr <= rec_used r
  /\ rec_used r <= record_size (sbi mi)
  /\ record_size (sbi mi) <= blen r
  /\ blen r < 2 ^ 31.

(** ** Sample records and collaborators

    Concrete inputs on which the functions are evaluated. *)

Definition zero_buffer (n : Z) : buffer := repeat x00 (Z.to_nat n).

(** An in-use 'FILE' record in a buffer of [size] bytes whose attributes
    start at 0x38. *)
Definition sample_header (size total used next_id : Z) : buffer :=
  let r := zero_buffer size in
  let r := set_le 4 r OFF_rhdr_sign NTFS_FILE_SIGNATURE in
  let r := set_le 2 r OFF_attr_off 0x38 in
  let r := set_rec_flags r RECORD_FLAG_IN_USE in
  let r := set_rec_used r used in
  let r := set_le 4 r OFF_total total in
  set_rec_next_attr_id r next_id.

(** A resident attribute header without name and data. *)
Definition put_resident (r : buffer) (a type size id : Z) : buffer :=
  let r := set_attr_type r a type in
  let r := set_attr_size r a size in
  let r := set_attr_id r a id in
  set_le 2 r (a + OFF_res_data_off) SIZEOF_RESIDENT.

(** A non-resident attribute header without name. *)
Definition put_nonresident (r : buffer) (a type size id svcn run_off : Z)
  : buffer :=
  let r := set_attr_type r a type in
  let r := set_attr_size r a size in
  let r := set_le 1 r (a + OFF_non_res) 1 in
  let r := set_attr_id r a id in
  let r := set_le 8 r (a + OFF_nres_svcn) svcn in
  set_le 2 r (a + OFF_nres_run_off) run_off.

Definition put_end (r : buffer) (a : Z) : buffer :=
  set_attr_type r a ATTR_END.

(** The empty record: header and the end marker. *)
Definition empty_record (size : Z) : buffer :=
  put_end (sample_header size size 0x40 0) 0x38.

Definition sample_sbi (size : Z) : ntfs_sb_info :=
  {| record_size := size; record_bits := 10; cluster_bits := 12;
     mft_used := 64; new_rec := empty_record size; mounted := false |}.

Definition sample_mi (size rn : Z) (r : buffer) : mft_inode :=
  {| sbi := sample_sbi size; rno := rn; mrec := Some r; dirty := false;
     nbufs := 1 |}.

(** Four resident attributes with the ids 0, 1, 3, 4 and an exhausted
    id counter. *)
Definition record_ids_0134 : buffer :=
  let r := sample_header 1024 1024 0xA0 0x7FFF in
  let r := put_resident r 0x38 0x10 0x18 0 in
  let r := put_resident r 0x50 0x30 0x18 1 in
  let r := put_resident r 0x68 0x80 0x18 3 in
  let r := put_resident r 0x80 0x90 0x18 4 in
  put_end r 0x98.

(** One resident attribute (type 0x10, id 0) of 0x20 bytes. *)
Definition record_one_attr : buffer :=
  let r := sample_header 1024 1024 0x60 1 in
  let r := put_resident r 0x38 0x10 0x20 0 in
  put_end r 0x58.

(** What the collaborators of the sample world were asked to do. *)
Inductive io_event :=
| EvAlloc (size : Z)
| EvRead (vbo bpr : Z)
| EvLoadRuns (vcn : Z)
| EvWrite (r : buffer) (wait : Z)
| EvGetBh (vbo bytes : Z)
| EvClearTail (from to : Z)
| EvMarkFree (rn : Z).

(** Plain comparison of two names, byte by byte. *)
Fixpoint cmp_bytes (x y : list byte) : Z :=
  match x, y with
  | [], [] => 0
  | [], _ :: _ => -1
  | _ :: _, [] => 1
  | a :: x', c :: y' =>
      let d := Z_of_byte a - Z_of_byte c in
      if d =? 0 then cmp_bytes x' y' else d
  end.

(** A world that logs every request.  [disk vbo] is what a read at [vbo]
    returns (result and bytes), [packer] is the run-list serializer, and
    writes succeed. *)
Definition trace_collab (disk : Z -> Z * list byte)
    (packer : Z -> Z -> Z -> pack_result) : Collaborators :=
  {| world := list io_event;
     runs_tree := unit;
     ntfs_cmp_names := fun n1 _ n2 _ _ => cmp_bytes n1 n2;
     run_pack := fun _ svcn len size => packer svcn len size;
     ntfs_alloc := fun w size =>
       (Some (zero_buffer size), w ++ [EvAlloc size]);
     ntfs_read_bh_ex := fun w _ vbo _ bpr =>
       (fst (disk vbo), snd (disk vbo), 1, w ++ [EvRead vbo bpr]);
     attr_load_runs_vcn := fun w _ vcn => (0, w ++ [EvLoadRuns vcn]);
     ntfs_write_bh_ex := fun w _ r _ wait => (0, w ++ [EvWrite r wait]);
     ntfs_get_bh := fun w _ vbo bytes => (0, 1, w ++ [EvGetBh vbo bytes]);
     ntfs_clear_mft_tail := fun w _ from to => w ++ [EvClearTail from to];
     ntfs_mark_rec_free := fun w _ rn => w ++ [EvMarkFree rn] |}.

(** A disk without readable records and a serializer that always fails. *)
Definition no_disk (vbo : Z) : Z * list byte := (- 5, []).
Definition no_packer (svcn len size : Z) : pack_result :=
  {| pr_err := - 95; pr_plen := 0; pr_bytes := [] |}.

(** A record whose header declares [total = 0x48] in a volume with
    1024-byte records: header and end marker, [used = 0x40]. *)
Definition record_small_total : buffer :=
  put_end (sample_header 1024 0x48 0x40 0) 0x38.

(** Two resident attributes; the first one is 0x19 bytes long, so the
    second one starts at the odd offset 0x51. *)
Definition record_misaligned : buffer :=
  let r := sample_header 1024 1024 0x74 2 in
  let r := put_resident r 0x38 0x10 0x19 0 in
  let r := put_resident r 0x51 0x30 0x1B 1 in
  put_end r 0x6C.

(** A disk on which every record reads back as a 'FILE' record with the
    sequence number [seq]. *)
Definition disk_with_seq (seq : Z) (vbo : Z) : Z * list byte :=
  (0, set_rec_seq (empty_record 1024) seq).

(** An [mft_inode] that has not been set up yet. *)
Definition fresh_mi : mft_inode :=
  {| sbi := sample_sbi 1024; rno := 0; mrec := None; dirty := false;
     nbufs := 0 |}.

(** One non-resident attribute (type 0x80, run list at 0x40, 0x48 bytes,
    [svcn = 16]) followed by a resident one. *)
Definition record_nonres : buffer :=
  let r := sample_header 1024 1024 0xA0 2 in
  let r := put_nonresident r 0x38 0x80 0x48 0 16 0x40 in
  let r := put_resident r 0x80 0x90 0x18 1 in
  put_end r 0x98.

(** A serializer that packs 3 clusters into 5 bytes, whatever is asked. *)
Definition packer_3_of (svcn len size : Z) : pack_result :=
  {| pr_err := 5; pr_plen := 3;
     pr_bytes := ["021"; "003"; "100"; "001"; "000"]%byte |}.

(** The first extent of a non-resident attribute: [svcn = 0]. *)
Definition record_nonres_first : buffer :=
  let r := sample_header 1024 1024 0xA0 2 in
  let r := put_nonresident r 0x38 0x80 0x48 0 0 0x40 in
  let r := put_resident r 0x80 0x90 0x18 1 in
  put_end r 0x98.

(** A serializer that packs no cluster: the run list is its end byte. *)
Definition packer_0_of (svcn len size : Z) : pack_result :=
  {| pr_err := 1; pr_plen := 0; pr_bytes := ["000"]%byte |}.

(** A non-resident attribute whose run list starts at the odd offset
    0x41, so that 7 bytes of run list are left in the attribute. *)
Definition record_nonres_odd : buffer :=
  let r := sample_header 1024 1024 0xA0 2 in
  let r := put_nonresident r 0x38 0x80 0x48 0 16 0x41 in
  let r := put_resident r 0x80 0x90 0x18 1 in
  put_end r 0x98.

(** A serializer that packs 3 clusters and fills the space it is given. *)
Definition packer_fill (svcn len size : Z) : pack_result :=
  {| pr_err := size; pr_plen := 3;
     pr_bytes := repeat "001"%byte (Z.to_nat size) |}.

(** A non-resident attribute with [evcn = 20] whose [run_off] is 0x18,
    the offset of [evcn]. *)
Definition record_runs_in_header : buffer :=
  let r := sample_header 1024 1024 0xA0 2 in
  let r := put_nonresident r 0x38 0x80 0x48 0 16 0x18 in
  let r := set_attr_nres_evcn r 0x38 20 in
  let r := put_resident r 0x80 0x90 0x18 1 in
  put_end r 0x98.

(** A serializer that fails after it has stored 8 bytes. *)
Definition packer_fails_late (svcn len size : Z) : pack_result :=
  {| pr_err := - 95; pr_plen := 0; pr_bytes := repeat "255"%byte 8 |}.

(** ** Further definitions used in the statements of Part II *)

(** The last attribute of a list, as the argument of the next call of
    [mi_enum_attr]. *)
Definition last_attr (l : list Z) : option Z :=
  match rev l with
  | [] => None
  | a :: _ => Some a
  end.

(** [attr_walk r used p l q]: the attributes [l] lie one behind the other
    from [p] to [q]; each of them passes the checks of [mi_enum_attr] and
    ends within [used]. *)
Inductive attr_walk (r : buffer) (used : Z) : Z -> list Z -> Z -> Prop :=
| walk_nil p : attr_walk r used p [] p
| walk_cons p l q :
    enum_check r used p (u32 p) = Some p ->
    p + attr_size r p <= used ->
    attr_walk r used (p + attr_size r p) l q ->
    attr_walk r used p (p :: l) q.

(** The position at which the enumeration of a record stops: behind its
    last attribute. *)
Definition attr_end (mi : mft_inode) : Z :=
  current_attr (mrec_bytes mi) (last_attr (attr_list mi)).

(** Every attribute of the record ends within [used]; the code checks this
    for the 32-bit sum of offset and size only. *)
Definition attrs_fit (mi : mft_inode) : Prop :=
  forall a, In a (attr_list mi) ->
    a + attr_size (mrec_bytes mi) a <= rec_used (mrec_bytes mi).

(** The enumeration stops at the end marker, or where fewer than 8 used
    bytes are left. *)
Definition ends_properly (mi : mft_inode) : Prop :=
  let r := mrec_bytes mi in
  rec_used r < attr_end mi + 8 \/ attr_type r (attr_end mi) = ATTR_END.

(** The enumeration stops at the end marker, and the marker is the last
    8 bytes of the used part: what [mi_insert_attr] relies on when it
    appends at [used - 8]. *)
Definition ends_at_marker (mi : mft_inode) : Prop :=
  let r := mrec_bytes mi in
  attr_type r (attr_end mi) = ATTR_END /\ attr_end mi + 8 = rec_used r.

(** A well-formed record: the header passes the tests of the first call
    of [mi_enum_attr], every attribute ends within [used], the list ends
    at the end marker, [total] is the record size of the volume (what
    [mi_read] checks), and the buffer holds [total] bytes, fewer than
    2^31. *)
Definition record_ok (mi : mft_inode) : Prop :=
  let r := mrec_bytes mi in
  enum_start r (rec_used r) None = Some (rec_attr_off r, rec_attr_off r)
  /\ attrs_fit mi
  /\ ends_at_marker mi
  /\ rec_total r = record_size (sbi mi)
  /\ rec_total r <= blen r
  /\ blen r < 2 ^ 31.

(** The name of every attribute lies inside the buffer.  [mi_enum_attr]
    checks a name against the run list offset of a non-resident attribute
    only, while [mi_find_attr] and [compare_attr] read the name where
    [name_off] and [name_len] say. *)
Definition names_in_buffer (mi : mft_inode) : Prop :=
  let r := mrec_bytes mi in
  forall a, In a (attr_list mi) ->
    a + attr_name_off r a + 2 * attr_name_len r a <= blen r.

(** A start reference for a search: [NULL] or an attribute of the
    record. *)
Definition start_of_record (mi : mft_inode) (attr : option Z) : Prop :=
  match attr with
  | None => True
  | Some a => In a (attr_list mi)
  end.

(** A serializer that packs 7 clusters into 12 bytes, whatever is asked. *)
Definition packer_7_of (svcn len size : Z) : pack_result :=
  {| pr_err := 12; pr_plen := 7;
     pr_bytes := ["049"; "007"; "000"; "001"; "000"; "000"; "000"; "000";
                  "000"; "000"; "000"; "000"]%byte |}.

(** Three resident attributes with the ids 0, 1, 2 and an exhausted id
    counter. *)
Definition record_ids_012 : buffer :=
  let r := sample_header 1024 1024 0x88 0x7FFF in
  let r := put_resident r 0x38 0x10 0x18 0 in
  let r := put_resident r 0x50 0x30 0x18 1 in
  let r := put_resident r 0x68 0x80 0x18 2 in
  put_end r 0x80.

(** One resident attribute that declares a size of 0xFFFFFFF0 bytes. *)
Definition record_wrapped_size : buffer :=
  let r := sample_header 1024 1024 0x60 1 in
  let r := put_resident r 0x38 0x10 0xFFFFFFF0 0 in
  put_end r 0x58.

(* ================================================================== *)
(** * Part II: properties *)
(* ================================================================== *)

(** ** Bytes and buffers *)

Lemma Z_of_byte_range (b : byte) : 0 <= Z_of_byte b < 256.
Proof.
  unfold Z_of_byte. pose proof (Byte.to_N_bounded b) as H.
  lia.
Qed.

Lemma Z_of_byte_of_Z (z : Z) : Z_of_byte (byte_of_Z z) = z mod 256.
Proof.
  unfold Z_of_byte, byte_of_Z.
  pose proof (Z.mod_pos_bound z 256 ltac:(lia)) as Hr.
  destruct (Byte.of_N (Z.to_N (z mod 256))) as [b|] eqn:E.
  - apply Byte.to_of_N in E. rewrite E. lia.
  - apply Byte.of_N_None_iff in E. lia.
Qed.

Lemma getb_outside (b : buffer) (i : Z) :
  i < 0 \/ blen b <= i -> getb b i = x00.
Proof.
  unfold getb, blen. intros H. destruct (Z.ltb_spec i 0); [easy|].
  apply nth_overflow. lia.
Qed.

Lemma length_overlay_from b : forall i f,
  length (overlay_from i b f) = length b.
Proof.
  induction b as [|x b IH]; intros i f; simpl; [reflexivity|].
  now rewrite IH.
Qed.

Lemma length_overlay b f : length (overlay b f) = length b.
Proof. apply length_overlay_from. Qed.

Lemma nth_overlay_from b : forall k i f,
  (k < length b)%nat ->
  nth k (overlay_from i b f) x00
  = match f (i + Z.of_nat k) with
    | Some y => y
    | None => nth k b x00
    end.
Proof.
  induction b as [|x b IH]; intros k i f Hk; simpl in Hk; [lia|].
  destruct k as [|k]; simpl.
  - now rewrite Z.add_0_r.
  - rewrite IH by lia. replace (i + 1 + Z.of_nat k) with (i + Z.pos (Pos.of_succ_nat k)) by lia.
    reflexivity.
Qed.

Lemma getb_overlay b f i :
  getb (overlay b f) i
  = match f i with
    | Some y => if in_range 0 (blen b) i then y else x00
    | None => getb b i
    end.
Proof.
  unfold getb, in_range, blen. destruct (Z.ltb_spec i 0) as [Hn|Hn].
  - destruct (Z.leb_spec 0 i); [lia|]. simpl. now destruct (f i).
  - destruct (Z.leb_spec 0 i); [|lia]. simpl.
    destruct (Z.ltb_spec i (Z.of_nat (length b))) as [Hi|Hi].
    + unfold overlay. rewrite nth_overlay_from by lia.
      rewrite Z.add_0_l, Z2Nat.id by lia. reflexivity.
    + rewrite !nth_overflow by (rewrite ?length_overlay; lia).
      now destruct (f i).
Qed.

Lemma buffer_ext (b b' : buffer) :
  length b = length b' ->
  (forall i, 0 <= i < blen b -> getb b i = getb b' i) ->
  b = b'.
Proof.
  intros Hl H. apply (nth_ext b b' x00 x00 Hl). intros n Hn.
  specialize (H (Z.of_nat n)). unfold getb, blen in H.
  destruct (Z.ltb_spec (Z.of_nat n) 0); [lia|].
  rewrite Nat2Z.id in H. apply H. lia.
Qed.

Lemma in_range_true lo n i : in_range lo n i = true <-> lo <= i < lo + n.
Proof. unfold in_range. rewrite andb_true_iff, Z.leb_le, Z.ltb_lt. tauto. Qed.

Lemma in_range_false lo n i :
  in_range lo n i = false <-> i < lo \/ lo + n <= i.
Proof.
  unfold in_range. rewrite andb_false_iff, Z.leb_gt, Z.ltb_ge. tauto.
Qed.

Lemma length_memmove b dst src n : length (memmove b dst src n) = length b.
Proof. apply length_overlay. Qed.

Lemma length_memset b dst c n : length (memset b dst c n) = length b.
Proof. apply length_overlay. Qed.

Lemma length_memcpy b dst src n : length (memcpy b dst src n) = length b.
Proof. apply length_overlay. Qed.

Lemma length_set_le k b off v : length (set_le k b off v) = length b.
Proof. apply length_overlay. Qed.

Lemma getb_memmove b dst src n i :
  getb (memmove b dst src n) i
  = if in_range dst n i && in_range 0 (blen b) i
    then getb b (src + (i - dst)) else getb b i.
Proof.
  unfold memmove. rewrite getb_overlay.
  destruct (in_range _ _ i); simpl; [|reflexivity].
  destruct (in_range 0 (blen b) i) eqn:E; [reflexivity|].
  symmetry. apply getb_outside. apply in_range_false in E. lia.
Qed.

Lemma getb_memset b dst c n i :
  getb (memset b dst c n) i
  = if in_range dst n i && in_range 0 (blen b) i then c else getb b i.
Proof.
  unfold memset. rewrite getb_overlay.
  destruct (in_range _ _ i); simpl; [|reflexivity].
  destruct (in_range 0 (blen b) i) eqn:E; [reflexivity|].
  symmetry. apply getb_outside. apply in_range_false in E. lia.
Qed.

Lemma getb_memcpy b dst src n i :
  getb (memcpy b dst src n) i
  = if in_range dst n i && in_range 0 (blen b) i
    then getb src (i - dst) else getb b i.
Proof.
  unfold memcpy. rewrite getb_overlay.
  destruct (in_range _ _ i); simpl; [|reflexivity].
  destruct (in_range 0 (blen b) i) eqn:E; [reflexivity|].
  symmetry. apply getb_outside. apply in_range_false in E. lia.
Qed.

Lemma getb_set_le k b off v i :
  getb (set_le k b off v) i
  = if in_range off (Z.of_nat k) i && in_range 0 (blen b) i
    then byte_of_Z (v / 256 ^ (i - off)) else getb b i.
Proof.
  unfold set_le. rewrite getb_overlay.
  destruct (in_range _ _ i); simpl; [|reflexivity].
  destruct (in_range 0 (blen b) i) eqn:E; [reflexivity|].
  symmetry. apply getb_outside. apply in_range_false in E. lia.
Qed.

(** ** Little-endian fields *)

Lemma get_le_ext k : forall b b' off,
  (forall j, 0 <= j < Z.of_nat k -> getb b' (off + j) = getb b (off + j)) ->
  get_le k b' off = get_le k b off.
Proof.
  induction k as [|k IH]; intros b b' off H; [reflexivity|].
  cbn [get_le]. rewrite (IH b b' (off + 1)).
  - specialize (H 0). rewrite Z.add_0_r in H. rewrite H by lia. reflexivity.
  - intros j Hj. replace (off + 1 + j) with (off + (j + 1)) by lia.
    apply H. lia.
Qed.

Lemma get_le_range k : forall b off, 0 <= get_le k b off < 256 ^ Z.of_nat k.
Proof.
  induction k as [|k IH]; intros b off.
  - simpl. lia.
  - cbn [get_le]. specialize (IH b (off + 1)).
    pose proof (Z_of_byte_range (getb b off)).
    rewrite Nat2Z.inj_succ, Z.pow_succ_r by lia. lia.
Qed.

Lemma get_le_bytes k : forall b off v,
  (forall j, 0 <= j < Z.of_nat k ->
             Z_of_byte (getb b (off + j)) = (v / 256 ^ j) mod 256) ->
  get_le k b off = v mod 256 ^ Z.of_nat k.
Proof.
  induction k as [|k IH]; intros b off v H.
  - simpl. now rewrite Z.mod_1_r.
  - cbn [get_le]. rewrite (IH b (off + 1) (v / 256)).
    + specialize (H 0). rewrite Z.add_0_r in H. rewrite H by lia.
      rewrite Z.pow_0_r, Z.div_1_r.
      rewrite Nat2Z.inj_succ, Z.pow_succ_r by lia.
      rewrite Z.rem_mul_r by lia. reflexivity.
    + intros j Hj. replace (off + 1 + j) with (off + (j + 1)) by lia.
      rewrite H by lia. rewrite Z.pow_add_r, Z.pow_1_r by lia.
      rewrite Z.div_div by lia. f_equal. f_equal. lia.
Qed.

Lemma get_le_set_le_same k b off v :
  0 <= off -> off + Z.of_nat k <= blen b ->
  get_le k (set_le k b off v) off = v mod 256 ^ Z.of_nat k.
Proof.
  intros H0 H1. apply get_le_bytes. intros j Hj.
  rewrite getb_set_le.
  replace (in_range off (Z.of_nat k) (off + j)) with true
    by (symmetry; apply in_range_true; lia).
  replace (in_range 0 (blen b) (off + j)) with true
    by (symmetry; apply in_range_true; lia).
  simpl. rewrite Z_of_byte_of_Z. do 3 f_equal. lia.
Qed.

Lemma get_le_set_le_other k k' b off off' v :
  off' + Z.of_nat k' <= off \/ off + Z.of_nat k <= off' ->
  get_le k' (set_le k b off v) off' = get_le k' b off'.
Proof.
  intros H. apply get_le_ext. intros j Hj. rewrite getb_set_le.
  replace (in_range off (Z.of_nat k) (off' + j)) with false
    by (symmetry; apply in_range_false; lia).
  reflexivity.
Qed.

Lemma get_le_memmove_other k b dst src n off :
  off + Z.of_nat k <= dst \/ dst + n <= off ->
  get_le k (memmove b dst src n) off = get_le k b off.
Proof.
  intros H. apply get_le_ext. intros j Hj. rewrite getb_memmove.
  replace (in_range dst n (off + j)) with false
    by (symmetry; apply in_range_false; lia).
  reflexivity.
Qed.

Lemma get_le_memset_other k b dst c n off :
  off + Z.of_nat k <= dst \/ dst + n <= off ->
  get_le k (memset b dst c n) off = get_le k b off.
Proof.
  intros H. apply get_le_ext. intros j Hj. rewrite getb_memset.
  replace (in_range dst n (off + j)) with false
    by (symmetry; apply in_range_false; lia).
  reflexivity.
Qed.

Lemma get_le_memcpy_other k b dst src n off :
  off + Z.of_nat k <= dst \/ dst + n <= off ->
  get_le k (memcpy b dst src n) off = get_le k b off.
Proof.
  intros H. apply get_le_ext. intros j Hj. rewrite getb_memcpy.
  replace (in_range dst n (off + j)) with false
    by (symmetry; apply in_range_false; lia).
  reflexivity.
Qed.

(** A field that starts at or past the end of the buffer reads 0. *)
Lemma get_le_outside k : forall b off,
  off + Z.of_nat k <= 0 \/ blen b <= off -> get_le k b off = 0.
Proof.
  induction k as [|k IH]; intros b off H; [reflexivity|].
  cbn [get_le]. rewrite IH by lia. rewrite getb_outside by lia. reflexivity.
Qed.

(** ** Machine integers *)

Lemma u32_range x : 0 <= u32 x < 2 ^ 32.
Proof. unfold u32. apply Z.mod_pos_bound. lia. Qed.

Lemma u16_range x : 0 <= u16 x < 2 ^ 16.
Proof. unfold u16. apply Z.mod_pos_bound. lia. Qed.

Lemma u32_small x : 0 <= x < 2 ^ 32 -> u32 x = x.
Proof. unfold u32. intros. now apply Z.mod_small. Qed.

Lemma u16_small x : 0 <= x < 2 ^ 16 -> u16 x = x.
Proof. unfold u16. intros. now apply Z.mod_small. Qed.

Lemma u64_small x : 0 <= x < 2 ^ 64 -> u64 x = x.
Proof. unfold u64. intros. now apply Z.mod_small. Qed.

Lemma s32_small x : 0 <= x < 2 ^ 31 -> s32 x = x.
Proof.
  intros H. unfold s32. rewrite u32_small by lia.
  destruct (Z.ltb_spec x (2 ^ 31)); lia.
Qed.

(** [QuadAlign] rounds up to a multiple of 8 (in 32-bit arithmetic). *)
Lemma QuadAlign_spec n : QuadAlign n = 8 * (u32 (n + 7) / 8).
Proof.
  unfold QuadAlign.
  pose proof (u32_range (n + 7)) as Hr.
  set (x := u32 (n + 7)) in *.
  replace (u32 (Z.lnot 7)) with (Z.ldiff (Z.ones 32) (Z.ones 3))
    by reflexivity.
  rewrite Z.ldiff_land, Z.land_assoc.
  rewrite Z.land_ones by lia. rewrite (Z.mod_small x) by lia.
  rewrite <- Z.ldiff_land, Z.ldiff_ones_r by lia.
  rewrite Z.shiftl_mul_pow2, Z.shiftr_div_pow2 by lia.
  change (2 ^ 3) with 8. lia.
Qed.

Lemma QuadAlign_small n :
  0 <= n -> n + 7 < 2 ^ 32 -> QuadAlign n = 8 * ((n + 7) / 8).
Proof.
  intros. rewrite QuadAlign_spec, u32_small by lia. reflexivity.
Qed.

Lemma QuadAlign_aligned n :
  0 <= n < 2 ^ 32 - 8 -> n mod 8 = 0 -> QuadAlign n = n.
Proof.
  intros H Hm. rewrite QuadAlign_small by lia.
  pose proof (Z.div_mod n 8 ltac:(lia)) as E.
  replace (n + 7) with (n / 8 * 8 + 7) by lia.
  rewrite Z.div_add_l by lia. change (7 / 8) with 0. lia.
Qed.

(** ** mi_enum_attr: bounds and termination *)

Lemma attr_size_nonzero r p : attr_size r p <> 0 -> -8 < p /\ p + 4 < blen r.
Proof.
  intros H. unfold attr_size, OFF_size in H.
  destruct (Z_le_gt_dec (p + 4 + Z.of_nat 4) 0) as [Hlo|Hlo].
  { exfalso. apply H. apply get_le_outside. lia. }
  destruct (Z_le_gt_dec (blen r) (p + 4)) as [Hhi|Hhi].
  { exfalso. apply H. apply get_le_outside. lia. }
  lia.
Qed.

Lemma attr_non_res_nonzero r p : attr_non_res r p <> 0 -> p + 8 < blen r.
Proof.
  intros H. unfold attr_non_res, OFF_non_res in H.
  destruct (Z_le_gt_dec (blen r) (p + 8)) as [Hhi|Hhi]; [|lia].
  exfalso. apply H. apply get_le_outside. lia.
Qed.

Ltac break_if :=
  match goal with
  | H : context [if ?c then _ else _] |- _ => destruct c eqn:?
  end.

Lemma enum_check_inv r used p off a :
  enum_check r used p off = Some a -> a = p /\ p < blen r.
Proof.
  unfold enum_check. intros H.
  repeat break_if; try discriminate; inversion H; subst a; split;
    try reflexivity.
  - (* resident: the size is at least SIZEOF_RESIDENT *)
    assert (Hs : attr_size r p <> 0)
      by (unfold SIZEOF_RESIDENT in *; lia).
    apply attr_size_nonzero in Hs. lia.
  - assert (Hn : attr_non_res r p <> 0) by lia.
    apply attr_non_res_nonzero in Hn. lia.
  - assert (Hn : attr_non_res r p <> 0) by lia.
    apply attr_non_res_nonzero in Hn. lia.
Qed.

Lemma enum_start_inv r used attr p off :
  enum_start r used attr = Some (p, off) ->
  0 < p /\ off = u32 p
  /\ match attr with
     | None => p = rec_attr_off r
     | Some q => p = q + attr_size r q /\ SIZEOF_RESIDENT <= attr_size r q
     end.
Proof.
  unfold enum_start. destruct attr as [q|]; intros H.
  - repeat break_if; try discriminate. inversion H; subst p off.
    assert (Hs : attr_size r q <> 0) by (unfold SIZEOF_RESIDENT in *; lia).
    apply attr_size_nonzero in Hs. unfold SIZEOF_RESIDENT in *.
    repeat split; try lia.
    unfold u32. rewrite Zplus_mod_idemp_l. reflexivity.
  - repeat break_if; try discriminate. inversion H; subst p off.
    apply orb_false_iff in Heqb0. destruct Heqb0 as [Hb _].
    apply orb_false_iff in Hb. destruct Hb as [_ Hb].
    unfold MFTRECORD_FIXUP_OFFSET_1 in Hb.
    pose proof (get_le_range 2 r OFF_attr_off) as Hr.
    fold (rec_attr_off r) in Hr. change (256 ^ Z.of_nat 2) with 65536 in Hr.
    repeat split; try lia.
    symmetry. apply u32_small. lia.
Qed.

Lemma mi_enum_attr_bounds mi attr a :
  mi_enum_attr mi attr = Some a ->
  0 < a < blen (mrec_bytes mi)
  /\ forall p, attr = Some p -> p + SIZEOF_RESIDENT <= a.
Proof.
  unfold mi_enum_attr. intros H.
  destruct (enum_start _ _ attr) as [[p off]|] eqn:E; [|discriminate].
  apply enum_check_inv in H. destruct H as [-> Hp].
  apply enum_start_inv in E. destruct E as (H0 & _ & E).
  split; [lia|]. intros q ->. lia.
Qed.

Lemma enum_room_decreases mi attr a :
  mi_enum_attr mi attr = Some a ->
  (enum_room mi (Some a) < enum_room mi attr)%nat.
Proof.
  intros H. apply mi_enum_attr_bounds in H. destruct H as [Ha Hp].
  unfold enum_room, blen in *. destruct attr as [p|].
  - specialize (Hp p eq_refl). unfold SIZEOF_RESIDENT in Hp. lia.
  - lia.
Qed.

Lemma enum_room_fuel mi attr : (enum_room mi attr < enum_fuel mi)%nat.
Proof.
  unfold enum_room, enum_fuel, blen. destruct attr; lia.
Qed.

(** With fuel beyond the room left, [enum_list] is the whole enumeration. *)
Lemma enum_list_chain : forall fuel mi attr,
  (enum_room mi attr < fuel)%nat ->
  enum_chain mi attr (enum_list fuel mi attr).
Proof.
  induction fuel as [|fuel IH]; intros mi attr Hf; [lia|].
  cbn [enum_list]. destruct (mi_enum_attr mi attr) as [a|] eqn:E.
  - apply chain_next; [exact E|]. apply IH.
    apply enum_room_decreases in E. lia.
  - now apply chain_end.
Qed.

Lemma attr_list_chain mi : enum_chain mi None (attr_list mi).
Proof. apply enum_list_chain, enum_room_fuel. Qed.

Lemma enum_chain_length mi attr l :
  enum_chain mi attr l -> (length l <= enum_room mi attr)%nat.
Proof.
  induction 1 as [attr E|attr a l E _ IH]; simpl; [lia|].
  apply enum_room_decreases in E. lia.
Qed.

Lemma enum_chain_unique mi attr l :
  enum_chain mi attr l -> forall l', enum_chain mi attr l' -> l = l'.
Proof.
  induction 1 as [attr E|attr a l E _ IH]; intros l' H'; inversion H'; subst;
    try congruence.
  assert (a0 = a) by congruence. subst a0. f_equal. now apply IH.
Qed.

Lemma enum_chain_fuel mi attr l :
  enum_chain mi attr l -> (length l < enum_fuel mi)%nat.
Proof.
  intros H. apply enum_chain_length in H.
  pose proof (enum_room_fuel mi attr). lia.
Qed.

(** ** mi_find_attr *)

Lemma bytes_eqb_eq : forall x y, bytes_eqb x y = true <-> x = y.
Proof.
  induction x as [|a x IH]; destruct y as [|c y]; simpl; try easy.
  rewrite andb_true_iff, IH. split.
  - intros [Hb ->]. apply Byte.byte_dec_bl in Hb. now subst.
  - intros H. inversion H; subst. split; [now apply Byte.byte_dec_lb|easy].
Qed.

(** [attr_matches] says: same type, same name length, same name bytes, and
    the requested id if there is one. *)
Lemma attr_matches_iff r ty name nl id a :
  attr_matches r ty name nl id a = true <->
  attr_type r a = ty
  /\ attr_name_len r a = nl
  /\ slice r (a + attr_name_off r a) (nl * 2) = slice name 0 (nl * 2)
  /\ match id with Some i => i = attr_id r a | None => True end.
Proof.
  unfold attr_matches. rewrite !andb_true_iff, orb_true_iff, !Z.eqb_eq.
  rewrite bytes_eqb_eq.
  assert (Hid : (match id with Some i => i =? attr_id r a | None => true end)
                = true
                <-> match id with Some i => i = attr_id r a | None => True end).
  { destruct id; [apply Z.eqb_eq|tauto]. }
  rewrite Hid. split.
  - intros [[[Ht Hl] Hn] Hi]. repeat split; try assumption.
    destruct Hn as [-> | Hn]; [reflexivity|exact Hn].
  - intros (Ht & Hl & Hn & Hi). repeat split; try assumption. now right.
Qed.

(** One round of the [next_attr:] loop decides as [locate] does. *)
Lemma find_loop_step fuel mi attr a ty name nl id :
  mi_enum_attr mi attr = Some a ->
  mi_find_attr_loop (S fuel) mi attr ty name nl id
  = if attr_type (mrec_bytes mi) a >? ty then Some None
    else if attr_matches (mrec_bytes mi) ty name nl id a then Some (Some a)
    else mi_find_attr_loop fuel mi (Some a) ty name nl id.
Proof.
  intros E. cbn [mi_find_attr_loop]. rewrite E. cbv zeta.
  unfold attr_matches.
  set (r := mrec_bytes mi).
  destruct (Z.gtb_spec (attr_type r a) ty) as [Hgt|Hle]; [reflexivity|].
  destruct (Z.ltb_spec (attr_type r a) ty) as [Hlt|Hge].
  { replace (attr_type r a =? ty) with false
      by (symmetry; apply Z.eqb_neq; lia). reflexivity. }
  replace (attr_type r a =? ty) with true
    by (symmetry; apply Z.eqb_eq; lia).
  destruct (attr_name_len r a =? nl); simpl; [|reflexivity].
  destruct (nl =? 0); simpl.
  - destruct id as [i|]; [destruct (i =? attr_id r a)|]; reflexivity.
  - destruct (bytes_eqb _ _); simpl; [|reflexivity].
    destruct id as [i|]; [destruct (i =? attr_id r a)|]; reflexivity.
Qed.

Lemma find_loop_chain mi attr l ty name nl id :
  enum_chain mi attr l ->
  forall fuel, (length l < fuel)%nat ->
  mi_find_attr_loop fuel mi attr ty name nl id
  = Some (locate (mrec_bytes mi) ty name nl id l).
Proof.
  induction 1 as [attr E|attr a l E _ IH]; intros fuel Hf;
    (destruct fuel as [|fuel]; [simpl in Hf; lia|]).
  - simpl. now rewrite E.
  - rewrite (find_loop_step _ _ _ _ _ _ _ _ E). cbn [locate].
    destruct (_ >? _); [reflexivity|].
    destruct (attr_matches _ _ _ _ _ _); [reflexivity|].
    apply IH. simpl in Hf. lia.
Qed.

Lemma locate_some r ty name nl id : forall l a,
  locate r ty name nl id l = Some a ->
  exists pre post,
    l = pre ++ a :: post
    /\ attr_matches r ty name nl id a = true
    /\ forall x, In x pre ->
         attr_type r x <= ty /\ attr_matches r ty name nl id x = false.
Proof.
  induction l as [|b l IH]; intros a H; simpl in H; [discriminate|].
  destruct (Z.gtb_spec (attr_type r b) ty) as [Hgt|Hle]; [discriminate|].
  destruct (attr_matches r ty name nl id b) eqn:M.
  - inversion H; subst b. exists [], l.
    split; [reflexivity|]. split; [exact M|]. intros x [].
  - destruct (IH a H) as (pre & post & -> & Ma & Hpre).
    exists (b :: pre), post. split; [reflexivity|]. split; [exact Ma|].
    intros x [<-|Hx]; [split; [lia|exact M]|]. now apply Hpre.
Qed.

Lemma locate_stops r ty name nl id : forall pre a post,
  (forall x, In x pre -> attr_matches r ty name nl id x = false) ->
  ty < attr_type r a ->
  locate r ty name nl id (pre ++ a :: post) = None.
Proof.
  induction pre as [|b pre IH]; intros a post Hpre Ha; simpl.
  - destruct (Z.gtb_spec (attr_type r a) ty); [reflexivity|lia].
  - destruct (_ >? _); [reflexivity|].
    rewrite (Hpre b (or_introl eq_refl)). apply IH; [|exact Ha].
    intros x Hx. apply Hpre. now right.
Qed.

(** The enumeration behind an attribute of a list is the rest of the
    list. *)
Lemma enum_chain_suffix mi : forall s l,
  enum_chain mi s l ->
  forall pre a post, l = pre ++ a :: post -> enum_chain mi (Some a) post.
Proof.
  induction 1 as [s E|s x l E Hl IH]; intros pre a post El.
  - destruct pre; discriminate.
  - destruct pre as [|y pre]; cbn [app] in El; inversion El; subst.
    + exact Hl.
    + eapply IH. reflexivity.
Qed.

Lemma enum_list_of_record mi attr :
  start_of_record mi attr ->
  exists pre,
    attr_list mi
    = pre ++ match attr with
             | Some a => a :: enum_list (enum_fuel mi) mi attr
             | None => enum_list (enum_fuel mi) mi attr
             end.
Proof.
  intros Hs. destruct attr as [a|].
  - cbn [start_of_record] in Hs. apply in_split in Hs.
    destruct Hs as (pre & post & El). exists pre. rewrite El. do 2 f_equal.
    apply (enum_chain_unique mi (Some a)).
    + exact (enum_chain_suffix mi None _ (attr_list_chain mi) pre a post El).
    + apply enum_list_chain, enum_room_fuel.
  - exists []. reflexivity.
Qed.

(** C7.  On a well-formed record whose attribute names lie inside the
    buffer, and for a start reference [attr] that is [NULL] or an
    attribute of the record: [mi_find_attr] returns, and what it returns
    is decided by the attributes that [mi_enum_attr] yields after [attr]
    (the attributes of the record behind [attr]), in this order: it is the
    first of them that has the requested type, a name of the requested
    length with exactly the requested bytes and, if an id is given, that
    id; and it is [NULL] as soon as an attribute of a type above the
    requested one comes before any such match, whatever follows that
    attribute in the record. *)
Theorem mi_find_attr_first_match mi attr ty name nl id :
  record_ok mi ->
  names_in_buffer mi ->
  start_of_record mi attr ->
  let r := mrec_bytes mi in
  let l := enum_list (enum_fuel mi) mi attr in
  enum_chain mi attr l
  /\ (exists pre,
        attr_list mi
        = pre ++ match attr with Some a => a :: l | None => l end)
  /\ mi_find_attr_loop (enum_fuel mi) mi attr ty name nl id
     = Some (mi_find_attr mi attr ty name nl id)
  /\ mi_find_attr mi attr ty name nl id = locate r ty name nl id l
  /\ (forall a, mi_find_attr mi attr ty name nl id = Some a ->
        exists pre post,
          l = pre ++ a :: post
          /\ (attr_type r a = ty
              /\ attr_name_len r a = nl
              /\ slice r (a + attr_name_off r a) (nl * 2)
                 = slice name 0 (nl * 2)
              /\ match id with Some i => i = attr_id r a | None => True end)
          /\ forall x, In x pre ->
               attr_type r x <= ty
               /\ attr_matches r ty name nl id x = false)
  /\ (forall pre a post,
        l = pre ++ a :: post ->
        (forall x, In x pre -> attr_matches r ty name nl id x = false) ->
        ty < attr_type r a ->
        mi_find_attr mi attr ty name nl id = None).
Proof.
  intros _ _ Hstart r l.
  assert (Hc : enum_chain mi attr l)
    by apply enum_list_chain, enum_room_fuel.
  assert (Hloop : mi_find_attr_loop (enum_fuel mi) mi attr ty name nl id
                  = Some (locate r ty name nl id l)).
  { apply find_loop_chain; [exact Hc|]. eapply enum_chain_fuel, Hc. }
  assert (Hfind : mi_find_attr mi attr ty name nl id
                  = locate r ty name nl id l).
  { unfold mi_find_attr. now rewrite Hloop. }
  split; [exact Hc|]. split; [exact (enum_list_of_record mi attr Hstart)|].
  split; [now rewrite Hfind|].
  split; [exact Hfind|]. split.
  - intros a Ha. rewrite Hfind in Ha.
    destruct (locate_some _ _ _ _ _ _ _ Ha) as (pre & post & El & Ma & Hpre).
    exists pre, post. split; [exact El|]. split; [|exact Hpre].
    now apply attr_matches_iff.
  - intros pre a post El Hpre Ha. rewrite Hfind, El.
    now apply locate_stops.
Qed.

(** ** mi_new_attt_id *)

Lemma attr_id_range r a : 0 <= attr_id r a < 2 ^ 16.
Proof. unfold attr_id. apply (get_le_range 2). Qed.

(** The loop over the record is the scan over the list of its ids. *)
Lemma new_attt_id_loop_scan mi all :
  enum_chain mi None all ->
  forall fuel attr rest free_id max_id,
    enum_chain mi attr rest ->
    new_attt_id_loop fuel mi attr free_id max_id
    = id_scan fuel (map (attr_id (mrec_bytes mi)) all)
        (map (attr_id (mrec_bytes mi)) rest) free_id max_id.
Proof.
  intros Hall. induction fuel as [|fuel IH];
    intros attr rest free_id max_id Hrest; [reflexivity|].
  cbn [new_attt_id_loop id_scan].
  inversion Hrest as [attr' E|attr' a l E Hl]; subst; rewrite E; simpl.
  - reflexivity.
  - destruct (_ =? free_id).
    + now apply IH.
    + now apply IH.
Qed.

(** Pigeonhole: a list that holds 0, ..., k-1 has at least k elements. *)
Lemma initial_segment_length (l : list Z) (k : Z) :
  (forall i, 0 <= i < k -> In i l) -> k <= Z.of_nat (length l).
Proof.
  intros H. destruct (Z_le_gt_dec k 0) as [Hk|Hk]; [lia|].
  assert (Hn : NoDup (map Z.of_nat (seq 0 (Z.to_nat k)))).
  { apply Injective_map_NoDup; [|apply seq_NoDup].
    intros x y. apply Nat2Z.inj. }
  apply NoDup_incl_length with (l' := l) in Hn.
  - rewrite length_map, length_seq in Hn. lia.
  - intros x Hx. apply in_map_iff in Hx. destruct Hx as (n & <- & Hn').
    apply in_seq in Hn'. apply H. lia.
Qed.

Lemma max_id_of_upper (l : list Z) : forall x, In x l -> x <= max_id_of l.
Proof.
  induction l as [|y l IH]; intros x Hx; simpl in *; [easy|].
  destruct Hx as [->|Hx]; [lia|]. specialize (IH x Hx). lia.
Qed.

Lemma max_id_of_in (l : list Z) :
  (forall x, In x l -> 0 <= x) -> max_id_of l = 0 \/ In (max_id_of l) l.
Proof.
  induction l as [|y l IH]; intros Hpos; simpl; [now left|].
  destruct IH as [IH|IH].
  - intros x Hx. apply Hpos. now right.
  - rewrite IH. specialize (Hpos y (or_introl eq_refl)).
    right. left. lia.
  - destruct (Z.max_spec y (max_id_of l)) as [[_ ->]|[_ ->]].
    + right. now right.
    + right. now left.
Qed.

Lemma max_id_of_unique (l : list Z) (m : Z) :
  (forall x, In x l -> 0 <= x) ->
  (forall x, In x l -> x <= m) ->
  m = 0 \/ In m l ->
  m = max_id_of l.
Proof.
  intros Hpos Hub Hm.
  destruct (max_id_of_in l Hpos) as [H0|Hin].
  - destruct Hm as [->|Hm]; [now rewrite H0|].
    pose proof (max_id_of_upper l m Hm). pose proof (Hpos m Hm). lia.
  - specialize (Hub _ Hin). destruct Hm as [->|Hm].
    + pose proof (Hpos _ Hin). lia.
    + pose proof (max_id_of_upper l m Hm). lia.
Qed.

(** The scan returns the least id that is not in the list and the largest
    id of the list, and it does so within the fuel. *)
Lemma id_scan_correct (all : list Z) :
  (forall x, In x all -> 0 <= x) ->
  Z.of_nat (length all) < 65536 ->
  forall fuel pre rest free_id max_id,
    all = pre ++ rest ->
    0 <= free_id ->
    (forall i, 0 <= i < free_id -> In i all) ->
    (forall x, In x pre -> x <> free_id /\ x <= max_id) ->
    (max_id = 0 \/ In max_id all) ->
    Z.of_nat (length rest) + 1
    + (Z.of_nat (length all) - free_id) * (Z.of_nat (length all) + 1)
    <= Z.of_nat fuel ->
    exists f,
      id_scan fuel all rest free_id max_id = Some (f, max_id_of all)
      /\ 0 <= f /\ ~ In f all /\ (forall i, 0 <= i < f -> In i all).
Proof.
  intros Hpos Hlen. induction fuel as [|fuel IH];
    intros pre rest free_id max_id Hall Hf Hlow Hpre Hmax Hfuel.
  { pose proof (initial_segment_length all free_id Hlow). nia. }
  cbn [id_scan]. destruct rest as [|t rest].
  - rewrite app_nil_r in Hall. subst pre. exists free_id.
    split; [|split; [exact Hf|split; [|exact Hlow]]].
    + f_equal. f_equal. apply max_id_of_unique; try assumption.
      intros x Hx. now apply Hpre.
    + intros Hin. now destruct (Hpre _ Hin).
  - assert (Ht : In t all) by (subst all; apply in_or_app; right; now left).
    destruct (Z.eqb_spec t free_id) as [->|Hne].
    + (* the id is taken: try the next one, from the start *)
      assert (Hlow' : forall i, 0 <= i < free_id + 1 -> In i all).
      { intros i Hi. destruct (Z.eq_dec i free_id) as [->|]; [exact Ht|].
        apply Hlow. lia. }
      pose proof (initial_segment_length all _ Hlow') as Hk.
      rewrite u16_small by lia.
      apply (IH [] all (free_id + 1) max_id); try assumption;
        try reflexivity; try lia;
        try (intros x []); try (simpl length in Hfuel; nia).
    + apply (IH (pre ++ [t]) rest free_id
               (if max_id <? t then t else max_id)); try assumption.
      * subst all. now rewrite <- app_assoc.
      * intros x Hx. apply in_app_or in Hx.
        destruct Hx as [Hx|[Hx|[]]].
        -- destruct (Hpre x Hx). split; [assumption|].
           destruct (Z.ltb_spec max_id t); lia.
        -- subst x. split; [assumption|].
           destruct (Z.ltb_spec max_id t); lia.
      * destruct (Z.ltb_spec max_id t); [now right|assumption].
      * simpl length in Hfuel. lia.
Qed.

Lemma mrec_bytes_with_mrec mi b : mrec_bytes (with_mrec mi b) = b.
Proof. reflexivity. Qed.

Lemma mrec_bytes_with_dirty mi d : mrec_bytes (with_dirty mi d) = mrec_bytes mi.
Proof. reflexivity. Qed.

Lemma rec_next_attr_id_set mi v :
  MFTRECORD_FIXUP_OFFSET_1 <= blen (mrec_bytes mi) ->
  rec_next_attr_id
    (mrec_bytes (with_mrec mi (set_rec_next_attr_id (mrec_bytes mi) v)))
  = u16 v.
Proof.
  intros H. rewrite mrec_bytes_with_mrec.
  unfold rec_next_attr_id, set_rec_next_attr_id.
  unfold MFTRECORD_FIXUP_OFFSET_1, OFF_next_attr_id in *.
  rewrite get_le_set_le_same by (simpl; lia). reflexivity.
Qed.


(** ** mi_insert_attr *)

Section Insert.

Context {C : Collaborators}.

(** The scan for the insertion point ends within its fuel. *)
Lemma insert_scan_chain mi attr l ty name nl :
  enum_chain mi attr l ->
  forall fuel, (length l < fuel)%nat ->
  exists s, insert_scan fuel mi attr ty name nl = Some s.
Proof.
  induction 1 as [attr E|attr a l E _ IH]; intros fuel Hf;
    (destruct fuel as [|fuel]; [simpl in Hf; lia|]); cbn [insert_scan];
    rewrite E.
  - now exists ScanEnd.
  - cbv zeta. destruct (_ >? 0); [now eexists|].
    destruct (_ <? 0); [apply IH; simpl in Hf; lia|].
    destruct (negb _); now eexists.
Qed.

Lemma insert_scan_total mi ty name nl :
  exists s, insert_scan (enum_fuel mi) mi None ty name nl = Some s.
Proof.
  pose proof (attr_list_chain mi) as Hc.
  eapply insert_scan_chain; [exact Hc|]. eapply enum_chain_fuel, Hc.
Qed.

(** [mi_insert_attr] returns [NULL] at its two [return NULL] statements and
    nowhere else, and at both the [mft_inode] is as it was. *)
Lemma mi_insert_attr_none mi ty name nl asize name_off :
  fst (mi_insert_attr mi ty name nl asize name_off) = None ->
  (u32 (rec_used (mrec_bytes mi) + asize) > record_size (sbi mi)
   \/ insert_scan (enum_fuel mi) mi None ty name nl = Some ScanReject)
  /\ mi_insert_attr mi ty name nl asize name_off = (None, mi).
Proof.
  unfold mi_insert_attr.
  destruct (Z.gtb_spec (u32 (rec_used (mrec_bytes mi) + asize))
              (record_size (sbi mi))) as [Hgt|Hle].
  { intros _. split; [left; lia|reflexivity]. }
  destruct (insert_scan_total mi ty name nl) as [s Hs]. rewrite Hs.
  destruct s as [|a|].
  - destruct (mi_new_attt_id mi) as [id mi1]. discriminate.
  - destruct (mi_new_attt_id mi) as [id mi1]. discriminate.
  - intros _. split; [now right|reflexivity].
Qed.

(** The capacity test of line 455. *)
Lemma mi_insert_attr_capacity_test mi ty name nl asize name_off :
  u32 (rec_used (mrec_bytes mi) + asize) > record_size (sbi mi) ->
  mi_insert_attr mi ty name nl asize name_off = (None, mi).
Proof.
  intros H. unfold mi_insert_attr.
  destruct (Z.gtb_spec (u32 (rec_used (mrec_bytes mi) + asize))
              (record_size (sbi mi))) as [_|Hle]; [reflexivity|lia].
Qed.

(** C1 (amended).  When the sum of [used] and the requested size, taken as
    the code takes it in unsigned 32-bit arithmetic, is above the record
    size of the volume, [mi_insert_attr] returns [NULL] and leaves the
    [mft_inode] as it was: the same record bytes, hence the same [used],
    and the same dirty flag. *)
Theorem mi_insert_attr_no_room mi ty name nl asize name_off :
  u32 (rec_used (mrec_bytes mi) + asize) > record_size (sbi mi) ->
  let res := mi_insert_attr mi ty name nl asize name_off in
  fst res = None
  /\ snd res = mi
  /\ mrec (snd res) = mrec mi
  /\ rec_used (mrec_bytes (snd res)) = rec_used (mrec_bytes mi)
  /\ dirty (snd res) = dirty mi.
Proof.
  intros H res. subst res.
  rewrite (mi_insert_attr_capacity_test mi ty name nl asize name_off H).
  cbn [fst snd]. repeat split.
Qed.

(** For a record whose [total] is the record size of the volume, as
    [mi_read] demands, and a sum that fits 32 bits, this is rejection on
    [used + asize > total]. *)
Corollary mi_insert_attr_capacity_total mi ty name nl asize name_off :
  rec_total (mrec_bytes mi) = record_size (sbi mi) ->
  0 <= asize ->
  rec_used (mrec_bytes mi) + asize < 2 ^ 32 ->
  rec_used (mrec_bytes mi) + asize > rec_total (mrec_bytes mi) ->
  mi_insert_attr mi ty name nl asize name_off = (None, mi).
Proof.
  intros Ht H0 Hw Hgt. apply mi_insert_attr_capacity_test.
  pose proof (get_le_range 4 (mrec_bytes mi) OFF_used) as Hu.
  fold (rec_used (mrec_bytes mi)) in Hu.
  rewrite u32_small by lia. lia.
Qed.

(** C10.  A call of [mi_insert_attr] that returns [NULL] -- for lack of
    room or because an attribute of the same type and name exists that is
    not indexed -- leaves the [mft_inode] as it was; in particular
    [next_attr_id] is not consumed. *)
Theorem mi_insert_attr_fail_keeps_id mi ty name nl asize name_off :
  fst (mi_insert_attr mi ty name nl asize name_off) = None ->
  (u32 (rec_used (mrec_bytes mi) + asize) > record_size (sbi mi)
   \/ insert_scan (enum_fuel mi) mi None ty name nl = Some ScanReject)
  /\ snd (mi_insert_attr mi ty name nl asize name_off) = mi
  /\ rec_next_attr_id
       (mrec_bytes (snd (mi_insert_attr mi ty name nl asize name_off)))
     = rec_next_attr_id (mrec_bytes mi).
Proof.
  intros H. apply mi_insert_attr_none in H. destruct H as [Hwhy Hres].
  rewrite Hres. cbn [snd]. auto.
Qed.

End Insert.

Lemma mi_insert_attr_no_room_witness :
  let mi := sample_mi 1024 30 record_one_attr in
  let res :=
    mi_insert_attr (C := trace_collab no_disk no_packer) mi 0x80 [] 0 0x400
      0x18 in
  fst res = None
  /\ snd res = mi
  /\ mrec (snd res) = mrec mi
  /\ rec_used (mrec_bytes (snd res)) = rec_used (mrec_bytes mi)
  /\ dirty (snd res) = dirty mi.
Proof.
  intros mi.
  apply (mi_insert_attr_no_room (C := trace_collab no_disk no_packer)).
  vm_compute. reflexivity.
Defined.

(** The claim with the [total] of the record header as the capacity fails.
    The first record declares [total = 0x48] in a volume of 1024-byte
    records and has [used = 0x40]: an entry of 0x18 bytes exceeds
    [total - used], yet it is inserted.  The second record is well formed
    ([total = 1024], [used = 0x60]): a request of 0xFFFFFFF0 bytes exceeds
    [total - used], but the 32-bit sum is 0x50 and the capacity test lets
    it pass (the statements that follow then address memory far outside
    the record). *)
Lemma mi_insert_attr_total_counterexample :
  let C := trace_collab no_disk no_packer in
  (let mi := sample_mi 1024 30 record_small_total in
   let res := mi_insert_attr (C := C) mi 0x10 [] 0 0x18 0x18 in
   rec_used (mrec_bytes mi) + 0x18 > rec_total (mrec_bytes mi)
   /\ fst res = Some 0x38
   /\ rec_used (mrec_bytes (snd res)) = 0x58
   /\ dirty (snd res) = true)
  /\ (let mi := sample_mi 1024 30 record_one_attr in
      let res := mi_insert_attr (C := C) mi 0x20 [] 0 0xFFFFFFF0 0x18 in
      rec_total (mrec_bytes mi) = record_size (sbi mi)
      /\ rec_used (mrec_bytes mi) + 0xFFFFFFF0 > rec_total (mrec_bytes mi)
      /\ u32 (rec_used (mrec_bytes mi) + 0xFFFFFFF0) = 0x50
      /\ fst res <> None).
Proof. vm_compute. repeat split; discriminate. Qed.

(** A second entry of type 0x10 without a name next to an attribute of
    type 0x10 that is not indexed. *)
Lemma mi_insert_attr_fail_keeps_id_witness :
  let mi := sample_mi 1024 30 record_one_attr in
  let res :=
    mi_insert_attr (C := trace_collab no_disk no_packer) mi 0x10 [] 0 0x18
      0x18 in
  (u32 (rec_used (mrec_bytes mi) + 0x18) > record_size (sbi mi)
   \/ insert_scan (C := trace_collab no_disk no_packer)
        (enum_fuel mi) mi None 0x10 [] 0 = Some ScanReject)
  /\ snd res = mi
  /\ rec_next_attr_id (mrec_bytes (snd res))
     = rec_next_attr_id (mrec_bytes mi).
Proof.
  intros mi res.
  apply (mi_insert_attr_fail_keeps_id (C := trace_collab no_disk no_packer)).
  vm_compute. reflexivity.
Defined.

(** ** mi_enum_attr: what ends the enumeration *)

Ltac destruct_tests :=
  repeat
    (match goal with
     | |- context [?a >? ?b] => destruct (Z.gtb_spec a b)
     | |- context [?a >=? ?b] => destruct (Z.geb_spec a b)
     | |- context [?a <? ?b] => destruct (Z.ltb_spec a b)
     | |- context [?a =? ?b] => destruct (Z.eqb_spec a b)
     | |- context [is_attr_ext ?r ?p] => destruct (is_attr_ext r p)
     | |- context [is_rec_inuse ?r] => destruct (is_rec_inuse r)
     | |- context [IsDwordAligned ?x] => destruct (IsDwordAligned x)
     end; cbn [negb orb andb]).

Lemma attr_size_range r p : 0 <= attr_size r p < 2 ^ 32.
Proof. unfold attr_size. apply (get_le_range 4). Qed.

Lemma rec_used_range r : 0 <= rec_used r < 2 ^ 32.
Proof. unfold rec_used. apply (get_le_range 4). Qed.

Lemma rec_total_range r : 0 <= rec_total r < 2 ^ 32.
Proof. unfold rec_total. apply (get_le_range 4). Qed.

Lemma rec_attr_off_range r : 0 <= rec_attr_off r < 2 ^ 16.
Proof. unfold rec_attr_off. apply (get_le_range 2). Qed.

Lemma enum_check_violation r used p off :
  attr_violation r used p off -> enum_check r used p off = None.
Proof.
  unfold attr_violation, enum_check, nonres_min_size.
  pose proof (attr_size_range r p) as Hs.
  unfold SIZEOF_RESIDENT, SIZEOF_NONRESIDENT, SIZEOF_NONRESIDENT_EX.
  destruct_tests; try reflexivity; intros Hviol; exfalso;
    repeat (destruct Hviol as [Hviol|Hviol]); try lia;
    try (rewrite u32_small in * by lia; lia).
Qed.

Lemma enum_start_current r used attr p off :
  enum_start r used attr = Some (p, off) ->
  p = current_attr r attr /\ off = current_off r attr.
Proof.
  unfold enum_start, current_attr, current_off.
  destruct attr as [q|]; destruct_tests; try discriminate;
    intros Hsome; inversion Hsome; auto.
Qed.

(** C6 (amended).  The first call ([attr = NULL]) returns [NULL] when the
    record is not in use, when [used > total], and when the first attribute
    offset is at or past [used], below [MFTRECORD_FIXUP_OFFSET_1], or not a
    multiple of 4.  Every call returns [NULL] when the attribute it
    examines has its first 8 bytes or its size reaching past [used], a type
    that is not a multiple of 16 up to 0x100, or a size below the resident
    or non-resident minimum.  There is no other outcome than an attribute
    or [NULL]. *)
Theorem mi_enum_attr_fail_closed (mi : mft_inode) :
  let r := mrec_bytes mi in
  let used := rec_used r in
  ((is_rec_inuse r = false
    \/ used > rec_total r
    \/ rec_attr_off r >= used
    \/ rec_attr_off r < MFTRECORD_FIXUP_OFFSET_1
    \/ IsDwordAligned (rec_attr_off r) = false) ->
   mi_enum_attr mi None = None)
  /\ (forall attr,
        attr_violation r used (current_attr r attr) (current_off r attr) ->
        mi_enum_attr mi attr = None)
  /\ (forall attr a,
        mi_enum_attr mi attr = Some a ->
        a = current_attr r attr
        /\ ~ attr_violation r used (current_attr r attr)
               (current_off r attr)).
Proof.
  intros r used. split; [|split].
  - unfold mi_enum_attr, enum_start. fold r. fold used.
    destruct_tests; try reflexivity; intros Hviol; exfalso;
      repeat (destruct Hviol as [Hviol|Hviol]); try lia; discriminate.
  - intros attr Hv. unfold mi_enum_attr. fold r. fold used.
    destruct (enum_start r used attr) as [[p off]|] eqn:E; [|reflexivity].
    apply enum_start_current in E. destruct E as [-> ->].
    now apply enum_check_violation.
  - intros attr a Ha. unfold mi_enum_attr in Ha. fold r in Ha.
    fold used in Ha.
    destruct (enum_start r used attr) as [[p off]|] eqn:E; [|discriminate].
    apply enum_start_current in E. destruct E as [-> ->].
    split.
    + apply enum_check_inv in Ha. tauto.
    + intros Hv. apply enum_check_violation in Hv. congruence.
Qed.

(** The claim as stated counts misalignment among the violations that end
    the walk.  In this record the first attribute is 0x19 bytes long; the
    second one starts at the odd offset 0x51 and is 0x1B bytes long, and
    the call after the first attribute returns it. *)
Lemma mi_enum_attr_misaligned_counterexample :
  let mi := sample_mi 1024 30 record_misaligned in
  let r := mrec_bytes mi in
  mi_enum_attr mi None = Some 0x38
  /\ current_attr r (Some 0x38) = 0x51
  /\ attr_misaligned r (current_attr r (Some 0x38))
  /\ mi_enum_attr mi (Some 0x38) = Some 0x51.
Proof.
  vm_compute. repeat split; try discriminate. left. discriminate.
Qed.

(** ** What an enumerated attribute is known to satisfy *)

Lemma enum_check_accepts r used p off a :
  enum_check r used p off = Some a ->
  u32 (off + 8) <= used
  /\ u32 (off + attr_size r p) <= used
  /\ 8 <= attr_size r p.
Proof.
  unfold enum_check.
  pose proof (attr_size_range r p) as Hs.
  unfold SIZEOF_RESIDENT, SIZEOF_NONRESIDENT, SIZEOF_NONRESIDENT_EX.
  destruct_tests; try discriminate; intros _; repeat split; try lia;
    destruct (Z_lt_ge_dec (attr_size r p) 8) as [Hlt|]; try lia;
    rewrite u32_small in * by lia; lia.
Qed.

Lemma enum_chain_in mi attr l :
  enum_chain mi attr l ->
  forall a, In a l -> exists prev, mi_enum_attr mi prev = Some a.
Proof.
  induction 1 as [attr E|attr a l E _ IH]; intros x Hx; [destruct Hx|].
  destruct Hx as [<-|Hx]; [now exists attr|now apply IH].
Qed.

Lemma enum_chain_behind_header mi attr l :
  enum_chain mi attr l ->
  match attr with
  | None => True
  | Some p => MFTRECORD_FIXUP_OFFSET_1 - SIZEOF_RESIDENT <= p
  end ->
  forall a, In a l -> MFTRECORD_FIXUP_OFFSET_1 <= a.
Proof.
  induction 1 as [attr E|attr a l E _ IH]; intros Hp x Hx; [destruct Hx|].
  assert (Ha : MFTRECORD_FIXUP_OFFSET_1 <= a).
  { destruct attr as [p|].
    - apply mi_enum_attr_bounds in E. destruct E as [_ E].
      specialize (E p eq_refl). lia.
    - unfold mi_enum_attr in E.
      destruct (enum_start _ _ None) as [[q off]|] eqn:Es; [|discriminate].
      apply enum_check_inv in E. destruct E as [-> _].
      unfold enum_start in Es. revert Es. destruct_tests; try discriminate.
      intros Es. inversion Es. lia. }
  destruct Hx as [<-|Hx]; [exact Ha|].
  apply IH; [|exact Hx]. unfold SIZEOF_RESIDENT. lia.
Qed.

(** In a record with [used <= total] whose buffer holds [total] bytes, an
    attribute that the enumeration yields and whose size is below 2^31 is
    an attribute of a well-formed record in the sense of
    [attr_in_record]. *)
Lemma attr_list_in_record mi a :
  In a (attr_list mi) ->
  rec_used (mrec_bytes mi) <= rec_total (mrec_bytes mi) ->
  rec_total (mrec_bytes mi) <= blen (mrec_bytes mi) ->
  blen (mrec_bytes mi) < 2 ^ 31 ->
  attr_size (mrec_bytes mi) a < 2 ^ 31 ->
  attr_in_record mi a.
Proof.
  intros Hin Hut Htb Hb Hs.
  pose proof (attr_list_chain mi) as Hc.
  pose proof (enum_chain_behind_header mi None _ Hc I a Hin) as Ha.
  destruct (enum_chain_in mi None _ Hc a Hin) as [prev E].
  pose proof (mi_enum_attr_bounds mi prev a E) as [Hab _].
  unfold mi_enum_attr in E.
  destruct (enum_start _ _ prev) as [[p off]|] eqn:Es; [|discriminate].
  pose proof (enum_check_inv _ _ _ _ _ E) as [-> _].
  apply enum_start_inv in Es. destruct Es as (_ & -> & _).
  apply enum_check_accepts in E. destruct E as (_ & Hend & H8).
  pose proof (attr_size_range (mrec_bytes mi) p) as Hsr.
  rewrite (u32_small p) in Hend by lia.
  rewrite u32_small in Hend by lia.
  unfold attr_in_record. cbv zeta. repeat split; assumption.
Qed.

(** ** mi_mark_free *)

Section Lifecycle.

Context {C : Collaborators}.

Lemma clear_rec_inuse_clears r :
  OFF_flags + 2 <= blen r -> is_rec_inuse (clear_rec_inuse r) = false.
Proof.
  intros H. unfold is_rec_inuse, clear_rec_inuse, rec_flags, set_rec_flags.
  unfold OFF_flags in *.
  rewrite get_le_set_le_same by (simpl; lia).
  change (256 ^ Z.of_nat 2) with (2 ^ 16).
  rewrite <- Z.land_ones by lia.
  rewrite <- !Z.land_assoc.
  change (Z.land (Z.ones 16) RECORD_FLAG_IN_USE) with 1.
  change (Z.land (u16 (Z.lnot RECORD_FLAG_IN_USE)) 1) with 0.
  now rewrite Z.land_0_r.
Qed.

(** C9 (amended).  For a record number in
    [MFT_REC_RESERVED, MFT_REC_FREE), [mi_mark_free] only asks for the tail
    of the MFT to be cleared and clears the dirty flag.  Otherwise, with a
    record buffer, it clears the in-use flag, marks the record dirty, has
    the record written with [wait = 0] -- the write is not asked to wait
    for completion -- whereby the dirty flag is cleared if the write
    succeeds, and then has the record marked free in the bitmap. *)
Theorem mi_mark_free_spec (w : world) (mi : mft_inode) :
  (MFT_REC_RESERVED <= rno mi < MFT_REC_FREE ->
   mi_mark_free w mi
   = (with_dirty mi false,
      ntfs_clear_mft_tail w (sbi mi) (rno mi) (rno mi + 1)))
  /\ (~ MFT_REC_RESERVED <= rno mi < MFT_REC_FREE ->
      forall r, mrec mi = Some r ->
        let written := with_dirty (with_mrec mi (clear_rec_inuse r)) true in
        let wr :=
          ntfs_write_bh_ex w (sbi mi) (clear_rec_inuse r) (nbufs mi) 0 in
        mi_mark_free w mi
        = (with_dirty written (negb (fst wr =? 0)),
           ntfs_mark_rec_free (snd wr) (sbi mi) (rno mi))
        /\ mi_write w written 0
           = (fst wr, with_dirty written (negb (fst wr =? 0)), snd wr)
        /\ (OFF_flags + 2 <= blen r ->
            is_rec_inuse (clear_rec_inuse r) = false)).
Proof.
  split.
  - intros Hr. unfold mi_mark_free, MFT_REC_RESERVED, MFT_REC_FREE in *.
    destruct (Z.geb_spec (rno mi) 11); [|lia].
    destruct (Z.ltb_spec (rno mi) 16); [|lia]. cbn [andb].
    unfold clst, CLST_BITS. rewrite Z.mod_small by lia. reflexivity.
  - intros Hr r Hm written wr.
    unfold MFT_REC_RESERVED, MFT_REC_FREE in Hr.
    assert (Hw : mi_write w written 0
                 = (fst wr, with_dirty written (negb (fst wr =? 0)), snd wr)).
    { unfold mi_write. subst written wr. cbn [dirty with_dirty negb].
      cbn [sbi nbufs with_mrec with_dirty]. rewrite mrec_bytes_with_dirty.
      rewrite mrec_bytes_with_mrec.
      destruct (ntfs_write_bh_ex w (sbi mi) (clear_rec_inuse r) (nbufs mi) 0)
        as [err w1]. cbn [fst snd].
      destruct (Z.eqb_spec err 0) as [->|Hne]; cbn [negb]; [reflexivity|].
      unfold with_dirty, with_mrec. reflexivity. }
    split; [|split; [exact Hw|apply clear_rec_inuse_clears]].
    unfold mi_mark_free, MFT_REC_RESERVED, MFT_REC_FREE.
    replace ((rno mi >=? 11) && (rno mi <? 16)) with false.
    2:{ symmetry. apply andb_false_iff.
        destruct (Z.geb_spec (rno mi) 11); [|now left].
        destruct (Z.ltb_spec (rno mi) 16); [lia|now right]. }
    rewrite Hm. fold written. rewrite Hw. reflexivity.
Qed.

End Lifecycle.

(** The claim as stated has the cleared record written synchronously.  In
    the logging world the requests of [mi_mark_free] for record 30 are a
    write with [wait = 0] and the bitmap update; no write with a non-zero
    [wait] is among them. *)
Lemma mi_mark_free_wait_counterexample :
  let mi := sample_mi 1024 30 record_one_attr in
  let log :=
    snd (mi_mark_free (C := trace_collab no_disk no_packer) [] mi) in
  log = [EvWrite (clear_rec_inuse record_one_attr) 0; EvMarkFree 30]
  /\ ~ (exists r wait, wait <> 0 /\ In (EvWrite r wait) log).
Proof.
  intros mi log.
  assert (E : log = [EvWrite (clear_rec_inuse record_one_attr) 0;
                     EvMarkFree 30]) by reflexivity.
  split; [exact E|]. rewrite E. intros (r & wait & Hw & Hin).
  destruct Hin as [Hin|[Hin|[]]]; [|discriminate].
  inversion Hin. congruence.
Qed.

(** ** mi_read and mi_format_new *)

Section Format.

Context {C : Collaborators}.

Lemma read_bh_length w mi vbo bpr :
  length (mrec_bytes (snd (fst (read_bh w mi vbo bpr))))
  = length (mrec_bytes mi).
Proof.
  unfold read_bh.
  destruct (ntfs_read_bh_ex w (sbi mi) vbo (mrec_bytes mi) bpr)
    as [[[err data] nb] w1].
  cbn [fst snd]. unfold with_nbufs, with_mrec, mrec_bytes at 1. cbn [mrec].
  apply length_memcpy.
Qed.

Lemma mi_read_length w mi is_mft :
  length (mrec_bytes (snd (fst (mi_read w mi is_mft))))
  = length (mrec_bytes mi).
Proof.
  unfold mi_read.
  pose proof (read_bh_length w mi
                (u64 (Z.shiftl (rno mi) (record_bits (sbi mi))))
                (record_size (sbi mi))) as H1.
  destruct (read_bh w mi _ _) as [[err mi1] w1]. cbn [fst snd] in H1.
  destruct (err =? 0); [exact H1|].
  destruct (err =? 1); [exact H1|].
  destruct (negb (err =? - ENOENT)); [exact H1|].
  destruct (attr_load_runs_vcn w1 (sbi mi1) _) as [err2 w2].
  destruct (negb (err2 =? 0)); [exact H1|].
  pose proof (read_bh_length w2 mi1
                (u64 (Z.shiftl (rno mi) (record_bits (sbi mi))))
                (record_size (sbi mi))) as H2.
  destruct (read_bh w2 mi1 _ _) as [[err3 mi3] w3]. cbn [fst snd] in H2.
  destruct (err3 =? 1);
    [cbn [fst snd]; rewrite mrec_bytes_with_dirty; congruence|].
  destruct (negb (err3 =? 0)); cbn [fst snd]; congruence.
Qed.

Lemma format_new_seq_length w mi rn is_mft :
  length (mrec_bytes (snd (fst (format_new_seq w mi rn is_mft))))
  = length (mrec_bytes mi).
Proof.
  unfold format_new_seq.
  destruct (rn =? MFT_REC_MFT); [reflexivity|].
  destruct (rn <? MFT_REC_FREE); [reflexivity|].
  destruct (rn >=? mft_used (sbi mi)); [reflexivity|].
  pose proof (mi_read_length w mi is_mft) as H.
  destruct (mi_read w mi is_mft) as [[err mi1] w1]. cbn [fst snd] in H.
  destruct (negb (err =? 0)); [exact H|].
  destruct (rec_sign _ =? _); exact H.
Qed.

Lemma format_new_seq_range w mi rn is_mft :
  0 <= fst (fst (format_new_seq w mi rn is_mft)) < 2 ^ 16.
Proof.
  unfold format_new_seq.
  destruct (rn =? MFT_REC_MFT); [cbn; lia|].
  destruct (rn <? MFT_REC_FREE); [cbn [fst]; apply u16_range|].
  destruct (rn >=? mft_used (sbi mi)); [cbn; lia|].
  destruct (mi_read w mi is_mft) as [[err mi1] w1].
  destruct (negb (err =? 0)); [cbn; lia|].
  destruct (rec_sign _ =? _); [|cbn; lia].
  cbn [fst].
  destruct (Z.eqb_spec (u16 (rec_seq (mrec_bytes mi1) + 1)) 0); [lia|].
  apply u16_range.
Qed.

(** C8 (amended).  When the record buffer is allocated, the record that
    [mi_format_new] leaves carries this sequence number: 1 for record 0
    ([MFT_REC_MFT]); the record number for the other records below
    [MFT_REC_FREE]; 1 for records at or beyond [sbi->mft.used]; and for the
    records in between, the sequence number read from the slot plus one,
    with 1 in place of a wrap to 0, if [mi_read] succeeds and finds the
    'FILE' signature, and 1 if not. *)
Theorem mi_format_new_seq_spec (w : world) (mi : mft_inode)
    (sb : ntfs_sb_info) (rn flags : Z) (is_mft : bool)
    (r0 : buffer) (w0 : world) :
  ntfs_alloc w (record_size sb) = (Some r0, w0) ->
  OFF_flags + 2 <= blen r0 ->
  let mi0 := {| sbi := sb; rno := rn; mrec := Some r0; dirty := dirty mi;
                nbufs := nbufs mi |} in
  let seq := fst (fst (format_new_seq w0 mi0 rn is_mft)) in
  let res := mi_format_new w mi sb rn flags is_mft in
  rec_seq (mrec_bytes (snd (fst res))) = seq
  /\ dirty (snd (fst res)) = true
  /\ (rn = MFT_REC_MFT -> seq = 1)
  /\ (rn <> MFT_REC_MFT -> 0 <= rn < MFT_REC_FREE -> seq = rn)
  /\ (MFT_REC_FREE <= rn -> mft_used sb <= rn -> seq = 1)
  /\ (MFT_REC_FREE <= rn < mft_used sb ->
      let rd := mi_read w0 mi0 is_mft in
      let old := mrec_bytes (snd (fst rd)) in
      (fst (fst rd) = 0 -> rec_sign old = NTFS_FILE_SIGNATURE ->
       seq = if rec_seq old =? 0xFFFF then 1 else rec_seq old + 1)
      /\ (fst (fst rd) <> 0 \/ rec_sign old <> NTFS_FILE_SIGNATURE ->
          seq = 1)).
Proof.
  intros Halloc Hlen mi0 seq res.
  assert (Hres : rec_seq (mrec_bytes (snd (fst res))) = seq
                 /\ dirty (snd (fst res)) = true).
  { subst res. unfold mi_format_new, mi_init. rewrite Halloc.
    fold mi0. cbn [Z.eqb negb].
    pose proof (format_new_seq_length w0 mi0 rn is_mft) as Hl.
    pose proof (format_new_seq_range w0 mi0 rn is_mft) as Hr.
    fold seq in Hr.
    destruct (format_new_seq w0 mi0 rn is_mft) as [[s mi1] w1] eqn:E.
    cbn [fst snd] in Hl. subst seq. cbn [fst] in *.
    assert (Hb : OFF_flags + 2 <= blen (mrec_bytes mi1)).
    { unfold blen in *. rewrite Hl. exact Hlen. }
    set (r2 := set_rec_flags _ _).
    assert (Hseq : rec_seq r2 = s).
    { subst r2. unfold rec_seq, set_rec_flags, set_rec_seq.
      unfold OFF_flags, OFF_seq in *.
      rewrite get_le_set_le_other by (simpl; lia).
      rewrite get_le_set_le_same
        by (unfold blen in *; rewrite ?length_memcpy; simpl; lia).
      apply Z.mod_small. exact Hr. }
    destruct (nbufs _ =? 0).
    - destruct (ntfs_get_bh w1 sb _ _) as [[err nb] w2]. cbn [fst snd].
      split; [exact Hseq|reflexivity].
    - cbn [fst snd]. split; [exact Hseq|reflexivity]. }
  destruct Hres as [Hseq Hdirty].
  split; [exact Hseq|]. split; [exact Hdirty|].
  subst seq. unfold format_new_seq. unfold MFT_REC_MFT, MFT_REC_FREE.
  change (sbi mi0) with sb.
  repeat split.
  - intros ->. reflexivity.
  - intros Hne Hrn. destruct (Z.eqb_spec rn 0); [lia|].
    destruct (Z.ltb_spec rn 16); [|lia]. cbn [fst]. apply u16_small. lia.
  - intros H16 Hused. destruct (Z.eqb_spec rn 0); [lia|].
    destruct (Z.ltb_spec rn 16); [lia|].
    destruct (Z.geb_spec rn (mft_used sb)); [reflexivity|lia].
  - intros Herr Hsign. destruct (Z.eqb_spec rn 0); [lia|].
    destruct (Z.ltb_spec rn 16); [lia|].
    destruct (Z.geb_spec rn (mft_used sb)); [lia|].
    destruct (mi_read w0 mi0 is_mft) as [[err mi1] w1].
    cbn [fst snd] in *. subst err. cbn [Z.eqb negb].
    rewrite Hsign, Z.eqb_refl. cbn [fst].
    pose proof (get_le_range 2 (mrec_bytes mi1) OFF_seq) as Hr.
    fold (rec_seq (mrec_bytes mi1)) in Hr.
    change (256 ^ Z.of_nat 2) with 65536 in Hr.
    destruct (Z.eqb_spec (rec_seq (mrec_bytes mi1)) 0xFFFF) as [->|Hne].
    + reflexivity.
    + rewrite u16_small by lia.
      destruct (Z.eqb_spec (rec_seq (mrec_bytes mi1) + 1) 0); [lia|].
      reflexivity.
  - intros Hbad. destruct (Z.eqb_spec rn 0); [lia|].
    destruct (Z.ltb_spec rn 16); [lia|].
    destruct (Z.geb_spec rn (mft_used sb)); [lia|].
    destruct (mi_read w0 mi0 is_mft) as [[err mi1] w1].
    cbn [fst snd] in *.
    destruct (Z.eqb_spec err 0) as [->|Hne]; cbn [negb]; [|reflexivity].
    destruct (Z.eqb_spec (rec_sign (mrec_bytes mi1)) NTFS_FILE_SIGNATURE);
      [|reflexivity].
    destruct Hbad; congruence.
Qed.

End Format.

(** Formatting record 40 of the sample volume, whose slot reads back as a
    'FILE' record with the sequence number 7. *)
Lemma mi_format_new_seq_spec_witness :
  let C := trace_collab (disk_with_seq 7) no_packer in
  let res :=
    mi_format_new (C := C) [] fresh_mi (sample_sbi 1024) 40 0 false in
  rec_seq (mrec_bytes (snd (fst res))) = 8
  /\ dirty (snd (fst res)) = true.
Proof.
  intros C res.
  pose proof (mi_format_new_seq_spec (C := C) [] fresh_mi (sample_sbi 1024)
                40 0 false (zero_buffer 1024) [EvAlloc 1024]
                eq_refl ltac:(vm_compute; discriminate)) as H.
  cbv zeta in H. destruct H as (Hseq & Hdirty & _).
  split; [|exact Hdirty].
  subst res. rewrite Hseq. vm_compute. reflexivity.
Defined.

(** The claim as stated gives every record number of the reserved low range
    its own number as sequence number.  Record 0 is in that range and is
    formatted with the sequence number 1. *)
Lemma mi_format_new_mft_counterexample :
  let C := trace_collab no_disk no_packer in
  let res :=
    mi_format_new (C := C) [] fresh_mi (sample_sbi 1024) 0 0 true in
  0 <= 0 < MFT_REC_FREE
  /\ fst (fst res) = 0
  /\ rec_seq (mrec_bytes (snd (fst res))) = 1
  /\ rec_seq (mrec_bytes (snd (fst res))) <> 0.
Proof. vm_compute. repeat split; discriminate. Qed.

(** ** mi_resize_attr *)

Lemma round_up_to_8_bounds n : n <= round_up_to_8 n < n + 8.
Proof.
  unfold round_up_to_8.
  pose proof (Z.div_mod (n + 7) 8 ltac:(lia)).
  pose proof (Z.mod_pos_bound (n + 7) 8 ltac:(lia)). lia.
Qed.

Lemma round_up_to_8_aligned n : round_up_to_8 n mod 8 = 0.
Proof.
  unfold round_up_to_8. rewrite Z.mul_comm. apply Z.mod_mul. lia.
Qed.

Lemma QuadAlign_round_up n :
  0 <= n -> n + 7 < 2 ^ 32 -> QuadAlign n = round_up_to_8 n.
Proof. intros. unfold round_up_to_8. now apply QuadAlign_small. Qed.

(** The fields that lines 565-568 leave behind. *)
Lemma resize_finish_fields mi r attr used nsize rsize :
  MFTRECORD_FIXUP_OFFSET_1 <= attr ->
  attr + 8 <= blen r ->
  0 <= used < 2 ^ 32 ->
  0 <= nsize < 2 ^ 32 ->
  fst (resize_finish mi r attr used nsize rsize) = true
  /\ rec_used (mrec_bytes (snd (resize_finish mi r attr used nsize rsize)))
     = used
  /\ attr_size (mrec_bytes (snd (resize_finish mi r attr used nsize rsize)))
       attr = nsize
  /\ rec_total (mrec_bytes (snd (resize_finish mi r attr used nsize rsize)))
     = rec_total r
  /\ length (mrec_bytes (snd (resize_finish mi r attr used nsize rsize)))
     = length r
  /\ dirty (snd (resize_finish mi r attr used nsize rsize)) = true.
Proof.
  intros Ha Hb Hu Hn. unfold resize_finish.
  cbn [fst snd]. rewrite mrec_bytes_with_dirty, mrec_bytes_with_mrec.
  unfold MFTRECORD_FIXUP_OFFSET_1 in Ha.
  set (r1 := set_rec_used r used).
  set (r2 := set_attr_size r1 attr nsize).
  assert (Hl1 : length r1 = length r) by apply length_set_le.
  assert (Hl2 : length r2 = length r)
    by (unfold r2, set_attr_size; now rewrite length_set_le).
  assert (Hu2 : rec_used r2 = used).
  { unfold r2, r1, rec_used, set_attr_size, set_rec_used, OFF_used, OFF_size.
    rewrite get_le_set_le_other by (simpl; lia).
    rewrite get_le_set_le_same by (simpl; lia).
    apply Z.mod_small. exact Hu. }
  assert (Hs2 : attr_size r2 attr = nsize).
  { unfold r2, attr_size, set_attr_size, OFF_size.
    rewrite get_le_set_le_same
      by (unfold blen in *; rewrite ?Hl1; simpl; lia).
    apply Z.mod_small. exact Hn. }
  assert (Ht2 : rec_total r2 = rec_total r).
  { unfold r2, r1, rec_total, set_attr_size, set_rec_used, OFF_used,
      OFF_size, OFF_total.
    rewrite !get_le_set_le_other by (simpl; lia). reflexivity. }
  split; [reflexivity|].
  destruct (attr_non_res r2 attr =? 0).
  - unfold set_attr_res_data_size, rec_used, attr_size, rec_total,
      OFF_res_data_size, OFF_used, OFF_size, OFF_total in *.
    rewrite !get_le_set_le_other by (simpl; lia).
    rewrite length_set_le. auto.
  - auto.
Qed.

(** Growing by [n] bytes: the result, for an attribute of a well-formed
    record. *)
Lemma mi_resize_attr_grow mi attr n :
  attr_in_record mi attr ->
  0 < n < 2 ^ 31 ->
  let r := mrec_bytes mi in
  let d := round_up_to_8 n in
  let next := attr + attr_size r attr in
  let tail := rec_used r - attr - attr_size r attr in
  mi_resize_attr mi attr n
  = if rec_used r + d >? rec_total r then (false, mi)
    else
      resize_finish mi
        (memset (memmove r (next + d) next (size_t tail)) next x00
           (size_t d))
        attr (rec_used r + d) (attr_size r attr + d)
        (u32 (attr_res_data_size r attr + d)).
Proof.
  intros (Ha & Hs8 & Hin & Hut & Htb & Hb) Hn r d next tail.
  fold r in Hs8, Hin, Hut, Htb, Hb.
  unfold mi_resize_attr. fold r.
  unfold MFTRECORD_FIXUP_OFFSET_1 in Ha.
  pose proof (rec_used_range r) as Hur.
  pose proof (attr_size_range r attr) as Hsr.
  pose proof (round_up_to_8_bounds n) as Hd.
  pose proof (round_up_to_8_aligned n) as Hdm. fold d in Hd, Hdm.
  rewrite (u32_small attr) by lia.
  rewrite (s32_small (rec_used r - attr - attr_size r attr)) by lia.
  fold tail.
  destruct (Z.ltb_spec tail 0) as [|_]; [subst tail; lia|].
  destruct (Z.geb_spec attr (rec_used r)) as [|_]; [lia|]. cbn [orb].
  destruct (Z.eqb_spec n 0) as [|_]; [lia|].
  destruct (Z.gtb_spec n 0) as [_|]; [|lia].
  rewrite (QuadAlign_round_up n) by lia. fold d.
  destruct (Z_lt_ge_dec d (2 ^ 31)) as [Hlt|Hge].
  - rewrite (s32_small d) by lia.
    rewrite (u32_small (rec_used r + d)) by lia.
    destruct (Z.gtb_spec (rec_used r + d) (rec_total r)); [reflexivity|].
    rewrite (u32_small (attr_size r attr + d)) by lia.
    reflexivity.
  - (* the rounded size does not fit an int: no room *)
    assert (Hd31 : d = 2 ^ 31).
    { assert (d mod 8 = 0) by exact Hdm.
      assert (d < 2 ^ 31 + 8) by lia.
      pose proof (Z.div_mod d 8 ltac:(lia)). lia. }
    assert (Hs : s32 d = - 2 ^ 31).
    { rewrite Hd31. reflexivity. }
    rewrite Hs.
    assert (Hu : u32 (rec_used r + - 2 ^ 31) = rec_used r + 2 ^ 31).
    { unfold u32.
      replace (rec_used r + - 2 ^ 31)
        with (rec_used r + 2 ^ 31 + (-1) * 2 ^ 32) by lia.
      rewrite Z.mod_add by lia. apply Z.mod_small. lia. }
    rewrite Hu.
    destruct (Z.gtb_spec (rec_used r + 2 ^ 31) (rec_total r)); [|lia].
    destruct (Z.gtb_spec (rec_used r + d) (rec_total r)); [reflexivity|lia].
Qed.

(** Shrinking by an aligned [d] that the attribute can give up. *)
Lemma mi_resize_attr_shrink mi attr d :
  attr_in_record mi attr ->
  0 < d < 2 ^ 31 ->
  d mod 8 = 0 ->
  d <= attr_size (mrec_bytes mi) attr ->
  let r := mrec_bytes mi in
  let next := attr + attr_size r attr in
  let tail := rec_used r - attr - attr_size r attr in
  mi_resize_attr mi attr (- d)
  = resize_finish mi (memmove r (next - d) next (size_t tail))
      attr (rec_used r - d) (attr_size r attr - d)
      (u32 (attr_res_data_size r attr - d)).
Proof.
  intros (Ha & Hs8 & Hin & Hut & Htb & Hb) Hd Hdm Hds r next tail.
  fold r in Hs8, Hin, Hut, Htb, Hb, Hds.
  unfold mi_resize_attr. fold r.
  unfold MFTRECORD_FIXUP_OFFSET_1 in Ha.
  pose proof (rec_used_range r) as Hur.
  pose proof (attr_size_range r attr) as Hsr.
  rewrite (u32_small attr) by lia.
  rewrite (s32_small (rec_used r - attr - attr_size r attr)) by lia.
  fold tail.
  destruct (Z.ltb_spec tail 0) as [|_]; [subst tail; lia|].
  destruct (Z.geb_spec attr (rec_used r)) as [|_]; [lia|]. cbn [orb].
  destruct (Z.eqb_spec (- d) 0) as [|_]; [lia|].
  destruct (Z.gtb_spec (- d) 0) as [|_]; [lia|].
  rewrite Z.opp_involutive.
  rewrite (QuadAlign_aligned d) by lia.
  rewrite (s32_small d) by lia. rewrite (u32_small d) by lia.
  destruct (Z.gtb_spec d (attr_size r attr)) as [|_]; [lia|].
  rewrite (u32_small (attr_size r attr - d)) by lia.
  rewrite (u32_small (rec_used r - d)) by lia.
  reflexivity.
Qed.

(** C3.  For an attribute of a well-formed record and a positive byte
    count [n]: if [mi_resize_attr] with [+ n] succeeds, then
    [mi_resize_attr] with [- round_up_to_8 n] on the result succeeds too,
    and after it the [used] field of the record and the size of the
    attribute are what they were before the first call. *)
Theorem mi_resize_attr_grow_shrink mi attr n mi1 :
  attr_in_record mi attr ->
  0 < n < 2 ^ 31 ->
  mi_resize_attr mi attr n = (true, mi1) ->
  exists mi2,
    mi_resize_attr mi1 attr (- round_up_to_8 n) = (true, mi2)
    /\ rec_used (mrec_bytes mi2) = rec_used (mrec_bytes mi)
    /\ attr_size (mrec_bytes mi2) attr = attr_size (mrec_bytes mi) attr
    /\ rec_used (mrec_bytes mi1)
       = rec_used (mrec_bytes mi) + round_up_to_8 n
    /\ attr_size (mrec_bytes mi1) attr
       = attr_size (mrec_bytes mi) attr + round_up_to_8 n.
Proof.
  intros Hwf Hn Hgrow.
  pose proof Hwf as (Ha & Hs8 & Hin & Hut & Htb & Hb).
  assert (Ha0 : 0x2A <= attr) by exact Ha.
  set (r := mrec_bytes mi) in *. set (d := round_up_to_8 n) in *.
  pose proof (rec_used_range r) as Hur.
  pose proof (attr_size_range r attr) as Hsr.
  pose proof (round_up_to_8_bounds n) as Hd. fold d in Hd.
  pose proof (round_up_to_8_aligned n) as Hdm. fold d in Hdm.
  rewrite (mi_resize_attr_grow mi attr n Hwf Hn) in Hgrow.
  fold r in Hgrow. fold d in Hgrow.
  destruct (Z.gtb_spec (rec_used r + d) (rec_total r)) as [|Hroom];
    [discriminate|].
  set (r1 := memset _ _ _ _) in Hgrow.
  assert (Hl1 : length r1 = length r)
    by (unfold r1; now rewrite length_memset, length_memmove).
  assert (Hb1 : attr + 8 <= blen r1)
    by (unfold blen in *; rewrite Hl1; lia).
  pose proof (resize_finish_fields mi r1 attr (rec_used r + d)
                (attr_size r attr + d)
                (u32 (attr_res_data_size r attr + d))
                Ha Hb1 ltac:(lia) ltac:(lia))
    as (_ & Hu1 & Hs1 & Ht1 & Hlen1 & _).
  rewrite Hgrow in Hu1, Hs1, Ht1, Hlen1. cbn [snd] in Hu1, Hs1, Ht1, Hlen1.
  assert (Ht1' : rec_total (mrec_bytes mi1) = rec_total r).
  { rewrite Ht1. unfold r1, rec_total, OFF_total.
    unfold MFTRECORD_FIXUP_OFFSET_1 in Ha.
    rewrite get_le_memset_other by (simpl; lia).
    rewrite get_le_memmove_other by (simpl; lia). reflexivity. }
  assert (Hwf1 : attr_in_record mi1 attr).
  { unfold attr_in_record. cbv zeta.
    rewrite Hu1, Hs1, Ht1'. unfold blen in *. rewrite Hlen1, Hl1.
    repeat split; lia. }
  assert (Hd31 : d < 2 ^ 31) by lia.
  pose proof (mi_resize_attr_shrink mi1 attr d Hwf1 ltac:(lia) Hdm
                ltac:(rewrite Hs1; lia)) as Hshrink.
  cbv zeta in Hshrink. rewrite Hu1, Hs1 in Hshrink.
  set (r2 := memmove _ _ _ _) in Hshrink.
  assert (Hl2 : length r2 = length r)
    by (unfold r2; rewrite length_memmove; congruence).
  assert (Hb2 : attr + 8 <= blen r2)
    by (unfold blen in *; rewrite Hl2; lia).
  pose proof (resize_finish_fields mi1 r2 attr (rec_used r + d - d)
                (attr_size r attr + d - d)
                (u32 (attr_res_data_size (mrec_bytes mi1) attr - d))
                Ha Hb2 ltac:(lia) ltac:(lia))
    as (Hok & Hu2 & Hs2 & _).
  rewrite <- Hshrink in Hok, Hu2, Hs2.
  exists (snd (mi_resize_attr mi1 attr (- d))).
  split; [|split; [|split; [|split]]].
  - rewrite <- Hok. now destruct (mi_resize_attr mi1 attr (- d)).
  - rewrite Hu2. lia.
  - rewrite Hs2. lia.
  - exact Hu1.
  - exact Hs1.
Qed.


(** ** mi_pack_runs *)

Lemma blen_firstn_le (n : Z) (l : list byte) :
  0 <= n -> blen (firstn (Z.to_nat n) l) <= n.
Proof.
  intros H. unfold blen. rewrite length_firstn. lia.
Qed.

Lemma round_up_to_8_le n m :
  n <= m -> m mod 8 = 0 -> round_up_to_8 n <= m.
Proof.
  intros Hle Hm. unfold round_up_to_8.
  pose proof (Z.div_mod m 8 ltac:(lia)) as Em. rewrite Hm in Em.
  assert (Hdiv : (n + 7) / 8 <= (m + 7) / 8)
    by (apply Z.div_le_mono; lia).
  replace (m + 7) with (m / 8 * 8 + 7) in Hdiv by lia.
  rewrite Z.div_add_l in Hdiv by lia. change (7 / 8) with 0 in Hdiv. lia.
Qed.

Section PackRuns.

Context {C : Collaborators}.

Variable mi : mft_inode.
Variable attr : Z.
Variable run : runs_tree.
Variable len : Z.

Hypothesis Hin : runs_in_record mi attr.

Let r := mrec_bytes mi.
Let used := rec_used r.
Let asize := attr_size r attr.
Let run_off := attr_nres_run_off r attr.
Let run_size := asize - run_off.
Let dsize := record_size (sbi mi) - used.
Let next := attr + asize.
Let tail := used - attr - asize.
Let pr := run_pack run (clst (attr_nres_svcn r attr)) len (run_size + dsize).
Let out := firstn (Z.to_nat (run_size + dsize)) (pr_bytes pr).

(** The record after the tail has been moved to the end of the buffer and
    the serializer has stored its bytes. *)
Let packed : buffer :=
  memcpy (memmove r (next + dsize) next tail) (attr + run_off) out
    (blen out).

Lemma pack_runs_facts :
  0x2A <= attr /\ 0x22 <= asize /\ 0 <= run_off <= asize
  /\ attr + asize <= used /\ used <= record_size (sbi mi)
  /\ record_size (sbi mi) <= blen r /\ blen r < 2 ^ 31
  /\ 0 <= blen out <= run_size + dsize.
Proof.
  destruct Hin as (H1 & H2 & H3 & H4 & H5 & H6 & H7).
  pose proof (get_le_range 2 r (attr + OFF_nres_run_off)) as Hro.
  fold (attr_nres_run_off r attr) in Hro. fold run_off in Hro.
  repeat split; try assumption; try lia.
  - unfold blen. lia.
  - apply blen_firstn_le. subst run_size dsize.
    fold r in H3, H4, H5. fold asize run_off used in H3, H4, H5. lia.
Qed.

(** [mi_pack_runs] in terms of the values above. *)
Lemma mi_pack_runs_unfold :
  mi_pack_runs mi attr run len
  = if pr_err pr <? 0 then
      (pr_err pr, with_mrec mi (memmove packed next (next + dsize) tail))
    else
      let nrs := QuadAlign (pr_err pr) in
      let r3 := memmove packed (next + nrs - run_size) (next + dsize) tail in
      let r4 := set_attr_size r3 attr (u32 (asize + nrs - run_size)) in
      let r5 :=
        set_attr_nres_evcn r4 attr
          (u64 (clst (clst (attr_nres_svcn r attr) + pr_plen pr - 1))) in
      let r6 := set_rec_used r5 (u32 (used + nrs - run_size)) in
      (0, with_dirty (with_mrec mi r6) true).
Proof.
  destruct pack_runs_facts as (H1 & H2 & H3 & H4 & H5 & H6 & H7 & H8).
  pose proof (rec_used_range r) as Hur. fold used in Hur.
  pose proof (attr_size_range r attr) as Hsr. fold asize in Hsr.
  unfold mi_pack_runs. fold r. fold used asize run_off.
  rewrite (u32_small attr) by lia.
  rewrite (u32_small (asize - run_off)) by lia. fold run_size.
  rewrite (u32_small (used - attr - asize)) by lia. fold tail.
  rewrite (u32_small (record_size (sbi mi) - used)) by lia. fold dsize.
  rewrite (u32_small (run_size + dsize)) by (subst run_size dsize; lia).
  fold next. reflexivity.
Qed.

Lemma length_packed_runs : length packed = length r.
Proof. unfold packed. now rewrite length_memcpy, length_memmove. Qed.

(** In front of the run list the bytes are still those of the record. *)
Lemma getb_packed_front i : i < attr + run_off -> getb packed i = getb r i.
Proof.
  destruct pack_runs_facts as (H1 & H2 & H3 & H4 & H5 & H6 & H7 & H8).
  intros Hi. unfold packed. rewrite getb_memcpy.
  replace (in_range (attr + run_off) (blen out) i) with false
    by (symmetry; apply in_range_false; lia).
  cbn [andb]. rewrite getb_memmove.
  replace (in_range (next + dsize) tail i) with false
    by (symmetry; apply in_range_false; subst next dsize tail; lia).
  reflexivity.
Qed.

(** The tail sits at the end of the buffer, untouched by the serializer. *)
Lemma getb_packed_behind i :
  next <= i < used -> getb packed (i + dsize) = getb r i.
Proof.
  destruct pack_runs_facts as (H1 & H2 & H3 & H4 & H5 & H6 & H7 & H8).
  intros Hi. unfold packed. rewrite getb_memcpy.
  replace (in_range (attr + run_off) (blen out) (i + dsize)) with false
    by (symmetry; apply in_range_false; subst next run_size; lia).
  cbn [andb]. rewrite getb_memmove.
  replace (in_range (next + dsize) tail (i + dsize)) with true
    by (symmetry; apply in_range_true; subst tail next; lia).
  replace (in_range 0 (blen r) (i + dsize)) with true
    by (symmetry; apply in_range_true; subst dsize; lia).
  cbn [andb]. f_equal. lia.
Qed.

(** The bytes of the serializer, where the run list was. *)
Lemma getb_packed_runs j :
  0 <= j < blen out -> getb packed (attr + run_off + j) = getb out j.
Proof.
  destruct pack_runs_facts as (H1 & H2 & H3 & H4 & H5 & H6 & H7 & H8).
  intros Hj. unfold packed. rewrite getb_memcpy.
  replace (in_range (attr + run_off) (blen out) (attr + run_off + j))
    with true by (symmetry; apply in_range_true; lia).
  replace (in_range 0 (blen (memmove r (next + dsize) next tail))
             (attr + run_off + j)) with true
    by (symmetry; apply in_range_true; unfold blen;
        rewrite length_memmove; fold (blen r);
        subst run_size dsize; lia).
  cbn [andb]. f_equal. lia.
Qed.

(** C5.  When the serializer fails on an attribute of a record that
    [mi_pack_runs] can handle inside the buffer, [mi_pack_runs] returns
    the serializer's error, the bytes behind the attribute are back where
    they were, every byte in front of the run list is as before, and the
    dirty flag is not touched.  So [used] is unchanged; the size of the
    attribute is unchanged if the run list starts behind it
    ([run_off >= 8]), and [evcn] is unchanged if the run list starts
    behind it ([run_off >= 0x20]), as it does when the run list follows
    the non-resident header.  What the serializer has stored stays in the
    run list area of the attribute. *)
Theorem mi_pack_runs_failure :
  pr_err pr < 0 ->
  let res := mi_pack_runs mi attr run len in
  let r' := mrec_bytes (snd res) in
  fst res = pr_err pr
  /\ (forall i, next <= i < used -> getb r' i = getb r i)
  /\ (forall i, i < attr + run_off -> getb r' i = getb r i)
  /\ (forall j, 0 <= j < blen out -> attr + run_off + j < next ->
        getb r' (attr + run_off + j) = getb out j)
  /\ rec_used r' = used
  /\ (OFF_size + 4 <= run_off -> attr_size r' attr = asize)
  /\ (OFF_nres_evcn + 8 <= run_off ->
      attr_nres_evcn r' attr = attr_nres_evcn r attr)
  /\ dirty (snd res) = dirty mi
  /\ length r' = length r.
Proof.
  intros Herr res r'.
  destruct pack_runs_facts as (H1 & H2 & H3 & H4 & H5 & H6 & H7 & H8).
  assert (Hres : res = (pr_err pr,
                        with_mrec mi
                          (memmove packed next (next + dsize) tail))).
  { subst res. rewrite mi_pack_runs_unfold.
    destruct (Z.ltb_spec (pr_err pr) 0); [reflexivity|lia]. }
  assert (Hr' : r' = memmove packed next (next + dsize) tail).
  { subst r'. now rewrite Hres. }
  assert (Htail : forall i, next <= i < used -> getb r' i = getb r i).
  { intros i Hi. rewrite Hr', getb_memmove.
    replace (in_range next tail i) with true
      by (symmetry; apply in_range_true; subst tail next; lia).
    replace (in_range 0 (blen packed) i) with true
      by (symmetry; apply in_range_true; unfold blen;
          rewrite length_packed_runs; fold (blen r); subst next; lia).
    cbn [andb].
    replace (next + dsize + (i - next)) with (i + dsize) by lia.
    now apply getb_packed_behind. }
  assert (Hlow : forall i, i < attr + run_off -> getb r' i = getb r i).
  { intros i Hi. rewrite Hr', getb_memmove.
    replace (in_range next tail i) with false
      by (symmetry; apply in_range_false; subst next; lia).
    cbn [andb]. now apply getb_packed_front. }
  split; [now rewrite Hres|]. split; [exact Htail|]. split; [exact Hlow|].
  split; [|split; [|split; [|split; [|split]]]].
  - intros j Hj Hn. rewrite Hr', getb_memmove.
    replace (in_range next tail (attr + run_off + j)) with false
      by (symmetry; apply in_range_false; lia).
    cbn [andb]. now apply getb_packed_runs.
  - unfold rec_used, used, rec_used. apply get_le_ext. intros j Hj.
    apply Hlow. unfold OFF_used. simpl in Hj. lia.
  - intros Hro. unfold attr_size, asize, attr_size. apply get_le_ext.
    intros j Hj. apply Hlow. unfold OFF_size in *. simpl in Hj. lia.
  - intros Hro. unfold attr_nres_evcn. apply get_le_ext. intros j Hj.
    apply Hlow. unfold OFF_nres_evcn in *. simpl in Hj. lia.
  - now rewrite Hres.
  - rewrite Hr', length_memmove. apply length_packed_runs.
Qed.

(** C4.  When the serializer succeeds on an attribute of a record that
    [mi_pack_runs] can handle inside the buffer and reports [plen]
    clusters, [mi_pack_runs] returns 0, [evcn] is [svcn + plen - 1] as a
    32-bit cluster number (the number itself when it lies between 0 and
    2^32 - 1), the size of the attribute and [used] have both changed by
    the difference between the quad-aligned new run-list size and the old
    one, and the record is dirty.  [used] is within the record size
    exactly when the quad-aligned new run-list size is within the space
    the serializer was given; so it is when the serializer has used no
    more than that space and the space is a multiple of 8.  [plen] is
    whatever the serializer reports: nothing ties it to the [len]
    requested. *)
Theorem mi_pack_runs_success :
  0 <= pr_err pr < 2 ^ 31 ->
  let res := mi_pack_runs mi attr run len in
  let r' := mrec_bytes (snd res) in
  let delta := round_up_to_8 (pr_err pr) - run_size in
  fst res = 0
  /\ attr_nres_evcn r' attr = clst (attr_nres_svcn r attr + pr_plen pr - 1)
  /\ (1 <= attr_nres_svcn r attr + pr_plen pr <= 2 ^ CLST_BITS ->
      attr_nres_evcn r' attr = attr_nres_svcn r attr + pr_plen pr - 1)
  /\ attr_size r' attr = asize + delta
  /\ rec_used r' = used + delta
  /\ dirty (snd res) = true
  /\ (rec_used r' <= record_size (sbi mi)
      <-> round_up_to_8 (pr_err pr) <= run_size + dsize)
  /\ (pr_err pr <= run_size + dsize ->
      (run_size + dsize) mod 8 = 0 ->
      rec_used r' <= record_size (sbi mi)).
Proof.
  intros Herr res r' delta.
  destruct pack_runs_facts as (H1 & H2 & H3 & H4 & H5 & H6 & H7 & H8).
  pose proof (rec_used_range r) as Hur. fold used in Hur.
  pose proof (attr_size_range r attr) as Hsr. fold asize in Hsr.
  set (svcn := attr_nres_svcn r attr) in *.
  set (nrs := round_up_to_8 (pr_err pr)) in *.
  pose proof (round_up_to_8_bounds (pr_err pr)) as Hnb. fold nrs in Hnb.
  assert (Hq : QuadAlign (pr_err pr) = nrs)
    by (apply QuadAlign_round_up; lia).
  assert (Hn31 : nrs <= 2 ^ 31).
  { pose proof (round_up_to_8_aligned (pr_err pr)) as Hm. fold nrs in Hm.
    pose proof (Z.div_mod nrs 8 ltac:(lia)). lia. }
  set (evcn := clst (svcn + pr_plen pr - 1)).
  assert (Hev : 0 <= evcn < 2 ^ 32)
    by (unfold evcn, clst, CLST_BITS; apply Z.mod_pos_bound; lia).
  assert (Hres : res
    = (0, with_dirty
            (with_mrec mi
               (set_rec_used
                  (set_attr_nres_evcn
                     (set_attr_size
                        (memmove packed (next + nrs - run_size)
                           (next + dsize) tail)
                        attr (asize + delta))
                     attr evcn)
                  (used + delta)))
            true)).
  { subst res. rewrite mi_pack_runs_unfold.
    destruct (Z.ltb_spec (pr_err pr) 0); [lia|]. cbv zeta.
    rewrite Hq. fold svcn.
    assert (Hc : clst (clst svcn + pr_plen pr - 1) = evcn).
    { unfold evcn, clst, CLST_BITS.
      replace (svcn mod 2 ^ 32 + pr_plen pr - 1)
        with (svcn mod 2 ^ 32 + (pr_plen pr - 1)) by lia.
      rewrite Zplus_mod_idemp_l. f_equal. lia. }
    rewrite Hc.
    rewrite (u64_small evcn) by lia.
    replace (asize + nrs - run_size) with (asize + delta)
      by (subst delta; lia).
    replace (used + nrs - run_size) with (used + delta)
      by (subst delta; lia).
    rewrite (u32_small (asize + delta))
      by (subst delta run_size dsize; lia).
    rewrite (u32_small (used + delta))
      by (subst delta run_size dsize; lia).
    reflexivity. }
  set (r3 := memmove packed (next + nrs - run_size) (next + dsize) tail)
    in Hres.
  assert (Hl3 : length r3 = length r)
    by (unfold r3; rewrite length_memmove; apply length_packed_runs).
  assert (Hr' : r' = set_rec_used
                       (set_attr_nres_evcn
                          (set_attr_size r3 attr (asize + delta))
                          attr evcn)
                       (used + delta)).
  { subst r'. now rewrite Hres. }
  assert (Hused : rec_used r' = used + delta).
  { rewrite Hr'. unfold rec_used at 1, set_rec_used, OFF_used.
    rewrite get_le_set_le_same.
    - apply Z.mod_small. change (256 ^ Z.of_nat 4) with (2 ^ 32).
      subst delta run_size dsize. lia.
    - lia.
    - unfold set_attr_nres_evcn, set_attr_size, blen.
      rewrite !length_set_le, Hl3. fold (blen r). simpl. lia. }
  assert (Hevcn : attr_nres_evcn r' attr = evcn).
  { rewrite Hr'. unfold attr_nres_evcn, set_rec_used, set_attr_nres_evcn,
      OFF_used, OFF_nres_evcn.
    rewrite get_le_set_le_other by (simpl; lia).
    rewrite get_le_set_le_same.
    + apply Z.mod_small. change (256 ^ Z.of_nat 8) with (2 ^ 64). lia.
    + lia.
    + unfold set_attr_size, blen. rewrite length_set_le, Hl3.
      fold (blen r). simpl. lia. }
  split; [now rewrite Hres|].
  split; [exact Hevcn|].
  split; [|split; [|split; [exact Hused|split; [|split]]]].
  - intros Hvcn. rewrite Hevcn. unfold evcn, clst.
    apply Z.mod_small. unfold CLST_BITS in *. lia.
  - rewrite Hr'. unfold attr_size at 1, set_rec_used, set_attr_nres_evcn,
      set_attr_size, OFF_used, OFF_nres_evcn, OFF_size.
    rewrite !get_le_set_le_other by (simpl; lia).
    rewrite get_le_set_le_same.
    + apply Z.mod_small. change (256 ^ Z.of_nat 4) with (2 ^ 32).
      subst delta run_size dsize. lia.
    + lia.
    + unfold blen. rewrite Hl3. fold (blen r). simpl. lia.
  - now rewrite Hres.
  - rewrite Hused. subst delta dsize. lia.
  - intros Hfit Hal. rewrite Hused.
    assert (Hnle : nrs <= run_size + dsize)
      by (apply round_up_to_8_le; [lia|exact Hal]).
    subst delta dsize. lia.
Qed.

End PackRuns.

(** A run list that starts behind the non-resident header is one that
    [mi_pack_runs] can handle. *)
Lemma nonres_runs_in_record (mi : mft_inode) (attr : Z) :
  nonres_in_record mi attr -> runs_in_record mi attr.
Proof.
  unfold nonres_in_record, runs_in_record.
  unfold SIZEOF_NONRESIDENT, OFF_nres_run_off.
  intros (H1 & H2 & H3 & H4 & H5 & H6 & H7). repeat split; lia.
Qed.

(** The same facts for a run list behind the non-resident header. *)
Section Pack.

Context {C : Collaborators}.

Variable mi : mft_inode.
Variable attr : Z.
Variable run : runs_tree.
Variable len : Z.

Hypothesis Hwf : nonres_in_record mi attr.

Let r := mrec_bytes mi.
Let used := rec_used r.
Let asize := attr_size r attr.
Let run_off := attr_nres_run_off r attr.
Let run_size := asize - run_off.
Let dsize := record_size (sbi mi) - used.
Let next := attr + asize.
Let tail := used - attr - asize.
Let pr := run_pack run (clst (attr_nres_svcn r attr)) len (run_size + dsize).
Let out := firstn (Z.to_nat (run_size + dsize)) (pr_bytes pr).
Let packed : buffer :=
  memcpy (memmove r (next + dsize) next tail) (attr + run_off) out
    (blen out).

Lemma pack_facts :
  0x2A <= attr /\ 0x40 <= run_off /\ run_off <= asize
  /\ attr + asize <= used /\ used <= record_size (sbi mi)
  /\ record_size (sbi mi) <= blen r /\ blen r < 2 ^ 31
  /\ 0 <= blen out <= run_size + dsize.
Proof.
  destruct (pack_runs_facts mi attr run len (nonres_runs_in_record _ _ Hwf))
    as (H1 & _ & H3 & H4 & H5 & H6 & H7 & H8).
  destruct Hwf as (_ & H2 & _).
  split; [exact H1|]. split; [exact H2|]. split; [apply H3|].
  split; [exact H4|]. split; [exact H5|]. split; [exact H6|].
  split; [exact H7|exact H8].
Qed.

Lemma mi_pack_runs_eq :
  mi_pack_runs mi attr run len
  = if pr_err pr <? 0 then
      (pr_err pr, with_mrec mi (memmove packed next (next + dsize) tail))
    else
      let nrs := QuadAlign (pr_err pr) in
      let r3 := memmove packed (next + nrs - run_size) (next + dsize) tail in
      let r4 := set_attr_size r3 attr (u32 (asize + nrs - run_size)) in
      let r5 :=
        set_attr_nres_evcn r4 attr
          (u64 (clst (clst (attr_nres_svcn r attr) + pr_plen pr - 1))) in
      let r6 := set_rec_used r5 (u32 (used + nrs - run_size)) in
      (0, with_dirty (with_mrec mi r6) true).
Proof.
  exact (mi_pack_runs_unfold mi attr run len
           (nonres_runs_in_record _ _ Hwf)).
Qed.

Lemma getb_packed_low i : i < attr + run_off -> getb packed i = getb r i.
Proof.
  exact (getb_packed_front mi attr run len
           (nonres_runs_in_record _ _ Hwf) i).
Qed.

Lemma getb_packed_tail i :
  next <= i < used -> getb packed (i + dsize) = getb r i.
Proof.
  exact (getb_packed_behind mi attr run len
           (nonres_runs_in_record _ _ Hwf) i).
Qed.

End Pack.

(** ** The theorems on sample records *)

Ltac by_computation :=
  vm_compute; repeat split; first [reflexivity | discriminate].

(** Growing the attribute of [record_one_attr] by 5 bytes and shrinking it
    by 8 again. *)
Lemma mi_resize_attr_grow_shrink_witness :
  let mi := sample_mi 1024 30 record_one_attr in
  let mi1 := snd (mi_resize_attr mi 0x38 5) in
  fst (mi_resize_attr mi 0x38 5) = true
  /\ exists mi2,
       mi_resize_attr mi1 0x38 (- round_up_to_8 5) = (true, mi2)
       /\ rec_used (mrec_bytes mi2) = rec_used (mrec_bytes mi)
       /\ attr_size (mrec_bytes mi2) 0x38 = attr_size (mrec_bytes mi) 0x38
       /\ rec_used (mrec_bytes mi1)
          = rec_used (mrec_bytes mi) + round_up_to_8 5
       /\ attr_size (mrec_bytes mi1) 0x38
          = attr_size (mrec_bytes mi) 0x38 + round_up_to_8 5.
Proof.
  intros mi mi1. split; [by_computation|].
  apply (mi_resize_attr_grow_shrink mi 0x38 5 mi1).
  - by_computation.
  - by_computation.
  - vm_compute. reflexivity.
Defined.

(** A sample record is well formed: its attribute list is [l]. *)
Ltac sample_record_ok Hl :=
  unfold record_ok; split; [vm_compute; reflexivity|]; split;
  [ intros ?a Ha; rewrite Hl in Ha; cbn [app In] in Ha;
    repeat (destruct Ha as [<-|Ha]; [vm_compute; discriminate|]);
    destruct Ha
  | split; [split|split; [|split]];
    vm_compute; first [reflexivity|discriminate] ].

(** Packing the runs of the non-resident attribute of [record_nonres]:
    1000 clusters are asked for, the serializer packs 3. *)
Lemma mi_pack_runs_success_witness :
  let C := trace_collab no_disk packer_3_of in
  let mi := sample_mi 1024 30 record_nonres in
  let res := mi_pack_runs (C := C) mi 0x38 tt 1000 in
  let r' := mrec_bytes (snd res) in
  pr_plen (packer_3_of 16 1000 872) < 1000
  /\ fst res = 0
  /\ attr_nres_evcn r' 0x38 = 16 + 3 - 1
  /\ attr_size r' 0x38 = 0x48
  /\ rec_used r' = 0xA0
  /\ dirty (snd res) = true
  /\ rec_used r' <= 1024.
Proof.
  intros C mi res r'. split; [by_computation|].
  pose proof (mi_pack_runs_success (C := C) mi 0x38 tt 1000
                ltac:(by_computation) ltac:(by_computation)) as H.
  cbv zeta in H.
  destruct H as (H0 & _ & Hev & Hsz & Hus & Hd & _ & Hle).
  subst res r'.
  split; [exact H0|].
  split; [rewrite Hev; by_computation|].
  split; [rewrite Hsz; by_computation|].
  split; [rewrite Hus; by_computation|].
  split; [exact Hd|].
  replace 1024 with (record_size (sbi mi)) by reflexivity.
  apply Hle; by_computation.
Defined.

(** Two successful calls on well-formed records.  On the first extent of
    an attribute ([svcn = 0]) a serializer that packs no cluster leaves
    [evcn = 0xFFFFFFFF], the 32-bit value of [svcn + plen - 1], in the
    64-bit field.  On an attribute whose run list starts at the odd offset
    0x41 a serializer that fills the 871 bytes it is given leaves
    [used = 1025] in a record of 1024 bytes. *)
Lemma mi_pack_runs_success_counterexample :
  (let C := trace_collab no_disk packer_0_of in
   let mi := sample_mi 1024 30 record_nonres_first in
   let res := mi_pack_runs (C := C) mi 0x38 tt 0 in
   let r' := mrec_bytes (snd res) in
   record_ok mi
   /\ nonres_in_record mi 0x38
   /\ attr_list mi = [0x38; 0x80]
   /\ attr_nres_svcn (mrec_bytes mi) 0x38 = 0
   /\ pr_plen (packer_0_of 0 0 872) = 0
   /\ fst res = 0
   /\ attr_nres_evcn r' 0x38 = 0xFFFFFFFF
   /\ attr_nres_evcn r' 0x38 <> 0 + 0 - 1)
  /\ (let C := trace_collab no_disk packer_fill in
      let mi := sample_mi 1024 30 record_nonres_odd in
      let res := mi_pack_runs (C := C) mi 0x38 tt 1000 in
      let r' := mrec_bytes (snd res) in
      record_ok mi
      /\ nonres_in_record mi 0x38
      /\ attr_list mi = [0x38; 0x80]
      /\ pr_err (packer_fill 16 1000 871) = 871
      /\ fst res = 0
      /\ record_size (sbi mi) = 1024
      /\ rec_used r' = 1025
      /\ ~ rec_used r' <= record_size (sbi mi)).
Proof.
  split.
  - intros C mi res r'.
    assert (Hl : attr_list mi = [0x38; 0x80]) by (vm_compute; reflexivity).
    split; [sample_record_ok Hl|]. split; [by_computation|].
    split; [exact Hl|]. subst r' res. by_computation.
  - intros C mi res r'.
    assert (Hl : attr_list mi = [0x38; 0x80]) by (vm_compute; reflexivity).
    split; [sample_record_ok Hl|]. split; [by_computation|].
    split; [exact Hl|]. subst r' res.
    split; [vm_compute; reflexivity|]. split; [vm_compute; reflexivity|].
    split; [vm_compute; reflexivity|]. split; [vm_compute; reflexivity|].
    intros H. vm_compute in H. apply H. reflexivity.
Qed.

(** The same call with a serializer that fails. *)
Lemma mi_pack_runs_failure_witness :
  let C := trace_collab no_disk no_packer in
  let mi := sample_mi 1024 30 record_nonres in
  let res := mi_pack_runs (C := C) mi 0x38 tt 1000 in
  let r' := mrec_bytes (snd res) in
  fst res = - 95
  /\ rec_used r' = 0xA0
  /\ attr_size r' 0x38 = 0x48
  /\ attr_nres_evcn r' 0x38 = 0
  /\ dirty (snd res) = false
  /\ attr_list (snd res) = attr_list mi.
Proof.
  intros C mi res r'.
  pose proof (mi_pack_runs_failure (C := C) mi 0x38 tt 1000
                ltac:(by_computation) ltac:(by_computation)) as H.
  cbv zeta in H.
  destruct H as (H0 & _ & _ & _ & Hus & Hsz & Hev & Hd & _).
  specialize (Hsz ltac:(by_computation)).
  specialize (Hev ltac:(by_computation)).
  subst res r'.
  split; [rewrite H0; by_computation|].
  split; [rewrite Hus; by_computation|].
  split; [rewrite Hsz; by_computation|].
  split; [rewrite Hev; by_computation|].
  split; [rewrite Hd; by_computation|].
  by_computation.
Defined.

(** A failing call on a well-formed record whose non-resident attribute
    has its run list at offset 0x18: the 8 bytes that the serializer
    stored before it failed are the [evcn] field, which was 20. *)
Lemma mi_pack_runs_failure_counterexample :
  let C := trace_collab no_disk packer_fails_late in
  let mi := sample_mi 1024 30 record_runs_in_header in
  let res := mi_pack_runs (C := C) mi 0x38 tt 1000 in
  let r := mrec_bytes mi in
  let r' := mrec_bytes (snd res) in
  record_ok mi
  /\ runs_in_record mi 0x38
  /\ attr_list mi = [0x38; 0x80]
  /\ attr_non_res r 0x38 = 1
  /\ attr_nres_run_off r 0x38 = 0x18
  /\ fst res = - 95
  /\ attr_nres_evcn r 0x38 = 20
  /\ attr_nres_evcn r' 0x38 = 2 ^ 64 - 1
  /\ attr_nres_evcn r' 0x38 <> attr_nres_evcn r 0x38
  /\ rec_used r' = 0xA0
  /\ attr_size r' 0x38 = 0x48
  /\ dirty (snd res) = false.
Proof.
  intros C mi res r r'.
  assert (Hl : attr_list mi = [0x38; 0x80]) by (vm_compute; reflexivity).
  split; [sample_record_ok Hl|]. split; [by_computation|].
  split; [exact Hl|]. subst r r' res. by_computation.
Qed.


(** A search from the second attribute of the record with the types
    0x10, 0x30, 0x80, 0x90: it looks at the last two attributes. *)
Lemma mi_find_attr_first_match_witness :
  let mi := sample_mi 1024 30 record_ids_0134 in
  let r := mrec_bytes mi in
  record_ok mi
  /\ names_in_buffer mi
  /\ attr_list mi = [0x38; 0x50] ++ [0x68; 0x80]
  /\ enum_list (enum_fuel mi) mi (Some 0x50) = [0x68; 0x80]
  /\ mi_find_attr mi (Some 0x50) 0x90 [] 0 None = Some 0x80
  /\ mi_find_attr mi (Some 0x50) 0x30 [] 0 None = None
  /\ attr_type r 0x80 = 0x90
  /\ attr_name_len r 0x80 = 0.
Proof.
  intros mi r.
  assert (Hl : attr_list mi = [0x38; 0x50; 0x68; 0x80])
    by (vm_compute; reflexivity).
  assert (Hok : record_ok mi) by sample_record_ok Hl.
  assert (Hnm : names_in_buffer mi).
  { intros a Ha. rewrite Hl in Ha. cbn [In] in Ha.
    destruct Ha as [<-|[<-|[<-|[<-|[]]]]]; vm_compute; discriminate. }
  assert (Hst : start_of_record mi (Some 0x50))
    by (cbn [start_of_record]; rewrite Hl; cbn [In]; tauto).
  assert (El : enum_list (enum_fuel mi) mi (Some 0x50) = [0x68; 0x80])
    by (vm_compute; reflexivity).
  assert (Ef : mi_find_attr mi (Some 0x50) 0x90 [] 0 None = Some 0x80)
    by (vm_compute; reflexivity).
  destruct (mi_find_attr_first_match mi (Some 0x50) 0x90 [] 0 None
              Hok Hnm Hst)
    as (_ & _ & _ & _ & Hm & _).
  destruct (Hm 0x80 Ef) as (pre & post & _ & (Ht & Hnl & _) & _).
  destruct (mi_find_attr_first_match mi (Some 0x50) 0x30 [] 0 None
              Hok Hnm Hst)
    as (_ & _ & _ & _ & _ & Hstop).
  split; [exact Hok|]. split; [exact Hnm|]. split; [exact Hl|].
  split; [exact El|]. split; [exact Ef|].
  split; [|split; [exact Ht|exact Hnl]].
  apply (Hstop [] 0x68 [0x80]).
  - rewrite El. reflexivity.
  - intros x [].
  - vm_compute. reflexivity.
Defined.

(** Lookups in the record with the attribute types 0x10, 0x30, 0x80, 0x90
    (ids 0, 1, 3, 4): by type, by type and id, for a type that no attribute
    has, and from behind the attribute looked for. *)
Example mi_find_attr_sample :
  let mi := sample_mi 1024 30 record_ids_0134 in
  mi_find_attr mi None 0x80 [] 0 None = Some 0x68
  /\ mi_find_attr mi None 0x80 [] 0 (Some 3) = Some 0x68
  /\ mi_find_attr mi None 0x80 [] 0 (Some 4) = None
  /\ mi_find_attr mi None 0x40 [] 0 None = None
  /\ mi_find_attr mi (Some 0x68) 0x80 [] 0 None = None
  /\ mi_find_attr mi None 0x80 ["065"; "000"]%byte 1 None = None.
Proof. by_computation. Qed.

(** The first call on records that are not in use or whose first attribute
    offset is not a multiple of 4. *)
Example mi_enum_attr_rejects_sample :
  let free := set_rec_flags record_one_attr 0 in
  let skewed := set_le 2 record_one_attr OFF_attr_off 0x3A in
  mi_enum_attr (sample_mi 1024 30 record_one_attr) None = Some 0x38
  /\ mi_enum_attr (sample_mi 1024 30 free) None = None
  /\ mi_enum_attr (sample_mi 1024 30 skewed) None = None.
Proof. by_computation. Qed.

(** ** More on mi_enum_attr: the shape of an enumeration *)

Lemma enum_chain_last mi : forall attr l,
  enum_chain mi attr l ->
  mi_enum_attr mi
    (match last_attr l with Some a => Some a | None => attr end) = None.
Proof.
  induction 1 as [attr E|attr a l E Hl IH]; [exact E|].
  unfold last_attr in *. cbn [rev].
  destruct (rev l) as [|b t] eqn:R; [exact IH|exact IH].
Qed.

Lemma enum_chain_consecutive mi : forall attr l,
  enum_chain mi attr l ->
  forall l1 a b l2, l = l1 ++ a :: b :: l2 ->
  mi_enum_attr mi (Some a) = Some b.
Proof.
  induction 1 as [attr E|attr x l E Hl IH]; intros l1 a b l2 El.
  - destruct l1; discriminate.
  - destruct l1 as [|y l1]; cbn [app] in El; inversion El; subst.
    + inversion Hl; subst. assumption.
    + eapply IH. reflexivity.
Qed.

Lemma mi_enum_attr_first mi a :
  mi_enum_attr mi None = Some a ->
  a = rec_attr_off (mrec_bytes mi) /\ MFTRECORD_FIXUP_OFFSET_1 <= a.
Proof.
  unfold mi_enum_attr. intros E.
  destruct (enum_start _ _ None) as [[q off]|] eqn:Es; [|discriminate].
  apply enum_check_inv in E. destruct E as [-> _].
  unfold enum_start in Es. revert Es. destruct_tests; try discriminate.
  intros Es. inversion Es. split; [reflexivity|lia].
Qed.

Lemma mi_enum_attr_position mi attr a :
  mi_enum_attr mi attr = Some a -> a = current_attr (mrec_bytes mi) attr.
Proof.
  unfold mi_enum_attr. intros E.
  destruct (enum_start _ _ attr) as [[p off]|] eqn:Es; [|discriminate].
  apply enum_start_current in Es. destruct Es as [-> _].
  apply enum_check_inv in E. tauto.
Qed.

Lemma enum_chain_count mi : forall attr l,
  enum_chain mi attr l ->
  forall lo,
    match attr with
    | None => lo <= MFTRECORD_FIXUP_OFFSET_1 - SIZEOF_RESIDENT
    | Some p => lo <= p
    end ->
    l = [] \/ lo + SIZEOF_RESIDENT * Z.of_nat (length l) < blen (mrec_bytes mi).
Proof.
  induction 1 as [attr E|attr a l E Hl IH]; intros lo Hlo; [now left|].
  right.
  assert (Ha : lo + SIZEOF_RESIDENT <= a < blen (mrec_bytes mi)).
  { pose proof (mi_enum_attr_bounds mi attr a E) as [Hb Hp].
    destruct attr as [p|].
    - specialize (Hp p eq_refl). lia.
    - apply mi_enum_attr_first in E. lia. }
  destruct (IH a (Z.le_refl _)) as [->|Hn]; cbn [length].
  - unfold SIZEOF_RESIDENT in *. lia.
  - unfold SIZEOF_RESIDENT in *. lia.
Qed.

Lemma enum_check_valid r used p off a :
  enum_check r used p off = Some a ->
  u32 (off + 8) <= used
  /\ u32 (off + attr_size r p) <= used
  /\ attr_type r p <> ATTR_END
  /\ Z.land (attr_type r p) 0xf = 0
  /\ attr_type r p <= 0x100
  /\ (attr_non_res r p = 0 ->
      SIZEOF_RESIDENT <= attr_size r p
      /\ attr_res_data_off r p <= attr_size r p
      /\ u32 (attr_res_data_off r p + attr_res_data_size r p)
         <= attr_size r p)
  /\ (attr_non_res r p <> 0 ->
      SIZEOF_NONRESIDENT - 8 <= attr_size r p
      /\ (attr_name_len r p <> 0 ->
          attr_name_off r p + 2 * attr_name_len r p
          <= attr_nres_run_off r p)
      /\ (attr_nres_svcn r p <> 0 \/ is_attr_ext r p = false ->
          attr_nres_c_unit r p = 0)
      /\ (attr_nres_svcn r p = 0 -> is_attr_ext r p = true ->
          SIZEOF_NONRESIDENT_EX - 8 <= attr_size r p)).
Proof.
  unfold enum_check.
  pose proof (attr_size_range r p) as Hs.
  unfold SIZEOF_RESIDENT, SIZEOF_NONRESIDENT, SIZEOF_NONRESIDENT_EX.
  destruct_tests; try discriminate; intros _;
    repeat match goal with
           | |- _ /\ _ => split
           | |- _ -> _ => intro
           end;
    try lia; try congruence; try discriminate;
    try (destruct (Z_lt_ge_dec (attr_size r p) (2 ^ 32 - 8));
         [rewrite u32_small in * by lia; lia
         |exfalso;
          assert (u32 (attr_size r p + 8) < 8)
            by (unfold u32;
                replace (attr_size r p + 8)
                  with (attr_size r p + 8 - 2 ^ 32 + 1 * 2 ^ 32) by lia;
                rewrite Z.mod_add by lia; rewrite Z.mod_small by lia; lia);
          lia]);
    try (match goal with H : _ \/ _ |- _ => destruct H end;
         try lia; try congruence; discriminate).
Qed.

(** X2.  What a caller knows about an attribute that [mi_enum_attr]
    returns: it is the attribute at the position examined; its first 8
    bytes and its size end within [used] (as 32-bit sums); its type is a
    multiple of 16, at most 0x100 and not the end marker; a resident
    attribute is at least [SIZEOF_RESIDENT] long with data offset and
    (32-bit) data end within its size; a non-resident one is at least
    [SIZEOF_NONRESIDENT - 8] long, has its name in front of the run list,
    no compression unit unless it is the first extent of a sparse or
    compressed attribute, and then [SIZEOF_NONRESIDENT_EX - 8] bytes at
    least. *)
Theorem mi_enum_attr_returns_valid mi attr a :
  mi_enum_attr mi attr = Some a ->
  let r := mrec_bytes mi in
  let used := rec_used r in
  let off := current_off r attr in
  a = current_attr r attr
  /\ u32 (off + 8) <= used
  /\ u32 (off + attr_size r a) <= used
  /\ attr_type r a <> ATTR_END
  /\ Z.land (attr_type r a) 0xf = 0
  /\ attr_type r a <= 0x100
  /\ (attr_non_res r a = 0 ->
      SIZEOF_RESIDENT <= attr_size r a
      /\ attr_res_data_off r a <= attr_size r a
      /\ u32 (attr_res_data_off r a + attr_res_data_size r a)
         <= attr_size r a)
  /\ (attr_non_res r a <> 0 ->
      SIZEOF_NONRESIDENT - 8 <= attr_size r a
      /\ (attr_name_len r a <> 0 ->
          attr_name_off r a + 2 * attr_name_len r a
          <= attr_nres_run_off r a)
      /\ (attr_nres_svcn r a <> 0 \/ is_attr_ext r a = false ->
          attr_nres_c_unit r a = 0)
      /\ (attr_nres_svcn r a = 0 -> is_attr_ext r a = true ->
          SIZEOF_NONRESIDENT_EX - 8 <= attr_size r a)).
Proof.
  intros E r used off.
  pose proof (mi_enum_attr_position mi attr a E) as Hpos.
  split; [exact Hpos|].
  unfold mi_enum_attr in E. fold r in E. fold used in E.
  destruct (enum_start r used attr) as [[p o]|] eqn:Es; [|discriminate].
  apply enum_start_current in Es. destruct Es as [-> ->].
  pose proof (enum_check_inv _ _ _ _ _ E) as [-> _].
  apply enum_check_valid in E. exact E.
Qed.

Lemma mi_enum_attr_returns_valid_witness :
  let mi := sample_mi 1024 30 record_nonres in
  let r := mrec_bytes mi in
  mi_enum_attr mi None = Some 0x38
  /\ attr_non_res r 0x38 <> 0
  /\ SIZEOF_NONRESIDENT - 8 <= attr_size r 0x38
  /\ attr_nres_c_unit r 0x38 = 0.
Proof.
  intros mi r.
  assert (E : mi_enum_attr mi None = Some 0x38) by by_computation.
  assert (Hn : attr_non_res r 0x38 <> 0) by by_computation.
  pose proof (mi_enum_attr_returns_valid mi None 0x38 E) as H.
  cbv zeta in H.
  destruct H as (_ & _ & _ & _ & _ & _ & _ & Hnr).
  destruct (Hnr Hn) as (Hsz & _ & Hcu & _).
  split; [exact E|]. split; [exact Hn|]. split; [exact Hsz|].
  apply Hcu. left. by_computation.
Defined.

(** ** mi_remove_attr *)

Ltac range_is_false :=
  match goal with
  | |- context [in_range ?lo ?n ?i] =>
      replace (in_range lo n i) with false
        by (symmetry; apply in_range_false; lia)
  end.

Ltac range_is_true :=
  match goal with
  | |- context [in_range ?lo ?n ?i] =>
      replace (in_range lo n i) with true
        by (symmetry; apply in_range_true; lia)
  end.

(** The bytes of the record after a successful [mi_remove_attr]. *)
Lemma mi_remove_attr_eq mi attr :
  attr_in_record mi attr ->
  let r := mrec_bytes mi in
  let used := rec_used r in
  let asize := attr_size r attr in
  mi_remove_attr mi attr
  = (true,
     with_dirty
       (with_mrec mi
          (set_rec_used
             (memmove r attr (attr + asize) (used - asize - attr))
             (used - asize)))
       true).
Proof.
  intros (Ha & Hs8 & Hin & Hut & Htb & Hb) r used asize.
  fold r in Hs8, Hin, Hut, Htb, Hb. fold used asize in Hs8, Hin, Hut.
  unfold MFTRECORD_FIXUP_OFFSET_1 in Ha.
  pose proof (rec_used_range r) as Hur. fold used in Hur.
  unfold mi_remove_attr. fold r. fold used asize.
  rewrite (u32_small attr) by lia.
  rewrite (u32_small (attr + asize)) by lia.
  destruct (Z.gtb_spec (attr + asize) used); [lia|].
  rewrite (u32_small (used - asize)) by lia.
  rewrite (u32_small (used - asize - attr)) by lia.
  reflexivity.
Qed.

(** The effect of a successful [mi_remove_attr] on the bytes of the
    record. *)
Lemma mi_remove_attr_bytes (mi : mft_inode) (attr : Z) :
  attr_in_record mi attr ->
  let r := mrec_bytes mi in
  let used := rec_used r in
  let asize := attr_size r attr in
  let res := mi_remove_attr mi attr in
  let r' := mrec_bytes (snd res) in
  fst res = true
  /\ rec_used r' = used - asize
  /\ (forall i, attr <= i < used - asize ->
        getb r' i = getb r (i + asize))
  /\ (forall i, i < attr -> ~ OFF_used <= i < OFF_used + 4 ->
        getb r' i = getb r i)
  /\ (forall i, used - asize <= i -> getb r' i = getb r i)
  /\ rec_total r' = rec_total r
  /\ length r' = length r
  /\ dirty (snd res) = true.
Proof.
  intros Hwf r used asize res r'.
  pose proof Hwf as (Ha & Hs8 & Hin & Hut & Htb & Hb).
  fold r in Hs8, Hin, Hut, Htb, Hb. fold used asize in Hs8, Hin, Hut.
  unfold MFTRECORD_FIXUP_OFFSET_1 in Ha.
  pose proof (rec_used_range r) as Hur. fold used in Hur.
  assert (Hres : res = (true,
                        with_dirty
                          (with_mrec mi
                             (set_rec_used
                                (memmove r attr (attr + asize)
                                   (used - asize - attr))
                                (used - asize)))
                          true))
    by (apply (mi_remove_attr_eq mi attr Hwf)).
  set (r1 := memmove r attr (attr + asize) (used - asize - attr)) in Hres.
  assert (Hr' : r' = set_rec_used r1 (used - asize))
    by (subst r'; now rewrite Hres).
  assert (Hl1 : length r1 = length r) by apply length_memmove.
  assert (Hget : forall i, ~ OFF_used <= i < OFF_used + 4 ->
                   getb r' i = getb r1 i).
  { intros i Hi. rewrite Hr'. unfold set_rec_used. rewrite getb_set_le.
    unfold OFF_used in *. change (Z.of_nat 4) with 4.
    range_is_false. reflexivity. }
  split; [now rewrite Hres|]. split; [|split; [|split; [|split; [|split; [|split]]]]].
  - rewrite Hr'. unfold rec_used at 1, set_rec_used, OFF_used.
    rewrite get_le_set_le_same
      by (unfold blen in *; rewrite ?Hl1; simpl; lia).
    apply Z.mod_small. change (256 ^ Z.of_nat 4) with (2 ^ 32). lia.
  - intros i Hi. rewrite Hget by (unfold OFF_used; lia).
    unfold r1. rewrite getb_memmove. range_is_true.
    replace (in_range 0 (blen r) i) with true
      by (symmetry; apply in_range_true; lia).
    cbn [andb]. f_equal. lia.
  - intros i Hi Hnu. rewrite Hget by exact Hnu.
    unfold r1. rewrite getb_memmove. range_is_false. reflexivity.
  - intros i Hi. rewrite Hget by (unfold OFF_used; lia).
    unfold r1. rewrite getb_memmove. range_is_false. reflexivity.
  - rewrite Hr'. unfold rec_total, set_rec_used, OFF_used, OFF_total.
    rewrite get_le_set_le_other by (simpl; lia).
    unfold r1. rewrite get_le_memmove_other by (simpl; lia). reflexivity.
  - rewrite Hr'. unfold set_rec_used. now rewrite length_set_le.
  - now rewrite Hres.
Qed.

(** X3.  [mi_remove_attr] refuses (returns false, nothing changed) when
    the attribute's end, as a 32-bit sum, is past [used].  On an attribute
    of a well-formed record it succeeds: [used] shrinks by the size of the
    attribute, the bytes behind the attribute move down by that size, the
    bytes in front of it stay (but for the [used] field), the bytes from
    the new [used] on are left as they were, [total] and the length of the
    buffer are unchanged, and the record is dirty. *)
Theorem mi_remove_attr_spec (mi : mft_inode) (attr : Z) :
  let r := mrec_bytes mi in
  let used := rec_used r in
  let asize := attr_size r attr in
  let res := mi_remove_attr mi attr in
  let r' := mrec_bytes (snd res) in
  (u32 (u32 attr + asize) > used -> res = (false, mi))
  /\ (attr_in_record mi attr ->
      fst res = true
      /\ rec_used r' = used - asize
      /\ (forall i, attr <= i < used - asize ->
            getb r' i = getb r (i + asize))
      /\ (forall i, i < attr -> ~ OFF_used <= i < OFF_used + 4 ->
            getb r' i = getb r i)
      /\ (forall i, used - asize <= i -> getb r' i = getb r i)
      /\ rec_total r' = rec_total r
      /\ length r' = length r
      /\ dirty (snd res) = true).
Proof.
  intros r used asize res r'. split.
  - intros Hgt. subst res. unfold mi_remove_attr. fold r. fold used asize.
    destruct (Z.gtb_spec (u32 (u32 attr + asize)) used); [reflexivity|lia].
  - intros Hwf. exact (mi_remove_attr_bytes mi attr Hwf).
Qed.

(** ** More on mi_resize_attr: what a resize does to the bytes *)

Lemma resize_finish_non_res r attr used nsize :
  MFTRECORD_FIXUP_OFFSET_1 <= attr ->
  attr_non_res (set_attr_size (set_rec_used r used) attr nsize) attr
  = attr_non_res r attr.
Proof.
  intros Ha. unfold MFTRECORD_FIXUP_OFFSET_1 in Ha.
  unfold attr_non_res, set_attr_size, set_rec_used, OFF_non_res, OFF_size,
    OFF_used.
  rewrite !get_le_set_le_other by (simpl; lia). reflexivity.
Qed.

Lemma resize_finish_bytes mi r attr used nsize rsize i :
  MFTRECORD_FIXUP_OFFSET_1 <= attr ->
  ~ OFF_used <= i < OFF_used + 4 ->
  ~ attr + OFF_size <= i < attr + OFF_size + 4 ->
  attr_non_res r attr <> 0
  \/ ~ attr + OFF_res_data_size <= i < attr + OFF_res_data_size + 4 ->
  getb (mrec_bytes (snd (resize_finish mi r attr used nsize rsize))) i
  = getb r i.
Proof.
  intros Ha Hu Hs Hd. unfold resize_finish. cbn [snd].
  rewrite mrec_bytes_with_dirty, mrec_bytes_with_mrec.
  rewrite (resize_finish_non_res r attr used nsize Ha).
  assert (H2 : getb (set_attr_size (set_rec_used r used) attr nsize) i
               = getb r i).
  { unfold set_attr_size, set_rec_used. rewrite !getb_set_le.
    change (Z.of_nat 4) with 4. do 2 range_is_false. reflexivity. }
  destruct (Z.eqb_spec (attr_non_res r attr) 0) as [E|E]; [|exact H2].
  destruct Hd as [Hd|Hd]; [contradiction|].
  unfold set_attr_res_data_size. rewrite getb_set_le.
  change (Z.of_nat 4) with 4. range_is_false. exact H2.
Qed.

Lemma resize_finish_data_size mi r attr used nsize rsize :
  MFTRECORD_FIXUP_OFFSET_1 <= attr ->
  attr + SIZEOF_RESIDENT <= blen r ->
  attr_non_res r attr = 0 ->
  0 <= rsize < 2 ^ 32 ->
  attr_res_data_size
    (mrec_bytes (snd (resize_finish mi r attr used nsize rsize))) attr
  = rsize.
Proof.
  intros Ha Hb Hn Hr. unfold resize_finish. cbn [snd].
  rewrite mrec_bytes_with_dirty, mrec_bytes_with_mrec.
  rewrite (resize_finish_non_res r attr used nsize Ha), Hn.
  cbn [Z.eqb]. unfold attr_res_data_size, set_attr_res_data_size.
  unfold SIZEOF_RESIDENT, MFTRECORD_FIXUP_OFFSET_1, OFF_res_data_size in *.
  rewrite get_le_set_le_same.
  - apply Z.mod_small. exact Hr.
  - lia.
  - unfold set_attr_size, set_rec_used, blen in *.
    rewrite !length_set_le. simpl. lia.
Qed.

(** The bytes of the record after [mi_resize_attr] has grown an
    attribute. *)
Lemma mi_resize_attr_grow_bytes (mi : mft_inode) (attr n : Z) :
  attr_in_record mi attr ->
  SIZEOF_RESIDENT <= attr_size (mrec_bytes mi) attr ->
  0 < n < 2 ^ 31 ->
  let r := mrec_bytes mi in
  let used := rec_used r in
  let asize := attr_size r attr in
  let next := attr + asize in
  let d := round_up_to_8 n in
  let res := mi_resize_attr mi attr n in
  let r' := mrec_bytes (snd res) in
  used + d <= rec_total r ->
  fst res = true
  /\ rec_used r' = used + d
  /\ attr_size r' attr = asize + d
  /\ (forall i, next <= i < used -> getb r' (i + d) = getb r i)
  /\ (forall i, next <= i < next + d -> getb r' i = x00)
  /\ (attr_non_res r attr = 0 ->
      attr_res_data_size r' attr
      = u32 (attr_res_data_size r attr + d))
  /\ (forall i, attr <= i < next ->
        ~ attr + OFF_size <= i < attr + OFF_size + 4 ->
        attr_non_res r attr <> 0
        \/ ~ attr + OFF_res_data_size <= i
             < attr + OFF_res_data_size + 4 ->
        getb r' i = getb r i)
  /\ dirty (snd res) = true
  /\ (forall i, i < attr -> ~ OFF_used <= i < OFF_used + 4 ->
        getb r' i = getb r i)
  /\ length r' = length r.
Proof.
  intros Hwf Hs18 Hn r used asize next d res r' Hle.
  pose proof Hwf as (Ha & Hs8 & Hin & Hut & Htb & Hb).
  assert (Ha0 : 0x2A <= attr) by exact Ha.
  fold r in Hs8, Hin, Hut, Htb, Hb, Hs18.
  fold used asize in Hs8, Hin, Hut, Hs18.
  unfold SIZEOF_RESIDENT in Hs18.
  pose proof (rec_used_range r) as Hur. fold used in Hur.
  pose proof (round_up_to_8_bounds n) as Hd. fold d in Hd.
  pose proof (mi_resize_attr_grow mi attr n Hwf Hn) as Heq.
  cbv zeta in Heq. fold r in Heq. fold used asize next d in Heq.
  fold res in Heq.
  destruct (Z.gtb_spec (used + d) (rec_total r)); [lia|].
  set (tail := used - attr - asize) in *.
  unfold size_t in Heq.
  rewrite (u64_small d) in Heq by lia.
  rewrite (u64_small tail) in Heq by (subst tail; lia).
  set (r1 := memset (memmove r (next + d) next tail) next x00 d) in *.
  subst r'. rewrite Heq.
  assert (Hl1 : length r1 = length r)
    by (unfold r1; now rewrite length_memset, length_memmove).
  assert (Hb1 : attr + 8 <= blen r1)
    by (unfold blen in *; rewrite Hl1; lia).
  pose proof (resize_finish_fields mi r1 attr (used + d) (asize + d)
                (u32 (attr_res_data_size r attr + d))
                Ha Hb1 ltac:(lia) ltac:(lia))
    as (Hok & Hu1 & Hs1 & _ & _ & Hdirty).
  assert (Hnr1 : attr_non_res r1 attr = attr_non_res r attr).
  { unfold r1, attr_non_res, OFF_non_res.
    rewrite get_le_memset_other by (simpl; subst next; lia).
    rewrite get_le_memmove_other by (simpl; subst next; lia).
    reflexivity. }
  split; [exact Hok|]. split; [exact Hu1|]. split; [exact Hs1|].
  split; [|split; [|split; [|split; [|split; [|split]]]]].
  - intros i Hi.
    rewrite resize_finish_bytes
      by (first [assumption
                |unfold OFF_used, OFF_size, OFF_res_data_size;
                 subst next; lia]).
    unfold r1. rewrite getb_memset. range_is_false. cbn [andb].
    rewrite getb_memmove. range_is_true.
    replace (in_range 0 (blen r) (i + d)) with true
      by (symmetry; apply in_range_true; lia).
    cbn [andb]. f_equal. lia.
  - intros i Hi.
    rewrite resize_finish_bytes
      by (first [assumption
                |unfold OFF_used, OFF_size, OFF_res_data_size;
                 subst next; lia]).
    unfold r1. rewrite getb_memset. range_is_true.
    replace (in_range 0 (blen (memmove r (next + d) next tail)) i)
      with true
      by (symmetry; apply in_range_true; unfold blen;
          rewrite length_memmove; fold (blen r); subst next; lia).
    reflexivity.
  - intros Hres. apply resize_finish_data_size; try assumption.
    * unfold SIZEOF_RESIDENT, blen in *. rewrite Hl1. lia.
    * congruence.
    * apply u32_range.
  - intros i Hi Hnot_size Hdata.
    rewrite resize_finish_bytes
      by (first [assumption
                |unfold OFF_used, OFF_size, OFF_res_data_size in *;
                 subst next; lia]).
    unfold r1. rewrite getb_memset. range_is_false. cbn [andb].
    rewrite getb_memmove. range_is_false. reflexivity.
  - exact Hdirty.
  - intros i Hi Hnu.
    rewrite resize_finish_bytes
      by (first [assumption
                |unfold OFF_used, OFF_size, OFF_res_data_size in *;
                 subst next; lia]).
    unfold r1. rewrite getb_memset. range_is_false. cbn [andb].
    rewrite getb_memmove. range_is_false. reflexivity.
  - unfold resize_finish. cbn [snd].
    rewrite mrec_bytes_with_dirty, mrec_bytes_with_mrec.
    destruct (_ =? 0);
      unfold set_attr_res_data_size, set_attr_size, set_rec_used;
      rewrite ?length_set_le; exact Hl1.
Qed.

(** X4.  Growing an attribute of a well-formed record (at least
    [SIZEOF_RESIDENT] long) by [n > 0] bytes, [d] being [n] rounded up to a
    multiple of 8.  Without [d] bytes of room ([used + d > total]) the
    call returns false and changes nothing.  Otherwise it returns true;
    [used] and the size of the attribute grow by [d]; the bytes behind the
    attribute move up by [d]; the [d] bytes of the gap are 0; the resident
    data size grows by [d] for a resident attribute and no other byte of
    the attribute changes but the size field; the record is dirty. *)
Theorem mi_resize_attr_grow_spec (mi : mft_inode) (attr n : Z) :
  attr_in_record mi attr ->
  SIZEOF_RESIDENT <= attr_size (mrec_bytes mi) attr ->
  0 < n < 2 ^ 31 ->
  let r := mrec_bytes mi in
  let used := rec_used r in
  let asize := attr_size r attr in
  let next := attr + asize in
  let d := round_up_to_8 n in
  let res := mi_resize_attr mi attr n in
  let r' := mrec_bytes (snd res) in
  (used + d > rec_total r -> res = (false, mi))
  /\ (used + d <= rec_total r ->
      fst res = true
      /\ rec_used r' = used + d
      /\ attr_size r' attr = asize + d
      /\ (forall i, next <= i < used -> getb r' (i + d) = getb r i)
      /\ (forall i, next <= i < next + d -> getb r' i = x00)
      /\ (attr_non_res r attr = 0 ->
          attr_res_data_size r' attr
          = u32 (attr_res_data_size r attr + d))
      /\ (forall i, attr <= i < next ->
            ~ attr + OFF_size <= i < attr + OFF_size + 4 ->
            attr_non_res r attr <> 0
            \/ ~ attr + OFF_res_data_size <= i
                 < attr + OFF_res_data_size + 4 ->
            getb r' i = getb r i)
      /\ dirty (snd res) = true).
Proof.
  intros Hwf Hs18 Hn r used asize next d res r'.
  pose proof Hwf as (Ha & Hs8 & Hin & Hut & Htb & Hb).
  assert (Ha0 : 0x2A <= attr) by exact Ha.
  fold r in Hs8, Hin, Hut, Htb, Hb, Hs18.
  fold used asize in Hs8, Hin, Hut, Hs18.
  unfold SIZEOF_RESIDENT in Hs18.
  pose proof (rec_used_range r) as Hur. fold used in Hur.
  pose proof (round_up_to_8_bounds n) as Hd. fold d in Hd.
  pose proof (mi_resize_attr_grow mi attr n Hwf Hn) as Heq.
  cbv zeta in Heq. fold r in Heq. fold used asize next d in Heq.
  fold res in Heq.
  split.
  - intros Hgt. rewrite Heq.
    destruct (Z.gtb_spec (used + d) (rec_total r)); [reflexivity|lia].
  - intros Hle.
    pose proof (mi_resize_attr_grow_bytes mi attr n Hwf
                  ltac:(unfold SIZEOF_RESIDENT; exact Hs18) Hn Hle)
      as (H1 & H2 & H3 & H4 & H5 & H6 & H7 & H8 & _).
    exact (conj H1 (conj H2 (conj H3 (conj H4 (conj H5 (conj H6
             (conj H7 H8))))))).
Qed.

Lemma mi_resize_attr_grow_spec_witness :
  let mi := sample_mi 1024 30 record_one_attr in
  let res := mi_resize_attr mi 0x38 5 in
  fst res = true
  /\ rec_used (mrec_bytes (snd res)) = 0x68
  /\ attr_size (mrec_bytes (snd res)) 0x38 = 0x28
  /\ attr_type (mrec_bytes (snd res)) 0x60 = ATTR_END.
Proof.
  intros mi res.
  pose proof (mi_resize_attr_grow_spec mi 0x38 5 ltac:(by_computation)
                ltac:(by_computation) ltac:(by_computation)) as H.
  cbv zeta in H. destruct H as [_ H].
  destruct (H ltac:(by_computation)) as (Hok & Hu & Hs & _).
  subst res. split; [exact Hok|].
  split; [rewrite Hu; by_computation|].
  split; [rewrite Hs; by_computation|by_computation].
Defined.

(** Shrinking by [n] bytes: the result, for an attribute of a well-formed
    record. *)
Lemma mi_resize_attr_shrink_by mi attr n :
  attr_in_record mi attr ->
  0 < n < 2 ^ 31 ->
  let r := mrec_bytes mi in
  let d := round_up_to_8 n in
  let next := attr + attr_size r attr in
  let tail := rec_used r - attr - attr_size r attr in
  mi_resize_attr mi attr (- n)
  = if d >? attr_size r attr then (false, mi)
    else
      resize_finish mi (memmove r (next - d) next tail)
        attr (rec_used r - d) (attr_size r attr - d)
        (u32 (attr_res_data_size r attr - d)).
Proof.
  intros (Ha & Hs8 & Hin & Hut & Htb & Hb) Hn r d next tail.
  fold r in Hs8, Hin, Hut, Htb, Hb.
  unfold mi_resize_attr. fold r.
  unfold MFTRECORD_FIXUP_OFFSET_1 in Ha.
  pose proof (rec_used_range r) as Hur.
  pose proof (attr_size_range r attr) as Hsr.
  pose proof (round_up_to_8_bounds n) as Hd.
  pose proof (round_up_to_8_aligned n) as Hdm. fold d in Hd, Hdm.
  rewrite (u32_small attr) by lia.
  rewrite (s32_small (rec_used r - attr - attr_size r attr)) by lia.
  fold tail.
  destruct (Z.ltb_spec tail 0) as [|_]; [subst tail; lia|].
  destruct (Z.geb_spec attr (rec_used r)) as [|_]; [lia|]. cbn [orb].
  destruct (Z.eqb_spec (- n) 0) as [|_]; [lia|].
  destruct (Z.gtb_spec (- n) 0) as [|_]; [lia|].
  rewrite Z.opp_involutive.
  rewrite (QuadAlign_round_up n) by lia. fold d.
  destruct (Z_lt_ge_dec d (2 ^ 31)) as [Hlt|Hge].
  - rewrite (s32_small d) by lia. rewrite (u32_small d) by lia.
    destruct (Z.gtb_spec d (attr_size r attr)); [reflexivity|].
    rewrite (u32_small (attr_size r attr - d)) by lia.
    rewrite (u32_small (rec_used r - d)) by lia.
    unfold size_t. rewrite (u64_small tail) by (subst tail; lia).
    reflexivity.
  - assert (Hd31 : d = 2 ^ 31).
    { assert (d < 2 ^ 31 + 8) by lia.
      pose proof (Z.div_mod d 8 ltac:(lia)). lia. }
    rewrite Hd31. change (u32 (s32 (2 ^ 31))) with (2 ^ 31).
    destruct (Z.gtb_spec (2 ^ 31) (attr_size r attr)); [reflexivity|lia].
Qed.

(** X5.  Shrinking an attribute of a well-formed record by [n > 0] bytes,
    [d] being [n] rounded up to a multiple of 8.  If [d] is more than the
    size of the attribute the call returns false and changes nothing.
    Otherwise it returns true -- also when less than an attribute header
    remains -- and [used] and the size shrink by [d].  When at least
    [SIZEOF_RESIDENT] bytes remain, the bytes behind the attribute move
    down by [d], the resident data size shrinks by [d] for a resident
    attribute, no other byte of what remains of the attribute changes but
    the size field, and the bytes from the new [used] on are left as they
    were. *)
Theorem mi_resize_attr_shrink_spec (mi : mft_inode) (attr n : Z) :
  attr_in_record mi attr ->
  0 < n < 2 ^ 31 ->
  let r := mrec_bytes mi in
  let used := rec_used r in
  let asize := attr_size r attr in
  let next := attr + asize in
  let d := round_up_to_8 n in
  let res := mi_resize_attr mi attr (- n) in
  let r' := mrec_bytes (snd res) in
  (d > asize -> res = (false, mi))
  /\ (d <= asize ->
      fst res = true
      /\ rec_used r' = used - d
      /\ attr_size r' attr = asize - d
      /\ dirty (snd res) = true
      /\ (SIZEOF_RESIDENT <= asize - d ->
          (forall i, next <= i < used -> getb r' (i - d) = getb r i)
          /\ (attr_non_res r attr = 0 ->
              attr_res_data_size r' attr
              = u32 (attr_res_data_size r attr - d))
          /\ (forall i, attr <= i < next - d ->
                ~ attr + OFF_size <= i < attr + OFF_size + 4 ->
                attr_non_res r attr <> 0
                \/ ~ attr + OFF_res_data_size <= i
                     < attr + OFF_res_data_size + 4 ->
                getb r' i = getb r i)
          /\ (forall i, used - d <= i -> getb r' i = getb r i))).
Proof.
  intros Hwf Hn r used asize next d res r'.
  pose proof Hwf as (Ha & Hs8 & Hin & Hut & Htb & Hb).
  assert (Ha0 : 0x2A <= attr) by exact Ha.
  fold r in Hs8, Hin, Hut, Htb, Hb. fold used asize in Hs8, Hin, Hut.
  pose proof (rec_used_range r) as Hur. fold used in Hur.
  pose proof (round_up_to_8_bounds n) as Hd. fold d in Hd.
  pose proof (mi_resize_attr_shrink_by mi attr n Hwf Hn) as Heq.
  cbv zeta in Heq. fold r in Heq. fold used asize next d in Heq.
  fold res in Heq.
  split.
  - intros Hgt. rewrite Heq.
    destruct (Z.gtb_spec d asize); [reflexivity|lia].
  - intros Hle.
    destruct (Z.gtb_spec d asize); [lia|].
    set (tail := used - attr - asize) in *.
    set (r1 := memmove r (next - d) next tail) in *.
    subst r'. rewrite Heq.
    assert (Hl1 : length r1 = length r) by apply length_memmove.
    assert (Hb1 : attr + 8 <= blen r1)
      by (unfold blen in *; rewrite Hl1; lia).
    pose proof (resize_finish_fields mi r1 attr (used - d) (asize - d)
                  (u32 (attr_res_data_size r attr - d))
                  Ha Hb1 ltac:(lia) ltac:(lia))
      as (Hok & Hu1 & Hs1 & _ & _ & Hdirty).
    split; [exact Hok|]. split; [exact Hu1|]. split; [exact Hs1|].
    split; [exact Hdirty|].
    intros Hkeep. unfold SIZEOF_RESIDENT in Hkeep.
    assert (Hnr1 : attr_non_res r1 attr = attr_non_res r attr).
    { unfold r1, attr_non_res, OFF_non_res.
      rewrite get_le_memmove_other by (simpl; subst next; lia).
      reflexivity. }
    split; [|split; [|split]].
    + intros i Hi.
      rewrite resize_finish_bytes
        by (first [assumption
                  |unfold OFF_used, OFF_size, OFF_res_data_size;
                   subst next; lia]).
      unfold r1. rewrite getb_memmove. range_is_true.
      replace (in_range 0 (blen r) (i - d)) with true
        by (symmetry; apply in_range_true; subst next; lia).
      cbn [andb]. f_equal. lia.
    + intros Hres. apply resize_finish_data_size; try assumption.
      * unfold SIZEOF_RESIDENT, blen in *. rewrite Hl1. lia.
      * congruence.
      * apply u32_range.
    + intros i Hi Hnot_size Hdata.
      rewrite resize_finish_bytes
        by (first [assumption
                  |unfold OFF_used, OFF_size, OFF_res_data_size in *;
                   subst next; lia]).
      unfold r1. rewrite getb_memmove. range_is_false. reflexivity.
    + intros i Hi.
      rewrite resize_finish_bytes
        by (first [assumption
                  |unfold OFF_used, OFF_size, OFF_res_data_size;
                   subst next; lia]).
      unfold r1. rewrite getb_memmove. range_is_false. reflexivity.
Qed.

(** Shrinking the 0x20-byte attribute of [record_one_attr]: by 0x21 bytes
    it fails, by 0x20 bytes it succeeds and leaves an attribute of size
    0. *)
Lemma mi_resize_attr_shrink_spec_witness :
  let mi := sample_mi 1024 30 record_one_attr in
  mi_resize_attr mi 0x38 (Z.opp 0x21) = (false, mi)
  /\ fst (mi_resize_attr mi 0x38 (Z.opp 0x20)) = true
  /\ attr_size (mrec_bytes (snd (mi_resize_attr mi 0x38 (Z.opp 0x20)))) 0x38 = 0
  /\ rec_used (mrec_bytes (snd (mi_resize_attr mi 0x38 (Z.opp 0x20)))) = 0x40.
Proof.
  intros mi.
  pose proof (mi_resize_attr_shrink_spec mi 0x38 0x21 ltac:(by_computation)
                ltac:(by_computation)) as H1.
  pose proof (mi_resize_attr_shrink_spec mi 0x38 0x20 ltac:(by_computation)
                ltac:(by_computation)) as H2.
  cbv zeta in H1, H2. destruct H1 as [H1 _]. destruct H2 as [_ H2].
  split; [apply H1; by_computation|].
  destruct (H2 ltac:(by_computation)) as (Hok & Hu & Hs & _).
  split; [exact Hok|]. split; [rewrite Hs|rewrite Hu]; by_computation.
Defined.

(** ** More on the record life cycle *)

Section LifecycleExtra.

Context {C : Collaborators}.

Lemma read_bh_keeps w mi vbo bpr :
  let mi' := snd (fst (read_bh w mi vbo bpr)) in
  sbi mi' = sbi mi /\ rno mi' = rno mi /\ dirty mi' = dirty mi
  /\ length (mrec_bytes mi') = length (mrec_bytes mi).
Proof.
  unfold read_bh.
  destruct (ntfs_read_bh_ex w (sbi mi) vbo (mrec_bytes mi) bpr)
    as [[[err data] nb] w1].
  cbn [fst snd]. repeat split. apply length_memcpy.
Qed.

(** X6.  [mi_read] returns 0 only when the [total] field of the record it
    has read is the record size of the volume.  Whatever it returns, it
    keeps [sbi], [rno] and the length of the record buffer, and it never
    clears the dirty flag. *)
Theorem mi_read_spec (w : world) (mi : mft_inode) (is_mft : bool) :
  let res := mi_read w mi is_mft in
  let mi' := snd (fst res) in
  (fst (fst res) = 0 ->
   rec_total (mrec_bytes mi') = record_size (sbi mi))
  /\ sbi mi' = sbi mi
  /\ rno mi' = rno mi
  /\ length (mrec_bytes mi') = length (mrec_bytes mi)
  /\ (dirty mi = true -> dirty mi' = true).
Proof.
  intros res mi'. subst mi' res. unfold mi_read.
  set (vbo := u64 (Z.shiftl (rno mi) (record_bits (sbi mi)))).
  set (bpr := record_size (sbi mi)).
  pose proof (read_bh_keeps w mi vbo bpr) as H1. cbv zeta in H1.
  destruct (read_bh w mi vbo bpr) as [[err mi1] w1]. cbn [fst snd] in H1.
  destruct H1 as (Hs1 & Hr1 & Hd1 & Hl1).
  assert (Hok : forall m, mi_read_ok m bpr = 0 ->
                  rec_total (mrec_bytes m) = bpr).
  { intros m. unfold mi_read_ok.
    destruct (Z.eqb_spec (rec_total (mrec_bytes m)) bpr); cbn [negb];
      [easy|]. unfold EINVAL. discriminate. }
  destruct (Z.eqb_spec err 0) as [He0|He0].
  { cbn [fst snd]. repeat split; try assumption; try congruence.
    apply Hok. }
  destruct (err =? 1).
  { cbn [fst snd]. rewrite mrec_bytes_with_dirty.
    split; [apply (Hok (with_dirty mi1 true))|].
    unfold with_dirty; cbn [sbi rno dirty]. repeat split; congruence. }
  destruct (Z.eqb_spec err (- ENOENT)) as [He|He]; cbn [negb].
  2:{ cbn [fst snd]. repeat split; try assumption; congruence. }
  destruct (attr_load_runs_vcn w1 (sbi mi1) _) as [err2 w2].
  destruct (Z.eqb_spec err2 0) as [He2|He2]; cbn [negb].
  2:{ cbn [fst snd]. repeat split; try assumption; congruence. }
  pose proof (read_bh_keeps w2 mi1 vbo bpr) as H2. cbv zeta in H2.
  destruct (read_bh w2 mi1 vbo bpr) as [[err3 mi3] w3].
  cbn [fst snd] in H2. destruct H2 as (Hs3 & Hr3 & Hd3 & Hl3).
  destruct (err3 =? 1).
  { cbn [fst snd]. rewrite mrec_bytes_with_dirty.
    split; [apply (Hok (with_dirty mi3 true))|].
    unfold with_dirty; cbn [sbi rno dirty]. repeat split; congruence. }
  destruct (Z.eqb_spec err3 0) as [He3|He3]; cbn [negb fst snd].
  - repeat split; try congruence. apply Hok.
  - repeat split; congruence.
Qed.

(** X7.  [mi_write] does nothing on a record that is not dirty: no write
    is requested.  It never changes the record; it clears the dirty flag
    when the write succeeds and leaves the [mft_inode] as it was when the
    write fails; and right after a [mi_write] that returned 0 another
    [mi_write] does nothing. *)
Theorem mi_write_spec (w : world) (mi : mft_inode) (wait wait' : Z) :
  let res := mi_write w mi wait in
  let mi' := snd (fst res) in
  (dirty mi = false -> res = (0, mi, w))
  /\ mrec mi' = mrec mi
  /\ (fst (fst res) = 0 ->
      dirty mi' = false
      /\ mi_write (snd res) mi' wait' = (0, mi', snd res))
  /\ (fst (fst res) <> 0 -> mi' = mi /\ dirty mi = true).
Proof.
  intros res mi'. subst mi' res. unfold mi_write.
  destruct (dirty mi) eqn:Hd; cbn [negb].
  - destruct (ntfs_write_bh_ex w (sbi mi) (mrec_bytes mi) (nbufs mi) wait)
      as [err w1].
    destruct (Z.eqb_spec err 0) as [->|Hne]; cbn [negb fst snd].
    + split; [discriminate|]. split; [reflexivity|].
      split; [|intros H; contradiction].
      intros _. split; reflexivity.
    + split; [discriminate|]. split; [reflexivity|].
      split; [intros H; contradiction|]. intros _. now split.
  - cbn [fst snd]. rewrite Hd. cbn [negb].
    split; [reflexivity|]. split; [reflexivity|].
    split; [intros _; split; reflexivity|]. intros H. contradiction.
Qed.

Lemma land_1_mod (x : Z) : Z.land x 1 = x mod 2.
Proof. exact (Z.land_ones x 1 ltac:(lia)). Qed.

Lemma flags_parity (b : buffer) :
  Z.land (rec_flags b) 1 = Z.land (Z_of_byte (getb b OFF_flags)) 1.
Proof.
  unfold rec_flags. cbn [get_le].
  rewrite !land_1_mod.
  replace (Z_of_byte (getb b OFF_flags)
           + 256 * (Z_of_byte (getb b (OFF_flags + 1)) + 256 * 0))
    with (Z_of_byte (getb b OFF_flags)
          + (128 * Z_of_byte (getb b (OFF_flags + 1))) * 2) by lia.
  apply Z.mod_add. lia.
Qed.

(** After [clear_rec_inuse] a record is not in use, whatever the length of
    its buffer. *)
Lemma clear_rec_inuse_not_inuse (r : buffer) :
  is_rec_inuse (clear_rec_inuse r) = false.
Proof.
  unfold is_rec_inuse. rewrite flags_parity.
  unfold clear_rec_inuse, set_rec_flags. rewrite getb_set_le.
  unfold RECORD_FLAG_IN_USE.
  destruct (in_range OFF_flags (Z.of_nat 2) OFF_flags
            && in_range 0 (blen r) OFF_flags) eqn:E.
  - rewrite Z_of_byte_of_Z, Z.sub_diag, Z.pow_0_r, Z.div_1_r.
    change 256 with (2 ^ 8). rewrite <- Z.land_ones by lia.
    rewrite <- !Z.land_assoc.
    change (Z.land (Z.ones 8) 1) with 1.
    change (Z.land (u16 (Z.lnot 1)) 1) with 0.
    now rewrite Z.land_0_r.
  - apply andb_false_iff in E. destruct E as [E|E]; [discriminate|].
    apply in_range_false in E.
    rewrite getb_outside by (unfold OFF_flags in *; lia). reflexivity.
Qed.

Lemma mi_mark_free_bytes w mi r :
  ~ MFT_REC_RESERVED <= rno mi < MFT_REC_FREE ->
  mrec mi = Some r ->
  mrec_bytes (fst (mi_mark_free w mi)) = clear_rec_inuse r.
Proof.
  intros Hr Hm. unfold mi_mark_free, MFT_REC_RESERVED, MFT_REC_FREE in *.
  replace ((rno mi >=? 11) && (rno mi <? 16)) with false.
  2:{ symmetry. apply andb_false_iff.
      destruct (Z.geb_spec (rno mi) 11); [|now left].
      destruct (Z.ltb_spec (rno mi) 16); [lia|now right]. }
  rewrite Hm. unfold mi_write. cbn [dirty with_dirty negb].
  destruct (ntfs_write_bh_ex _ _ _ _ _) as [err w1].
  destruct (negb (err =? 0)); reflexivity.
Qed.

(** X8.  Once [mi_mark_free] has retired a record (one with a buffer and a
    number outside the reserved range), the record has no attributes any
    more for the rest of the code: the first call of [mi_enum_attr]
    returns [NULL], so the attribute list is empty and [mi_find_attr]
    finds nothing. *)
Theorem mi_mark_free_then_enum (w : world) (mi : mft_inode) (r : buffer)
    (ty : Z) (name : list byte) (nl : Z) (id : option Z) :
  ~ MFT_REC_RESERVED <= rno mi < MFT_REC_FREE ->
  mrec mi = Some r ->
  let mi' := fst (mi_mark_free w mi) in
  is_rec_inuse (mrec_bytes mi') = false
  /\ mi_enum_attr mi' None = None
  /\ attr_list mi' = []
  /\ mi_find_attr mi' None ty name nl id = None.
Proof.
  intros Hr Hm mi'.
  assert (Hb : mrec_bytes mi' = clear_rec_inuse r)
    by (apply mi_mark_free_bytes; assumption).
  assert (Hu : is_rec_inuse (mrec_bytes mi') = false)
    by (rewrite Hb; apply clear_rec_inuse_not_inuse).
  assert (He : mi_enum_attr mi' None = None).
  { unfold mi_enum_attr, enum_start. rewrite Hu. cbn [negb].
    destruct (_ >? _); [reflexivity|].
    destruct (_ || _); reflexivity. }
  split; [exact Hu|]. split; [exact He|]. split.
  - unfold attr_list, enum_fuel. cbn [enum_list]. now rewrite He.
  - unfold mi_find_attr, enum_fuel. cbn [mi_find_attr_loop]. now rewrite He.
Qed.

End LifecycleExtra.

Lemma mi_mark_free_then_enum_witness :
  let mi := sample_mi 1024 30 record_one_attr in
  let mi' := fst (mi_mark_free (C := trace_collab no_disk no_packer) [] mi) in
  attr_list mi = [0x38]
  /\ is_rec_inuse (mrec_bytes mi') = false
  /\ mi_enum_attr mi' None = None
  /\ attr_list mi' = []
  /\ mi_find_attr mi' None 0x10 [] 0 None = None.
Proof.
  intros mi mi'. split; [by_computation|].
  apply (mi_mark_free_then_enum (C := trace_collab no_disk no_packer)
           [] mi record_one_attr 0x10 [] 0 None).
  - intros [_ H]. vm_compute in H. discriminate H.
  - reflexivity.
Defined.

(** ** The attribute list as a walk through the record *)

Lemma get_le_shift k : forall b b' off off',
  (forall j, 0 <= j < Z.of_nat k -> getb b' (off' + j) = getb b (off + j)) ->
  get_le k b' off' = get_le k b off.
Proof.
  induction k as [|k IH]; intros b b' off off' H; [reflexivity|].
  cbn [get_le]. rewrite (IH b b' (off + 1) (off' + 1)).
  - specialize (H 0). rewrite !Z.add_0_r in H. rewrite H by lia. reflexivity.
  - intros j Hj. replace (off + 1 + j) with (off + (j + 1)) by lia.
    replace (off' + 1 + j) with (off' + (j + 1)) by lia. apply H. lia.
Qed.

(** A field of [k] bytes at offset [o] of an attribute, when the first [w]
    bytes of the attribute at [p'] in [r'] are those of the one at [p] in
    [r]. *)
Lemma get_le_window k r r' p p' o w :
  (forall j, 0 <= j < w -> getb r' (p' + j) = getb r (p + j)) ->
  0 <= o -> o + Z.of_nat k <= w ->
  get_le k r' (p' + o) = get_le k r (p + o).
Proof.
  intros H Ho Hw. apply get_le_shift. intros j Hj.
  rewrite <- !Z.add_assoc. apply H. lia.
Qed.

(** [enum_check] reads these fields of the attribute and nothing else. *)
Lemma enum_check_fields r r' used used' p p' off off' :
  attr_type r' p' = attr_type r p ->
  attr_size r' p' = attr_size r p ->
  attr_non_res r' p' = attr_non_res r p ->
  attr_name_len r' p' = attr_name_len r p ->
  attr_name_off r' p' = attr_name_off r p ->
  attr_flags r' p' = attr_flags r p ->
  attr_res_data_size r' p' = attr_res_data_size r p ->
  attr_res_data_off r' p' = attr_res_data_off r p ->
  attr_nres_svcn r' p' = attr_nres_svcn r p ->
  (attr_non_res r p <> 0 ->
   attr_nres_run_off r' p' = attr_nres_run_off r p
   /\ attr_nres_c_unit r' p' = attr_nres_c_unit r p) ->
  (u32 (off' + 8) >? used') = (u32 (off + 8) >? used) ->
  (u32 (off' + attr_size r p) >? used')
  = (u32 (off + attr_size r p) >? used) ->
  enum_check r' used' p' off'
  = match enum_check r used p off with
    | Some _ => Some p'
    | None => None
    end.
Proof.
  intros Ety Esz Enr Enl Eno Efl Eds Edo Esv Enres E8 Es.
  unfold enum_check, is_attr_ext.
  rewrite Ety, Esz, Enr, Enl, Eno, Efl, Eds, Edo, Esv, E8, Es.
  destruct (u32 (off + 8) >? used); [reflexivity|].
  destruct (attr_type r p =? ATTR_END).
  { destruct (negb (used' =? _)), (negb (used =? _)); reflexivity. }
  destruct (negb _ || _); [reflexivity|].
  destruct (u32 (off + attr_size r p) >? used); [reflexivity|].
  destruct (Z.eqb_spec (attr_non_res r p) 0) as [E0|E0].
  - repeat match goal with
           | |- context [if ?c then _ else _] => destruct c
           end; reflexivity.
  - destruct (Enres E0) as [-> ->].
    repeat match goal with
           | |- context [if ?c then _ else _] => destruct c
           end; reflexivity.
Qed.

Lemma enum_check_size r used p off a :
  enum_check r used p off = Some a -> SIZEOF_RESIDENT <= attr_size r p.
Proof.
  intros H. apply enum_check_valid in H.
  destruct H as (_ & _ & _ & _ & _ & Hres & Hnres).
  destruct (Z.eq_dec (attr_non_res r p) 0) as [E|E].
  - apply Hres in E. tauto.
  - apply Hnres in E. unfold SIZEOF_NONRESIDENT, SIZEOF_RESIDENT in *. lia.
Qed.

(** An attribute that passes the checks passes them wherever its bytes are
    copied to, as long as it ends within [used] there as well. *)
Lemma enum_check_transfer r r' used used' p p' :
  enum_check r used p (u32 p) = Some p ->
  (forall j, 0 <= j < attr_size r p ->
             getb r' (p' + j) = getb r (p + j)) ->
  0 <= p' -> p' + attr_size r p <= used' -> used' < 2 ^ 32 ->
  enum_check r' used' p' (u32 p') = Some p'.
Proof.
  intros Hacc Hwin Hp' Hfit Hu'.
  pose proof (enum_check_size _ _ _ _ _ Hacc) as Hsz.
  pose proof (enum_check_valid _ _ _ _ _ Hacc)
    as (H8 & Hs & _ & _ & _ & _ & Hnres).
  unfold SIZEOF_RESIDENT in Hsz.
  rewrite (enum_check_fields r r' used used' p p' (u32 p) (u32 p')).
  - now rewrite Hacc.
  - unfold attr_type, OFF_type. apply (get_le_window 4 _ _ _ _ _ _ Hwin);
      lia.
  - unfold attr_size, OFF_size. apply (get_le_window 4 _ _ _ _ _ _ Hwin);
      lia.
  - unfold attr_non_res, OFF_non_res.
    apply (get_le_window 1 _ _ _ _ _ _ Hwin); lia.
  - unfold attr_name_len, OFF_name_len.
    apply (get_le_window 1 _ _ _ _ _ _ Hwin); lia.
  - unfold attr_name_off, OFF_name_off.
    apply (get_le_window 2 _ _ _ _ _ _ Hwin); lia.
  - unfold attr_flags, OFF_aflags.
    apply (get_le_window 2 _ _ _ _ _ _ Hwin); lia.
  - unfold attr_res_data_size, OFF_res_data_size.
    apply (get_le_window 4 _ _ _ _ _ _ Hwin); lia.
  - unfold attr_res_data_off, OFF_res_data_off.
    apply (get_le_window 2 _ _ _ _ _ _ Hwin); lia.
  - unfold attr_nres_svcn, OFF_nres_svcn.
    apply (get_le_window 8 _ _ _ _ _ _ Hwin); lia.
  - intros Hn. apply Hnres in Hn. destruct Hn as (Hn & _).
    unfold SIZEOF_NONRESIDENT in Hn. split.
    + unfold attr_nres_run_off, OFF_nres_run_off.
      apply (get_le_window 2 _ _ _ _ _ _ Hwin); lia.
    + unfold attr_nres_c_unit, OFF_nres_c_unit.
      apply (get_le_window 1 _ _ _ _ _ _ Hwin); lia.
  - rewrite (u32_small p') by lia. rewrite (u32_small (p' + 8)) by lia.
    destruct (Z.gtb_spec (p' + 8) used'); [lia|].
    destruct (Z.gtb_spec (u32 (u32 p + 8)) used); [lia|reflexivity].
  - rewrite (u32_small p') by lia.
    rewrite (u32_small (p' + attr_size r p)) by lia.
    destruct (Z.gtb_spec (p' + attr_size r p) used'); [lia|].
    destruct (Z.gtb_spec (u32 (u32 p + attr_size r p)) used);
      [lia|reflexivity].
Qed.

(** Where the enumeration stops for want of 8 bytes or at the end marker,
    it stops as well after the tail of the record has been moved. *)
Lemma enum_check_end_shift r r' used used' q q' :
  used < q + 8 \/ attr_type r q = ATTR_END ->
  0 <= q' <= used' -> used' < 2 ^ 32 - 8 ->
  used' - q' = used - q ->
  (forall j, 0 <= j < used - q -> getb r' (q' + j) = getb r (q + j)) ->
  enum_check r' used' q' (u32 q') = None.
Proof.
  intros Hend Hq' Hu' Hd Hwin. unfold enum_check.
  rewrite (u32_small q') by lia. rewrite (u32_small (q' + 8)) by lia.
  destruct (Z.gtb_spec (q' + 8) used') as [|H8]; [reflexivity|].
  destruct Hend as [Hend|Hend]; [lia|].
  assert (Ety : attr_type r' q' = attr_type r q).
  { unfold attr_type, OFF_type.
    apply (get_le_window 4 _ _ _ _ _ _ Hwin); lia. }
  rewrite Ety, Hend. rewrite Z.eqb_refl. destruct (negb _); reflexivity.
Qed.

Lemma mi_enum_attr_next mi a :
  0 <= a ->
  SIZEOF_RESIDENT <= attr_size (mrec_bytes mi) a ->
  a + attr_size (mrec_bytes mi) a <= rec_used (mrec_bytes mi) ->
  mi_enum_attr mi (Some a)
  = enum_check (mrec_bytes mi) (rec_used (mrec_bytes mi))
      (a + attr_size (mrec_bytes mi) a)
      (u32 (a + attr_size (mrec_bytes mi) a)).
Proof.
  intros Ha Hs Hfit. unfold mi_enum_attr, enum_start.
  pose proof (rec_used_range (mrec_bytes mi)) as Hu.
  unfold SIZEOF_RESIDENT in *.
  rewrite (u32_small a) by lia.
  destruct (Z.geb_spec a (rec_used (mrec_bytes mi))); [lia|].
  destruct (Z.ltb_spec (attr_size (mrec_bytes mi) a) 24); [lia|].
  reflexivity.
Qed.

Lemma enum_start_first r used o off :
  enum_start r used None = Some (o, off) ->
  o = rec_attr_off r /\ off = o /\ u32 o = o
  /\ MFTRECORD_FIXUP_OFFSET_1 <= o < used /\ used <= rec_total r.
Proof.
  unfold enum_start. pose proof (rec_attr_off_range r) as Hr.
  destruct (Z.gtb_spec used (rec_total r)); [discriminate|].
  destruct (Z.geb_spec (rec_attr_off r) used); [discriminate|].
  destruct (Z.ltb_spec (rec_attr_off r) MFTRECORD_FIXUP_OFFSET_1);
    [discriminate|].
  cbn [orb]. destruct (negb (IsDwordAligned _)); [discriminate|].
  destruct (negb (is_rec_inuse r)); [discriminate|].
  intros Hsome. inversion Hsome. subst. repeat split; try lia.
  apply u32_small. lia.
Qed.

Lemma walk_head r used p x l q : attr_walk r used p (x :: l) q -> x = p.
Proof. intros Hw. now inversion Hw. Qed.

Lemma walk_app r used l1 : forall p m l2 q,
  attr_walk r used p l1 m -> attr_walk r used m l2 q ->
  attr_walk r used p (l1 ++ l2) q.
Proof.
  induction l1 as [|x l1 IH]; intros p m l2 q H1 H2; inversion H1; subst.
  - exact H2.
  - cbn [app]. apply walk_cons; try assumption. eapply IH; eassumption.
Qed.

Lemma walk_app_inv r used l1 : forall p l2 q,
  attr_walk r used p (l1 ++ l2) q ->
  exists m, attr_walk r used p l1 m /\ attr_walk r used m l2 q.
Proof.
  induction l1 as [|x l1 IH]; intros p l2 q Hw.
  - exists p. split; [apply walk_nil|exact Hw].
  - cbn [app] in Hw. inversion Hw as [|p' l' q' Hacc Hfit Hw']; subst.
    destruct (IH _ _ _ Hw') as (m & H1 & H2).
    exists m. split; [now apply walk_cons|exact H2].
Qed.

(** A walk ends behind its last attribute. *)
Lemma walk_last r used p l q :
  attr_walk r used p l q ->
  forall s, current_attr r s = p ->
  q = current_attr r (match last_attr l with Some z => Some z | None => s end).
Proof.
  induction 1 as [p|p l q Hacc Hfit Hw IH]; intros s Hs.
  - now rewrite <- Hs.
  - rewrite (IH (Some p) eq_refl). unfold last_attr. cbn [rev].
    destruct (rev l) as [|z t]; reflexivity.
Qed.

Lemma walk_bounds r used p l q :
  attr_walk r used p l q ->
  p <= q /\ (l <> [] -> q <= used)
  /\ forall a, In a l -> p <= a /\ a + attr_size r a <= q.
Proof.
  induction 1 as [p|p l q Hacc Hfit Hw (IH1 & IH2 & IH3)].
  - split; [lia|]. split; [congruence|]. intros a [].
  - pose proof (attr_size_range r p) as Hs.
    split; [lia|]. split.
    + intros _. destruct l as [|y l]; [inversion Hw; subst; lia|].
      apply IH2. discriminate.
    + intros a [<-|Ha]; [lia|]. apply IH3 in Ha. lia.
Qed.

(** From the enumeration to the walk. *)
Lemma chain_walk mi : forall s l,
  enum_chain mi s l ->
  forall a, s = Some a ->
  0 <= a ->
  SIZEOF_RESIDENT <= attr_size (mrec_bytes mi) a ->
  a + attr_size (mrec_bytes mi) a <= rec_used (mrec_bytes mi) ->
  (forall x, In x l ->
     x + attr_size (mrec_bytes mi) x <= rec_used (mrec_bytes mi)) ->
  exists q,
    attr_walk (mrec_bytes mi) (rec_used (mrec_bytes mi))
      (a + attr_size (mrec_bytes mi) a) l q
    /\ enum_check (mrec_bytes mi) (rec_used (mrec_bytes mi)) q (u32 q)
       = None.
Proof.
  induction 1 as [s E|s x l E Hl IH]; intros a -> Ha Hs Hfit Hall;
    rewrite mi_enum_attr_next in E by assumption.
  - eexists. split; [apply walk_nil|exact E].
  - pose proof (enum_check_inv _ _ _ _ _ E) as [Hx _].
    pose proof (enum_check_size _ _ _ _ _ E) as Hsx.
    rewrite <- Hx in E, Hsx.
    assert (Hfx : x + attr_size (mrec_bytes mi) x
                  <= rec_used (mrec_bytes mi))
      by (apply Hall; now left).
    unfold SIZEOF_RESIDENT in *.
    destruct (IH x eq_refl ltac:(lia) Hsx Hfx
                ltac:(intros y Hy; apply Hall; now right))
      as (q & Hw & Hq).
    exists q. split; [|exact Hq]. rewrite <- Hx.
    apply walk_cons; assumption.
Qed.

Lemma chain_walk_start mi l :
  enum_chain mi None l ->
  (forall x, In x l ->
     x + attr_size (mrec_bytes mi) x <= rec_used (mrec_bytes mi)) ->
  enum_start (mrec_bytes mi) (rec_used (mrec_bytes mi)) None
  = Some (rec_attr_off (mrec_bytes mi), rec_attr_off (mrec_bytes mi)) ->
  exists q,
    attr_walk (mrec_bytes mi) (rec_used (mrec_bytes mi))
      (rec_attr_off (mrec_bytes mi)) l q
    /\ enum_check (mrec_bytes mi) (rec_used (mrec_bytes mi)) q (u32 q)
       = None.
Proof.
  intros Hc Hall Hst.
  pose proof (enum_start_first _ _ _ _ Hst) as (_ & _ & Hu & Ho & _).
  unfold MFTRECORD_FIXUP_OFFSET_1 in Ho.
  inversion Hc as [s E|s x l' E Hl]; subst;
    unfold mi_enum_attr in E; rewrite Hst in E; rewrite <- Hu in E at 2.
  - eexists. split; [apply walk_nil|exact E].
  - pose proof (enum_check_inv _ _ _ _ _ E) as [Hx _].
    pose proof (enum_check_size _ _ _ _ _ E) as Hsx.
    rewrite <- Hx in E, Hsx.
    assert (Hfx : x + attr_size (mrec_bytes mi) x
                  <= rec_used (mrec_bytes mi))
      by (apply Hall; now left).
    destruct (chain_walk mi _ _ Hl x eq_refl ltac:(lia) Hsx Hfx
                ltac:(intros y Hy; apply Hall; now right))
      as (q & Hw & Hq).
    exists q. split; [|exact Hq]. rewrite <- Hx.
    apply walk_cons; assumption.
Qed.

Lemma chain_start_ok mi l :
  enum_chain mi None l -> l <> [] ->
  enum_start (mrec_bytes mi) (rec_used (mrec_bytes mi)) None
  = Some (rec_attr_off (mrec_bytes mi), rec_attr_off (mrec_bytes mi)).
Proof.
  intros Hc Hne. inversion Hc as [|s x l' E Hl]; subst; [congruence|].
  unfold mi_enum_attr in E.
  destruct (enum_start _ _ None) as [[o off]|] eqn:Es; [|discriminate].
  pose proof (enum_start_first _ _ _ _ Es) as (-> & -> & _). reflexivity.
Qed.

(** The header tests of the first call, for a record that differs in
    [used] only. *)
Lemma enum_start_header r r' used used' :
  rec_total r' = rec_total r ->
  rec_attr_off r' = rec_attr_off r ->
  is_rec_inuse r' = is_rec_inuse r ->
  enum_start r used None = Some (rec_attr_off r, rec_attr_off r) ->
  used' <= rec_total r ->
  enum_start r' used' None
  = if rec_attr_off r >=? used' then None
    else Some (rec_attr_off r, rec_attr_off r).
Proof.
  intros Et Eo Ei Hst Hu. unfold enum_start in *. rewrite Et, Eo, Ei.
  destruct (Z.gtb_spec used' (rec_total r)); [lia|].
  destruct (Z.gtb_spec used (rec_total r)); [discriminate|].
  destruct (rec_attr_off r >=? used); [discriminate|].
  destruct (rec_attr_off r >=? used'); [reflexivity|].
  cbn [orb] in *.
  destruct (_ || _); [discriminate|].
  destruct (negb _); [discriminate|]. reflexivity.
Qed.

Lemma map_add_0 (l : list Z) : map (fun a => a + 0) l = l.
Proof.
  induction l as [|x l IH]; [reflexivity|]. cbn [map].
  now rewrite IH, Z.add_0_r.
Qed.

Lemma last_attr_or_none (l : list Z) :
  match last_attr l with Some z => Some z | None => None end = last_attr l.
Proof. now destruct (last_attr l). Qed.

(** From the walk back to the enumeration. *)
Lemma walk_chain mi p l q :
  attr_walk (mrec_bytes mi) (rec_used (mrec_bytes mi)) p l q ->
  enum_check (mrec_bytes mi) (rec_used (mrec_bytes mi)) q (u32 q) = None ->
  forall a, 0 <= a ->
  SIZEOF_RESIDENT <= attr_size (mrec_bytes mi) a ->
  p = a + attr_size (mrec_bytes mi) a ->
  p <= rec_used (mrec_bytes mi) ->
  enum_chain mi (Some a) l.
Proof.
  induction 1 as [p|p l q Hacc Hfit Hw IH]; intros Hq a Ha Hs Hp Hpu;
    subst p.
  - apply chain_end. rewrite mi_enum_attr_next by assumption. exact Hq.
  - apply chain_next.
    + rewrite mi_enum_attr_next by assumption. exact Hacc.
    + pose proof (enum_check_size _ _ _ _ _ Hacc) as Hsx.
      unfold SIZEOF_RESIDENT in *.
      apply IH; try assumption; try reflexivity; lia.
Qed.

Lemma walk_chain_start mi l q :
  enum_start (mrec_bytes mi) (rec_used (mrec_bytes mi)) None
  = Some (rec_attr_off (mrec_bytes mi), rec_attr_off (mrec_bytes mi)) ->
  attr_walk (mrec_bytes mi) (rec_used (mrec_bytes mi))
    (rec_attr_off (mrec_bytes mi)) l q ->
  enum_check (mrec_bytes mi) (rec_used (mrec_bytes mi)) q (u32 q) = None ->
  enum_chain mi None l.
Proof.
  intros Hst Hw Hq.
  pose proof (enum_start_first _ _ _ _ Hst) as (_ & _ & Hu & Ho & _).
  unfold MFTRECORD_FIXUP_OFFSET_1 in Ho.
  inversion Hw as [p|p l' q' Hacc Hfit Hw']; subst.
  - apply chain_end. unfold mi_enum_attr. rewrite Hst.
    rewrite <- Hu at 2. exact Hq.
  - apply chain_next.
    + unfold mi_enum_attr. rewrite Hst. rewrite <- Hu at 2. exact Hacc.
    + pose proof (enum_check_size _ _ _ _ _ Hacc) as Hsx.
      unfold SIZEOF_RESIDENT in *.
      eapply walk_chain; try eassumption; try reflexivity; lia.
Qed.

(** A walk through a part of the record is a walk through any copy of
    that part, at the distance [d], that lies within [used] there. *)
Lemma walk_transfer r r' used used' d p l q :
  attr_walk r used p l q ->
  (forall i, p <= i < q -> getb r' (i + d) = getb r i) ->
  0 <= p + d -> q + d <= used' -> used' < 2 ^ 32 ->
  attr_walk r' used' (p + d) (map (fun a => a + d) l) (q + d).
Proof.
  induction 1 as [p|p l q Hacc Hfit Hw IH]; intros Hwin Hp Hq Hu';
    cbn [map]; [apply walk_nil|].
  pose proof (walk_bounds _ _ _ _ _ Hw) as (Hpq & _).
  pose proof (attr_size_range r p) as Hs.
  assert (Hwin' : forall j, 0 <= j < attr_size r p ->
                    getb r' (p + d + j) = getb r (p + j)).
  { intros j Hj. replace (p + d + j) with (p + j + d) by lia.
    apply Hwin. lia. }
  assert (Hsz : attr_size r' (p + d) = attr_size r p).
  { pose proof (enum_check_size _ _ _ _ _ Hacc) as Hsx.
    unfold SIZEOF_RESIDENT in Hsx. unfold attr_size, OFF_size.
    apply (get_le_window 4 _ _ _ _ _ _ Hwin'); lia. }
  apply walk_cons.
  - apply (enum_check_transfer r r' used used' p (p + d)); try assumption.
    lia.
  - rewrite Hsz. lia.
  - rewrite Hsz. replace (p + d + attr_size r p)
      with (p + attr_size r p + d) by lia.
    apply IH; try assumption; try lia.
    intros i Hi. apply Hwin. lia.
Qed.

(** ** The layout of a well-formed record *)

(** A walk passes at least [SIZEOF_RESIDENT] bytes per attribute. *)
Lemma walk_count r used p l q :
  attr_walk r used p l q ->
  p + SIZEOF_RESIDENT * Z.of_nat (length l) <= q.
Proof.
  induction 1 as [p|p l q Hacc Hfit Hw IH]; cbn [length]; [lia|].
  apply enum_check_size in Hacc. lia.
Qed.

(** The attributes of a well-formed record are a walk from the first
    attribute offset to the end marker. *)
Lemma record_ok_walk mi :
  record_ok mi ->
  attr_walk (mrec_bytes mi) (rec_used (mrec_bytes mi))
    (rec_attr_off (mrec_bytes mi)) (attr_list mi) (attr_end mi)
  /\ attr_end mi + 8 = rec_used (mrec_bytes mi)
  /\ rec_used (mrec_bytes mi) <= blen (mrec_bytes mi).
Proof.
  intros (Hst & Hfit & (_ & Hend) & _ & Htb & _).
  pose proof (enum_start_first _ _ _ _ Hst) as (_ & _ & _ & _ & Hut).
  destruct (chain_walk_start mi _ (attr_list_chain mi) Hfit Hst)
    as (q & Hw & _).
  pose proof (walk_last _ _ _ _ _ Hw None eq_refl) as Hq.
  rewrite last_attr_or_none in Hq. fold (attr_end mi) in Hq. subst q.
  split; [exact Hw|]. split; [exact Hend|lia].
Qed.

(** X1.  The layout of a well-formed record: the call of [mi_enum_attr]
    after the last attribute returns [NULL]; every attribute starts at or
    behind the first attribute offset of the header, which lies behind the
    header fields, and ends at least 8 bytes (the end marker) in front of
    [used]; each attribute is returned by the call on the one before it and
    starts where that one ends, at least [SIZEOF_RESIDENT] bytes later; so
    the attributes and the end marker take at least [SIZEOF_RESIDENT]
    bytes each and 8 bytes of the used part, which lies inside the
    buffer. *)
Theorem attr_list_layout (mi : mft_inode) :
  record_ok mi ->
  let r := mrec_bytes mi in
  let l := attr_list mi in
  mi_enum_attr mi (last_attr l) = None
  /\ MFTRECORD_FIXUP_OFFSET_1 <= rec_attr_off r
  /\ (forall a, In a l ->
        rec_attr_off r <= a /\ a + attr_size r a + 8 <= rec_used r)
  /\ (forall l1 a b l2, l = l1 ++ a :: b :: l2 ->
        mi_enum_attr mi (Some a) = Some b
        /\ b = a + attr_size r a
        /\ a + SIZEOF_RESIDENT <= b)
  /\ rec_attr_off r + SIZEOF_RESIDENT * Z.of_nat (length l) + 8
     <= rec_used r
  /\ rec_used r <= blen r.
Proof.
  intros Hok r l. subst r.
  pose proof (attr_list_chain mi) as Hc. fold l in Hc.
  destruct (record_ok_walk mi Hok) as (Hw & Hend & Hub). fold l in Hw.
  destruct Hok as (Hst & _).
  pose proof (enum_start_first _ _ _ _ Hst) as (_ & _ & _ & Ho & _).
  pose proof (walk_bounds _ _ _ _ _ Hw) as (_ & _ & Hin).
  pose proof (walk_count _ _ _ _ _ Hw) as Hcount.
  split; [|split; [lia|split; [|split; [|split; [lia|exact Hub]]]]].
  - pose proof (enum_chain_last mi None l Hc) as H.
    now destruct (last_attr l).
  - intros a Ha. specialize (Hin a Ha). lia.
  - intros l1 a b l2 El.
    pose proof (enum_chain_consecutive mi None l Hc l1 a b l2 El) as E.
    split; [exact E|].
    pose proof (mi_enum_attr_position mi (Some a) b E) as Hb.
    cbn [current_attr] in Hb. split; [exact Hb|].
    rewrite El in Hw. apply walk_app_inv in Hw.
    destruct Hw as (m & _ & Hw).
    inversion Hw as [|p l' q' Hacc _ _]; subst.
    apply enum_check_size in Hacc. lia.
Qed.

Lemma attr_list_layout_witness :
  let mi := sample_mi 1024 30 record_ids_0134 in
  let r := mrec_bytes mi in
  record_ok mi
  /\ attr_list mi = [0x38; 0x50; 0x68; 0x80]
  /\ mi_enum_attr mi (Some 0x80) = None
  /\ mi_enum_attr mi (Some 0x50) = Some 0x68
  /\ 0x68 = 0x50 + attr_size r 0x50
  /\ 0x80 + attr_size r 0x80 + 8 <= rec_used r.
Proof.
  intros mi r.
  assert (Hl : attr_list mi = [0x38; 0x50; 0x68; 0x80])
    by (vm_compute; reflexivity).
  assert (Hok : record_ok mi) by sample_record_ok Hl.
  destruct (attr_list_layout mi Hok) as (Hlast & _ & Hin & Hnext & _).
  fold r in Hin, Hnext.
  split; [exact Hok|]. split; [exact Hl|].
  split; [rewrite Hl in Hlast; exact Hlast|].
  destruct (Hnext [0x38] 0x50 0x68 [0x80] Hl) as (E & Hb & _).
  split; [exact E|]. split; [exact Hb|].
  apply Hin. rewrite Hl. cbn [In]. tauto.
Defined.

(** ** The attribute list after mi_remove_attr *)

(** The walk through the record after [mi_remove_attr]. *)
Lemma mi_remove_attr_list (mi : mft_inode) (attr : Z)
    (pre post : list Z) :
  let r := mrec_bytes mi in
  let asize := attr_size r attr in
  attr_list mi = pre ++ attr :: post ->
  attrs_fit mi -> ends_properly mi ->
  rec_total r <= blen r -> blen r < 2 ^ 31 ->
  let res := mi_remove_attr mi attr in
  let r' := mrec_bytes (snd res) in
  fst res = true
  /\ attr_list (snd res) = pre ++ map (fun b => b - asize) post
  /\ (forall a j, In a pre -> 0 <= j < attr_size r a ->
        getb r' (a + j) = getb r (a + j))
  /\ (forall b j, In b post -> 0 <= j < attr_size r b ->
        getb r' (b - asize + j) = getb r (b + j))
  /\ attrs_fit (snd res)
  /\ ends_properly (snd res)
  /\ attr_end (snd res) = attr_end mi - asize
  /\ (attr_end mi + 8 <= rec_used r ->
      attr_type r' (attr_end (snd res)) = attr_type r (attr_end mi))
  /\ MFTRECORD_FIXUP_OFFSET_1 <= attr
  /\ attr + asize <= attr_end mi <= rec_used r
  /\ SIZEOF_RESIDENT <= asize
  /\ attr_in_record mi attr
  /\ enum_start r' (rec_used r') None
     = if rec_attr_off r >=? rec_used r' then None
       else Some (rec_attr_off r', rec_attr_off r').
Proof.
  intros r asize Hl Hfits Hend Htb Hb res r'.
  set (used := rec_used r). set (o := rec_attr_off r).
  pose proof (attr_list_chain mi) as Hc. rewrite Hl in Hc.
  assert (Hne : pre ++ attr :: post <> []) by (now destruct pre).
  pose proof (chain_start_ok mi _ Hc Hne) as Hst. fold r used o in Hst.
  assert (Hall : forall x, In x (pre ++ attr :: post) ->
                   x + attr_size r x <= used)
    by (intros x Hx; apply Hfits; now rewrite Hl).
  destruct (chain_walk_start mi _ Hc Hall Hst) as (q & Hw & Hq).
  fold r used o in Hw, Hq.
  pose proof (enum_start_first _ _ _ _ Hst) as (_ & _ & Hou & Ho & Hut).
  unfold MFTRECORD_FIXUP_OFFSET_1 in Ho.
  (* the end of the walk is where the enumeration stops *)
  assert (Hqe : q = attr_end mi).
  { rewrite (walk_last _ _ _ _ _ Hw None eq_refl).
    rewrite last_attr_or_none. unfold attr_end. now rewrite Hl. }
  unfold ends_properly in Hend. rewrite <- Hqe in Hend.
  fold r used in Hend.
  (* the three parts of the walk *)
  destruct (walk_app_inv _ _ _ _ _ _ Hw) as (m & Hw1 & Hw2).
  inversion Hw2 as [|p' l' q' Hacc Hfit Hw3]; subst p' l' q' m.
  fold asize in Hfit, Hw3.
  pose proof (enum_check_size _ _ _ _ _ Hacc) as Hsz. fold asize in Hsz.
  unfold SIZEOF_RESIDENT in Hsz.
  pose proof (walk_bounds _ _ _ _ _ Hw1) as (Hoa & _ & Hpre).
  pose proof (walk_bounds _ _ _ _ _ Hw3) as (Haq & _ & Hpost).
  pose proof (walk_bounds _ _ _ _ _ Hw2) as (_ & Hqu & _).
  specialize (Hqu ltac:(discriminate)).
  (* the removal *)
  assert (Hwf : attr_in_record mi attr).
  { unfold attr_in_record, MFTRECORD_FIXUP_OFFSET_1.
    fold r. fold used asize. repeat split; lia. }
  pose proof (mi_remove_attr_bytes mi attr Hwf)
    as (Hok & Hused' & Hdown & Hfront & _ & Htot & Hlen & _).
  cbv zeta in Hused', Hdown, Hfront, Htot, Hlen.
  fold r res in Hok, Hused', Hdown, Hfront, Htot, Hlen.
  fold r' used asize in Hused', Hdown, Hfront, Htot, Hlen.
  set (mi' := snd res). fold mi' in r'.
  set (used' := rec_used r') in *.
  assert (Ho' : rec_attr_off r' = o).
  { unfold rec_attr_off, o, rec_attr_off. apply get_le_ext. intros j Hj.
    apply Hfront; unfold OFF_attr_off, OFF_used; lia. }
  assert (Hi' : is_rec_inuse r' = is_rec_inuse r).
  { unfold is_rec_inuse, rec_flags. f_equal. f_equal. f_equal.
    apply get_le_ext. intros j Hj.
    apply Hfront; unfold OFF_flags, OFF_used; lia. }
  pose proof (enum_start_header r r' used used' Htot Ho' Hi' Hst
                ltac:(lia)) as Hst'. fold o in Hst'.
  (* the walk through the new record *)
  assert (Hw1' : attr_walk r' used' o pre attr).
  { pose proof (walk_transfer r r' used used' 0 o pre attr Hw1) as T.
    rewrite map_add_0, !Z.add_0_r in T. apply T; try lia.
    intros i Hi. rewrite Z.add_0_r.
    apply Hfront; unfold OFF_used; lia. }
  assert (Hw3' : attr_walk r' used' attr
                   (map (fun b => b - asize) post) (q - asize)).
  { pose proof (walk_transfer r r' used used' (- asize) (attr + asize)
                  post q Hw3) as T.
    replace (attr + asize + - asize) with attr in T by lia.
    replace (q + - asize) with (q - asize) in T by lia.
    rewrite (map_ext (fun b => b - asize) (fun a => a + - asize))
      by (intros; lia).
    apply T; try lia.
    intros i Hi. rewrite Hdown by lia. f_equal. lia. }
  pose proof (walk_app _ _ _ _ _ _ _ Hw1' Hw3') as Hw'.
  assert (Hwin : forall j, 0 <= j < used - q ->
                   getb r' (q - asize + j) = getb r (q + j)).
  { intros j Hj. rewrite Hdown by lia. f_equal. lia. }
  assert (Hq' : enum_check r' used' (q - asize) (u32 (q - asize)) = None).
  { apply (enum_check_end_shift r r' used used' q (q - asize));
      try assumption; lia. }
  assert (Hc' : enum_chain mi' None (pre ++ map (fun b => b - asize) post)).
  { destruct (Z.geb_spec o used') as [Hge|Hlt].
    - destruct (pre ++ map (fun b => b - asize) post) as [|x L] eqn:EL.
      + apply chain_end. unfold mi_enum_attr. fold r'. fold used'.
        now rewrite Hst'.
      + exfalso. inversion Hw' as [|p' l' q' Hacc' Hfit' _]; subst.
        pose proof (enum_check_size _ _ _ _ _ Hacc') as Hs'.
        unfold SIZEOF_RESIDENT in Hs'. lia.
    - apply (walk_chain_start mi' _ (q - asize)); fold r'; fold used';
        rewrite ?Ho'; assumption. }
  assert (Hl' : attr_list mi' = pre ++ map (fun b => b - asize) post).
  { apply (enum_chain_unique mi' None); [apply attr_list_chain|exact Hc']. }
  assert (Hqe' : attr_end mi' = q - asize).
  { unfold attr_end. fold r'. rewrite Hl'.
    rewrite (walk_last _ _ _ _ _ Hw' None Ho').
    now rewrite last_attr_or_none. }
  assert (Hty : q + 8 <= used -> attr_type r' (q - asize) = attr_type r q).
  { intros H8. unfold attr_type, OFF_type.
    apply (get_le_window 4 _ _ _ _ _ _ Hwin); lia. }
  split; [exact Hok|]. split; [exact Hl'|].
  split; [|split; [|split; [|split; [|split; [|split; [|split;
    [|split; [|split; [|split]]]]]]]]].
  - intros a j Ha Hj. apply Hpre in Ha.
    apply Hfront; unfold OFF_used; lia.
  - intros b j Hb' Hj. apply Hpost in Hb'.
    rewrite Hdown by lia. f_equal. lia.
  - unfold attrs_fit. fold r'. fold used'. rewrite Hl'. intros a Ha.
    pose proof (walk_bounds _ _ _ _ _ Hw') as (_ & Hq'u & Hin).
    apply Hin in Ha. lia.
  - unfold ends_properly. fold r'. fold used'.
    rewrite Hqe'.
    destruct (Z_lt_ge_dec used' (q - asize + 8)) as [Hlt|Hge];
      [now left|right].
    destruct Hend as [Hend|Hend]; [lia|]. rewrite <- Hend.
    apply Hty. lia.
  - rewrite Hqe'. now rewrite <- Hqe.
  - rewrite Hqe', <- Hqe. exact Hty.
  - unfold MFTRECORD_FIXUP_OFFSET_1. lia.
  - rewrite <- Hqe. lia.
  - unfold SIZEOF_RESIDENT. exact Hsz.
  - exact Hwf.
  - rewrite Ho'. exact Hst'.
Qed.


Lemma ends_at_marker_properly mi : ends_at_marker mi -> ends_properly mi.
Proof. intros [H _]. now right. Qed.

(** [mi_remove_attr] keeps a well-formed record well-formed. *)
Lemma mi_remove_attr_ok (mi : mft_inode) (attr : Z) (pre post : list Z) :
  let r := mrec_bytes mi in
  let asize := attr_size r attr in
  record_ok mi ->
  attr_list mi = pre ++ attr :: post ->
  let res := mi_remove_attr mi attr in
  let r' := mrec_bytes (snd res) in
  fst res = true
  /\ attr_list (snd res) = pre ++ map (fun b => b - asize) post
  /\ (forall a j, In a pre -> 0 <= j < attr_size r a ->
        getb r' (a + j) = getb r (a + j))
  /\ (forall b j, In b post -> 0 <= j < attr_size r b ->
        getb r' (b - asize + j) = getb r (b + j))
  /\ rec_used r' = rec_used r - asize
  /\ record_ok (snd res).
Proof.
  intros r asize (Hst & Hfit & Hmark & Hrs & Htb & Hb) Hl res r'.
  fold r in Hst, Hrs, Htb, Hb.
  pose proof (mi_remove_attr_list mi attr pre post Hl Hfit
                (ends_at_marker_properly mi Hmark) Htb Hb)
    as (H1 & H2 & H3 & H4 & H5 & H6 & H7 & H8 & H9 & H10 & H11 & H12 & H13).
  cbv zeta in H3, H4, H7, H8, H10, H13.
  fold r res in H1, H2, H3, H4, H5, H6, H7, H8, H10, H11, H13.
  fold r' asize in H2, H3, H4, H7, H8, H10, H11, H13.
  destruct Hmark as [Hm1 Hm2]. fold r in Hm1, Hm2.
  pose proof (mi_remove_attr_bytes mi attr H12)
    as (_ & Hused' & _ & _ & _ & Htot & Hlen & _).
  cbv zeta in Hused', Htot, Hlen.
  fold r res in Hused', Htot, Hlen. fold r' asize in Hused', Htot, Hlen.
  pose proof (enum_start_first _ _ _ _ Hst) as (_ & _ & _ & Ho & _).
  assert (Hoa : rec_attr_off r <= attr).
  { pose proof (attr_list_chain mi) as Hc. rewrite Hl in Hc.
    destruct pre as [|x pre'].
    - cbn [app] in Hc. inversion Hc as [|s y l E _]; subst.
      apply mi_enum_attr_first in E. fold r in E. lia.
    - cbn [app] in Hc. inversion Hc as [|s y l E Hc']; subst.
      apply mi_enum_attr_first in E. fold r in E.
      pose proof (enum_chain_count mi _ _ Hc') as _.
      assert (In attr (pre' ++ attr :: post))
        by (apply in_or_app; right; now left).
      assert (Hpos : forall s l, enum_chain mi s l ->
                forall p, s = Some p -> forall a, In a l -> p <= a).
      { clear. induction 1 as [s E|s y l E _ IH]; intros p -> a Ha;
          [destruct Ha|].
        apply mi_enum_attr_bounds in E. destruct E as [_ E].
        specialize (E p eq_refl). unfold SIZEOF_RESIDENT in E.
        destruct Ha as [<-|Ha]; [lia|].
        specialize (IH y eq_refl a Ha). lia. }
      specialize (Hpos _ _ Hc' x eq_refl attr H). lia. }
  split; [exact H1|]. split; [exact H2|]. split; [exact H3|].
  split; [exact H4|]. split; [exact Hused'|].
  unfold record_ok. fold res. fold r'.
  unfold SIZEOF_RESIDENT, MFTRECORD_FIXUP_OFFSET_1 in *.
  split; [|split; [exact H5|split; [|split; [|split]]]].
  - rewrite H13. destruct (Z.geb_spec (rec_attr_off r) (rec_used r'));
      [lia|reflexivity].
  - unfold ends_at_marker. fold res. fold r'. rewrite H7. split.
    + rewrite <- H7. rewrite H8 by lia. exact Hm1.
    + lia.
  - rewrite Htot. rewrite Hrs. subst res. unfold mi_remove_attr.
    destruct (_ >? _); reflexivity.
  - unfold blen in *. rewrite Htot, Hlen. exact Htb.
  - unfold blen in *. rewrite Hlen. exact Hb.
Qed.

(** X9.  Removing an attribute of the list removes it from the list and
    nothing else.  On a well-formed record [mi_remove_attr] succeeds for
    every attribute that [mi_enum_attr] yields; afterwards the
    enumeration yields the attributes in front of it where they were and
    the attributes behind it moved down by its size, each with the bytes
    it had; and the record is well-formed again. *)
Theorem mi_remove_attr_enum (mi : mft_inode) (attr : Z)
    (pre post : list Z) :
  let r := mrec_bytes mi in
  let asize := attr_size r attr in
  record_ok mi ->
  attr_list mi = pre ++ attr :: post ->
  let res := mi_remove_attr mi attr in
  let r' := mrec_bytes (snd res) in
  fst res = true
  /\ attr_list (snd res) = pre ++ map (fun b => b - asize) post
  /\ (forall a j, In a pre -> 0 <= j < attr_size r a ->
        getb r' (a + j) = getb r (a + j))
  /\ (forall b j, In b post -> 0 <= j < attr_size r b ->
        getb r' (b - asize + j) = getb r (b + j))
  /\ rec_used r' = rec_used r - asize
  /\ record_ok (snd res).
Proof.
  intros r asize Hok Hl res r'.
  apply (mi_remove_attr_ok mi attr pre post Hok Hl).
Qed.

(** Removing the second of the four attributes of [record_ids_0134]. *)
Lemma mi_remove_attr_enum_witness :
  let mi := sample_mi 1024 30 record_ids_0134 in
  attr_list mi = [0x38; 0x50; 0x68; 0x80]
  /\ fst (mi_remove_attr mi 0x50) = true
  /\ attr_list (snd (mi_remove_attr mi 0x50)) = [0x38; 0x50; 0x68].
Proof.
  intros mi.
  assert (Hl : attr_list mi = [0x38] ++ 0x50 :: [0x68; 0x80])
    by (vm_compute; reflexivity).
  split; [exact Hl|].
  assert (Hwf : record_ok mi).
  { unfold record_ok. split; [vm_compute; reflexivity|]. split.
    - intros a Ha. rewrite Hl in Ha. cbn [app In] in Ha.
      destruct Ha as [<-|[<-|[<-|[<-|[]]]]]; vm_compute; discriminate.
    - split; [split|split; [|split]];
        vm_compute; first [reflexivity|discriminate]. }
  destruct (mi_remove_attr_enum mi 0x50 [0x38] [0x68; 0x80] Hwf Hl)
    as (Hok & Hl' & _).
  split; [exact Hok|]. rewrite Hl'. vm_compute. reflexivity.
Defined.

(** ** What the enumeration reads of a record *)

Lemma enum_check_ext r r' used p off :
  (forall i, p <= i -> getb r' i = getb r i) ->
  enum_check r' used p off = enum_check r used p off.
Proof.
  intros H.
  assert (Hf : forall k o, 0 <= o -> get_le k r' (p + o) = get_le k r (p + o)).
  { intros k o Ho. apply get_le_ext. intros j Hj. apply H. lia. }
  rewrite (enum_check_fields r r' used used p p off off);
    try (apply Hf; discriminate); try reflexivity.
  - destruct (enum_check r used p off) as [a|] eqn:E; [|reflexivity].
    apply enum_check_inv in E. now destruct E as [-> _].
  - intros _. split; apply Hf; discriminate.
Qed.

(** [mi_enum_attr] reads [used], [total], [attr_off] and the in-use flag
    of the header, and bytes from [MFTRECORD_FIXUP_OFFSET_1] on. *)
Lemma mi_enum_attr_ext mi mi' s :
  let r := mrec_bytes mi in
  let r' := mrec_bytes mi' in
  rec_used r' = rec_used r ->
  rec_total r' = rec_total r ->
  rec_attr_off r' = rec_attr_off r ->
  is_rec_inuse r' = is_rec_inuse r ->
  (forall i, MFTRECORD_FIXUP_OFFSET_1 <= i -> getb r' i = getb r i) ->
  match s with
  | Some a => MFTRECORD_FIXUP_OFFSET_1 <= a
  | None => True
  end ->
  mi_enum_attr mi' s = mi_enum_attr mi s.
Proof.
  intros r r' Eu Et Eo Ei Hb Hs. unfold mi_enum_attr. fold r r'.
  rewrite Eu. unfold MFTRECORD_FIXUP_OFFSET_1 in *.
  destruct s as [a|].
  - assert (Es : attr_size r' a = attr_size r a).
    { unfold attr_size, OFF_size. apply get_le_ext. intros j Hj.
      apply Hb. lia. }
    unfold enum_start. rewrite Es.
    destruct (u32 a >=? rec_used r); [reflexivity|].
    destruct (attr_size r a <? SIZEOF_RESIDENT); [reflexivity|].
    apply enum_check_ext. intros i Hi. apply Hb.
    pose proof (attr_size_range r a). lia.
  - destruct (enum_start r (rec_used r) None) as [[o off]|] eqn:E.
    + pose proof (enum_start_first _ _ _ _ E) as (-> & -> & _ & Ho & _).
      unfold MFTRECORD_FIXUP_OFFSET_1 in Ho.
      replace (enum_start r' (rec_used r) None)
        with (Some (rec_attr_off r, rec_attr_off r)).
      * apply enum_check_ext. intros i Hi. apply Hb. lia.
      * rewrite <- E. unfold enum_start. now rewrite Et, Eo, Ei.
    + replace (enum_start r' (rec_used r) None) with (@None (Z * Z));
        [reflexivity|].
      rewrite <- E. unfold enum_start. now rewrite Et, Eo, Ei.
Qed.

Lemma enum_list_ext mi mi' :
  let r := mrec_bytes mi in
  let r' := mrec_bytes mi' in
  rec_used r' = rec_used r ->
  rec_total r' = rec_total r ->
  rec_attr_off r' = rec_attr_off r ->
  is_rec_inuse r' = is_rec_inuse r ->
  (forall i, MFTRECORD_FIXUP_OFFSET_1 <= i -> getb r' i = getb r i) ->
  forall fuel s,
    match s with
    | Some a => MFTRECORD_FIXUP_OFFSET_1 <= a
    | None => True
    end ->
    enum_list fuel mi' s = enum_list fuel mi s.
Proof.
  intros r r' Eu Et Eo Ei Hb.
  induction fuel as [|fuel IH]; intros s Hs; [reflexivity|].
  cbn [enum_list].
  rewrite (mi_enum_attr_ext mi mi' s Eu Et Eo Ei Hb Hs).
  destruct (mi_enum_attr mi s) as [a|] eqn:E; [|reflexivity].
  f_equal. apply IH. destruct s as [p|].
  - apply mi_enum_attr_bounds in E. destruct E as [_ E].
    specialize (E p eq_refl). unfold SIZEOF_RESIDENT in E. lia.
  - apply mi_enum_attr_first in E. tauto.
Qed.

(** The record after [mi_new_attt_id]: only the [next_attr_id] field can
    have changed. *)
Lemma mi_new_attt_id_bytes mi :
  let r := mrec_bytes mi in
  let r1 := mrec_bytes (snd (mi_new_attt_id mi)) in
  length r1 = length r
  /\ forall i, ~ OFF_next_attr_id <= i < OFF_next_attr_id + 2 ->
       getb r1 i = getb r i.
Proof.
  intros r r1. subst r1. unfold mi_new_attt_id. fold r.
  assert (Hset : forall v,
             length (set_rec_next_attr_id r v) = length r
             /\ forall i, ~ OFF_next_attr_id <= i < OFF_next_attr_id + 2 ->
                  getb (set_rec_next_attr_id r v) i = getb r i).
  { intros v. unfold set_rec_next_attr_id. split; [apply length_set_le|].
    intros i Hi. rewrite getb_set_le. change (Z.of_nat 2) with 2.
    range_is_false. reflexivity. }
  destruct (rec_next_attr_id r <? 0x7FFF).
  - cbn [snd]. rewrite mrec_bytes_with_mrec. apply Hset.
  - destruct (new_attt_id_loop _ mi None 0 0) as [[free_id max_id]|].
    + cbn [snd]. rewrite mrec_bytes_with_dirty, mrec_bytes_with_mrec.
      apply Hset.
    + cbn [snd]. fold r. split; reflexivity.
Qed.

Lemma header_field_ext k r r' off :
  (forall i, ~ OFF_next_attr_id <= i < OFF_next_attr_id + 2 ->
             getb r' i = getb r i) ->
  off + Z.of_nat k <= OFF_next_attr_id ->
  get_le k r' off = get_le k r off.
Proof.
  intros H Ho. apply get_le_ext. intros j Hj. apply H. lia.
Qed.

(** X10.  Taking a new attribute id leaves the attributes alone:
    [mi_new_attt_id] changes no byte of the record outside the
    [next_attr_id] field of the header, so [used] and [total], the list
    that [mi_enum_attr] yields and the ids of the attributes are what
    they were. *)
Theorem mi_new_attt_id_keeps_attrs (mi : mft_inode) :
  let r := mrec_bytes mi in
  let mi1 := snd (mi_new_attt_id mi) in
  let r1 := mrec_bytes mi1 in
  length r1 = length r
  /\ (forall i, ~ OFF_next_attr_id <= i < OFF_next_attr_id + 2 ->
        getb r1 i = getb r i)
  /\ rec_used r1 = rec_used r
  /\ rec_total r1 = rec_total r
  /\ attr_list mi1 = attr_list mi
  /\ attr_ids mi1 = attr_ids mi
  /\ sbi mi1 = sbi mi.
Proof.
  intros r mi1 r1.
  pose proof (mi_new_attt_id_bytes mi) as (Hlen & Hb).
  fold r mi1 in Hlen, Hb. fold r1 in Hlen, Hb.
  assert (Eu : rec_used r1 = rec_used r)
    by (apply header_field_ext; [exact Hb|discriminate]).
  assert (Et : rec_total r1 = rec_total r)
    by (apply header_field_ext; [exact Hb|discriminate]).
  assert (Eo : rec_attr_off r1 = rec_attr_off r)
    by (apply header_field_ext; [exact Hb|discriminate]).
  assert (Ei : is_rec_inuse r1 = is_rec_inuse r).
  { unfold is_rec_inuse, rec_flags.
    rewrite (header_field_ext 2 r r1 OFF_flags Hb); [reflexivity|].
    discriminate. }
  assert (Hhi : forall i, MFTRECORD_FIXUP_OFFSET_1 <= i ->
                  getb r1 i = getb r i).
  { intros i Hi. apply Hb.
    unfold MFTRECORD_FIXUP_OFFSET_1, OFF_next_attr_id in *. lia. }
  assert (El : attr_list mi1 = attr_list mi).
  { unfold attr_list, enum_fuel. fold r1 r. rewrite Hlen.
    apply (enum_list_ext mi mi1 Eu Et Eo Ei Hhi). exact I. }
  repeat split; try assumption.
  - unfold attr_ids. fold r1 r. rewrite El. apply map_ext_in.
    intros a Ha. unfold attr_id. apply get_le_ext. intros j Hj.
    apply Hhi.
    pose proof (enum_chain_behind_header mi None _ (attr_list_chain mi) I
                  a Ha) as H0.
    unfold MFTRECORD_FIXUP_OFFSET_1, OFF_id in *. lia.
  - subst mi1. unfold mi_new_attt_id.
    destruct (_ <? 0x7FFF); [reflexivity|].
    destruct (new_attt_id_loop _ mi None 0 0) as [[f m]|]; reflexivity.
Qed.

(** ** mi_insert_attr: where the new attribute goes *)

Section InsertPosition.

Context {C : Collaborators}.

(** The scan of [mi_insert_attr] passes the attributes that compare below
    the new one and stops at the first one that does not; there it
    rejects the insertion when the two compare equal and the attribute
    is not indexed. *)
Lemma insert_scan_split mi ty name nl : forall s l,
  enum_chain mi s l ->
  forall fuel, (length l < fuel)%nat ->
  exists pre post,
    l = pre ++ post
    /\ (forall a, In a pre -> compare_attr (mrec_bytes mi) a ty name nl < 0)
    /\ match post with
       | [] => insert_scan fuel mi s ty name nl = Some ScanEnd
       | b :: _ =>
           0 <= compare_attr (mrec_bytes mi) b ty name nl
           /\ insert_scan fuel mi s ty name nl
              = Some (if (compare_attr (mrec_bytes mi) b ty name nl =? 0)
                         && negb (is_attr_indexed (mrec_bytes mi) b)
                      then ScanReject else ScanAt b)
       end.
Proof.
  induction 1 as [s E|s a l E _ IH]; intros fuel Hf;
    (destruct fuel as [|fuel]; [simpl in Hf; lia|]); cbn [insert_scan];
    rewrite E.
  - exists [], []. repeat split. intros a [].
  - cbv zeta.
    destruct (Z.gtb_spec (compare_attr (mrec_bytes mi) a ty name nl) 0)
      as [Hgt|Hle].
    { exists [], (a :: l). split; [reflexivity|]. split; [intros x []|].
      split; [lia|].
      destruct (Z.eqb_spec (compare_attr (mrec_bytes mi) a ty name nl) 0);
        [lia|reflexivity]. }
    destruct (Z.ltb_spec (compare_attr (mrec_bytes mi) a ty name nl) 0)
      as [Hlt|Hge].
    { destruct (IH fuel ltac:(simpl in Hf; lia))
        as (pre & post & -> & Hpre & Hpost).
      exists (a :: pre), post. split; [reflexivity|]. split; [|exact Hpost].
      intros x [<-|Hx]; [exact Hlt|now apply Hpre]. }
    exists [], (a :: l). split; [reflexivity|]. split; [intros x []|].
    split; [lia|].
    destruct (Z.eqb_spec (compare_attr (mrec_bytes mi) a ty name nl) 0);
      [|lia].
    cbn [andb]. destruct (negb _); reflexivity.
Qed.

(** The insertion point and the two ways to fail. *)
Lemma mi_insert_attr_where (mi : mft_inode) (ty : Z)
    (name : list byte) (nl asize name_off : Z) :
  let r := mrec_bytes mi in
  let used := rec_used r in
  let res := mi_insert_attr mi ty name nl asize name_off in
  exists pre post,
    attr_list mi = pre ++ post
    /\ (forall a, In a pre -> compare_attr r a ty name nl < 0)
    /\ (forall b post', post = b :: post' ->
          0 <= compare_attr r b ty name nl)
    /\ (fst res = None <->
        u32 (used + asize) > record_size (sbi mi)
        \/ exists b post', post = b :: post'
             /\ compare_attr r b ty name nl = 0
             /\ is_attr_indexed r b = false)
    /\ (forall attr, fst res = Some attr ->
          attr = match post with
                 | b :: _ => b
                 | [] => u32 (used - 8)
                 end).
Proof.
  intros r used res.
  pose proof (attr_list_chain mi) as Hc.
  destruct (insert_scan_split mi ty name nl None _ Hc (enum_fuel mi)
              (enum_chain_fuel _ _ _ Hc))
    as (pre & post & Hl & Hpre & Hpost).
  fold r in Hpre, Hpost.
  exists pre, post. split; [exact Hl|]. split; [exact Hpre|].
  split. { intros b post' ->. tauto. }
  subst res. unfold mi_insert_attr. fold r. fold used.
  destruct (Z.gtb_spec (u32 (used + asize)) (record_size (sbi mi)))
    as [Hgt|Hle].
  { cbn [fst]. split; [split; [intros _; left; lia|reflexivity]|discriminate]. }
  destruct post as [|b post'].
  - rewrite Hpost. destruct (mi_new_attt_id mi) as [id mi1]. cbn [fst].
    split.
    + split; [discriminate|]. intros [H|(b & p & H & _)]; [lia|discriminate].
    + intros attr H. now inversion H.
  - destruct Hpost as [Hge Hscan]. rewrite Hscan.
    destruct (Z.eqb_spec (compare_attr r b ty name nl) 0) as [E0|E0];
      cbn [andb].
    + destruct (is_attr_indexed r b) eqn:Ei; cbn [negb].
      * destruct (mi_new_attt_id mi) as [id mi1]. cbn [fst]. split.
        -- split; [discriminate|].
           intros [H|(b' & p & H & _ & Hi)]; [lia|].
           inversion H; subst. congruence.
        -- intros attr H. now inversion H.
      * cbn [fst]. split; [|discriminate].
        split; [|reflexivity]. intros _. right. now exists b, post'.
    + destruct (mi_new_attt_id mi) as [id mi1]. cbn [fst]. split.
      * split; [discriminate|].
        intros [H|(b' & p & H & Hz & _)]; [lia|].
        inversion H; subst. contradiction.
      * intros attr H. now inversion H.
Qed.

(** X11.  Where [mi_insert_attr] puts the new attribute in a well-formed
    record whose attribute names lie inside the buffer: the attribute list
    splits into the attributes that [compare_attr] puts below the new one
    and the rest; the new attribute goes where the rest begins, or at
    [used - 8], where the end marker is, when there is no rest.  The
    insertion fails exactly when the record has no room (32-bit sum of
    [used] and the size above the record size) or the rest begins with an
    attribute that compares equal and is not indexed. *)
Theorem mi_insert_attr_position (mi : mft_inode) (ty : Z)
    (name : list byte) (nl asize name_off : Z) :
  record_ok mi ->
  names_in_buffer mi ->
  let r := mrec_bytes mi in
  let used := rec_used r in
  let res := mi_insert_attr mi ty name nl asize name_off in
  exists pre post,
    attr_list mi = pre ++ post
    /\ (forall a, In a pre -> compare_attr r a ty name nl < 0)
    /\ (forall b post', post = b :: post' ->
          0 <= compare_attr r b ty name nl)
    /\ (fst res = None <->
        u32 (used + asize) > record_size (sbi mi)
        \/ exists b post', post = b :: post'
             /\ compare_attr r b ty name nl = 0
             /\ is_attr_indexed r b = false)
    /\ (forall attr, fst res = Some attr ->
          attr = match post with
                 | b :: _ => b
                 | [] => used - 8
                 end)
    /\ used - 8 = attr_end mi
    /\ attr_type r (attr_end mi) = ATTR_END.
Proof.
  intros Hok _ r used res.
  destruct (record_ok_walk mi Hok) as (Hw & Hend & _).
  pose proof (walk_bounds _ _ _ _ _ Hw) as (Hle & _).
  pose proof (rec_attr_off_range (mrec_bytes mi)) as Ho.
  pose proof (rec_used_range (mrec_bytes mi)) as Hu.
  fold r in Hend, Hu. fold used in Hend, Hu.
  destruct Hok as (_ & _ & (Hmark & _) & _). fold r in Hmark.
  destruct (mi_insert_attr_where mi ty name nl asize name_off)
    as (pre & post & Hl & Hpre & Hpost & Hnone & Hat).
  exists pre, post. split; [exact Hl|]. split; [exact Hpre|].
  split; [exact Hpost|]. split; [exact Hnone|].
  split; [|split; [lia|exact Hmark]].
  intros attr Hsome. rewrite (Hat attr Hsome).
  destruct post; [|reflexivity]. fold r. fold used. apply u32_small. lia.
Qed.

End InsertPosition.

Lemma mi_insert_attr_position_witness :
  let C := trace_collab no_disk no_packer in
  let mi := sample_mi 1024 30 record_ids_0134 in
  let r := mrec_bytes mi in
  let res := mi_insert_attr (C := C) mi 0x40 [] 0 0x20 0x18 in
  record_ok mi
  /\ names_in_buffer mi
  /\ fst res = Some 0x68
  /\ exists pre post,
       attr_list mi = pre ++ post
       /\ (forall a, In a pre -> compare_attr (C := C) r a 0x40 [] 0 < 0)
       /\ 0x68 = match post with b :: _ => b | [] => rec_used r - 8 end.
Proof.
  intros C mi r res.
  assert (Hl : attr_list mi = [0x38; 0x50; 0x68; 0x80])
    by (vm_compute; reflexivity).
  assert (Hok : record_ok mi) by sample_record_ok Hl.
  assert (Hnm : names_in_buffer mi).
  { intros a Ha. rewrite Hl in Ha. cbn [In] in Ha.
    destruct Ha as [<-|[<-|[<-|[<-|[]]]]]; vm_compute; discriminate. }
  assert (Hsome : fst res = Some 0x68) by (vm_compute; reflexivity).
  destruct (mi_insert_attr_position (C := C) mi 0x40 [] 0 0x20 0x18
              Hok Hnm)
    as (pre & post & Hsplit & Hpre & _ & _ & Hat & _).
  split; [exact Hok|]. split; [exact Hnm|]. split; [exact Hsome|].
  exists pre, post. split; [exact Hsplit|]. split; [exact Hpre|].
  exact (Hat 0x68 Hsome).
Defined.

(** ** mi_insert_attr: the bytes of the record afterwards *)

Lemma get_le_memcpy_skip k b dst src n off :
  n <= 0 \/ off + Z.of_nat k <= dst \/ dst + n <= off ->
  get_le k (memcpy b dst src n) off = get_le k b off.
Proof.
  intros H. apply get_le_ext. intros j Hj. rewrite getb_memcpy.
  replace (in_range dst n (off + j)) with false
    by (symmetry; apply in_range_false; lia).
  reflexivity.
Qed.

Lemma get_le_memset_zero k b dst n off :
  0 <= dst -> dst <= off -> off + Z.of_nat k <= dst + n ->
  dst + n <= blen b ->
  get_le k (memset b dst x00 n) off = 0.
Proof.
  intros H0 H1 H2 H3.
  rewrite (get_le_bytes k _ off 0); [apply Z.mod_0_l; lia|].
  intros j Hj. rewrite getb_memset.
  replace (in_range dst n (off + j)) with true
    by (symmetry; apply in_range_true; lia).
  replace (in_range 0 (blen b) (off + j)) with true
    by (symmetry; apply in_range_true; lia).
  cbn [andb]. rewrite Z.div_0_l by lia. reflexivity.
Qed.

Lemma new_attt_id_loop_range : forall fuel mi s free_id max_id f m,
  new_attt_id_loop fuel mi s free_id max_id = Some (f, m) ->
  0 <= free_id < 2 ^ 16 -> 0 <= f < 2 ^ 16.
Proof.
  induction fuel as [|fuel IH]; intros mi s free_id max_id f m H Hr;
    [discriminate|].
  cbn [new_attt_id_loop] in H.
  destruct (mi_enum_attr mi s) as [a|]; [|inversion H; now subst].
  cbv zeta in H. destruct (_ =? free_id).
  - eapply IH; [exact H|]. apply u16_range.
  - eapply IH; [exact H|exact Hr].
Qed.

Lemma mi_new_attt_id_range mi : 0 <= fst (mi_new_attt_id mi) < 2 ^ 16.
Proof.
  unfold mi_new_attt_id.
  destruct (_ <? 0x7FFF).
  - cbn [fst]. unfold rec_next_attr_id. apply (get_le_range 2).
  - destruct (new_attt_id_loop _ mi None 0 0) as [[f m]|] eqn:E;
      cbn [fst]; [|lia].
    eapply new_attt_id_loop_range; [exact E|lia].
Qed.

Ltac buffer_length :=
  unfold blen in *;
  repeat first [ rewrite length_set_le | rewrite length_memcpy
               | rewrite length_memset | rewrite length_memmove ].

(** One store off the buffer under [getb], its range test decided. *)
Ltac getb_step :=
  first [rewrite getb_set_le | rewrite getb_memcpy
        | rewrite getb_memset | rewrite getb_memmove];
  match goal with
  | |- context [in_range ?lo ?n ?i && in_range 0 ?bl ?i] =>
      first
        [ replace (in_range lo n i) with false
            by (symmetry; apply in_range_false; lia);
          cbn [andb]
        | replace (in_range lo n i) with true
            by (symmetry; apply in_range_true; lia);
          replace (in_range 0 bl i) with true
            by (symmetry; apply in_range_true; buffer_length; lia);
          cbn [andb] ]
  end.

Ltac get_le_peel :=
  repeat first [ rewrite get_le_set_le_other by lia
               | rewrite get_le_memcpy_skip by lia ].

(** The stores of [mi_insert_attr] (behind the call of
    [mi_new_attt_id]), on a record [r1] with room for the attribute. *)
Lemma insert_stores_bytes (r1 : buffer) (attr asize used ty nl no id : Z)
    (name : list byte) :
  let rf :=
    set_rec_used
      (memcpy
         (set_attr_id
            (set_attr_name_off
               (set_attr_name_len
                  (set_attr_size
                     (set_attr_type
                        (memset
                           (memmove r1 (attr + asize) attr (used - attr))
                           attr x00 asize)
                        attr ty)
                     attr asize)
                  attr nl)
               attr no)
            attr id)
         (attr + no) name (nl * 2))
      (u32 (used + asize)) in
  MFTRECORD_FIXUP_OFFSET_1 <= attr -> attr <= used ->
  SIZEOF_RESIDENT <= asize ->
  used + asize <= blen r1 -> blen r1 < 2 ^ 31 ->
  0 <= nl < 2 ^ 8 -> 0 <= no < 2 ^ 16 ->
  (nl = 0 \/ (SIZEOF_RESIDENT <= no /\ no + 2 * nl <= asize)) ->
  0 <= ty < 2 ^ 32 -> 0 <= id < 2 ^ 16 ->
  length rf = length r1
  /\ rec_used rf = used + asize
  /\ (forall i, i < attr -> ~ OFF_used <= i < OFF_used + 4 ->
        getb rf i = getb r1 i)
  /\ (forall i, attr + asize <= i < used + asize ->
        getb rf i = getb r1 (i - asize))
  /\ (forall i, used + asize <= i -> getb rf i = getb r1 i)
  /\ (attr_type rf attr = ty
      /\ attr_size rf attr = asize
      /\ attr_non_res rf attr = 0
      /\ attr_name_len rf attr = nl
      /\ attr_name_off rf attr = no
      /\ attr_flags rf attr = 0
      /\ attr_id rf attr = id
      /\ attr_res_data_size rf attr = 0
      /\ attr_res_data_off rf attr = 0)
  /\ (forall j, 0 <= j < 2 * nl ->
        getb rf (attr + no + j) = getb name j)
  /\ (forall j, OFF_res_data_size <= j < asize ->
        ~ no <= j < no + 2 * nl ->
        getb rf (attr + j) = x00).
Proof.
  intros rf Ha Hau Hs Hroom Hb Hnl Hno Hname Hty Hid.
  unfold MFTRECORD_FIXUP_OFFSET_1, SIZEOF_RESIDENT in *.
  assert (Hlen : length rf = length r1).
  { subst rf. unfold set_rec_used, set_attr_id, set_attr_name_off,
      set_attr_name_len, set_attr_size, set_attr_type.
    now rewrite !length_set_le, length_memcpy, !length_set_le,
      length_memset, length_memmove. }
  subst rf.
  unfold set_rec_used, set_attr_id, set_attr_name_off, set_attr_name_len,
    set_attr_size, set_attr_type in *.
  unfold OFF_used, OFF_id, OFF_name_off, OFF_name_len, OFF_size, OFF_type,
    OFF_res_data_size in *.
  split; [exact Hlen|]. split; [|split; [|split; [|split; [|split;
    [|split]]]]].
  - unfold rec_used, OFF_used.
    rewrite get_le_set_le_same by (buffer_length; lia).
    change (256 ^ Z.of_nat 4) with (2 ^ 32).
    rewrite u32_small by lia. apply Z.mod_small. lia.
  - intros i Hi Hnu. repeat getb_step. reflexivity.
  - intros i Hi. repeat getb_step. f_equal. lia.
  - intros i Hi. repeat getb_step. reflexivity.
  - unfold attr_type, attr_size, attr_non_res, attr_name_len, attr_name_off,
      attr_flags, attr_id, attr_res_data_size, attr_res_data_off.
    unfold OFF_type, OFF_size, OFF_non_res, OFF_name_len, OFF_name_off,
      OFF_aflags, OFF_id, OFF_res_data_size, OFF_res_data_off.
    repeat split; get_le_peel.
    + rewrite get_le_set_le_same by (buffer_length; lia).
      apply Z.mod_small. change (256 ^ Z.of_nat 4) with (2 ^ 32). lia.
    + rewrite get_le_set_le_same by (buffer_length; lia).
      apply Z.mod_small. change (256 ^ Z.of_nat 4) with (2 ^ 32). lia.
    + apply get_le_memset_zero; buffer_length; lia.
    + rewrite get_le_set_le_same by (buffer_length; lia).
      apply Z.mod_small. change (256 ^ Z.of_nat 1) with (2 ^ 8). lia.
    + rewrite get_le_set_le_same by (buffer_length; lia).
      apply Z.mod_small. change (256 ^ Z.of_nat 2) with (2 ^ 16). lia.
    + apply get_le_memset_zero; buffer_length; lia.
    + rewrite get_le_set_le_same by (buffer_length; lia).
      apply Z.mod_small. change (256 ^ Z.of_nat 2) with (2 ^ 16). lia.
    + apply get_le_memset_zero; buffer_length; lia.
    + apply get_le_memset_zero; buffer_length; lia.
  - intros j Hj. repeat getb_step. f_equal. lia.
  - intros j Hj Hnn. repeat getb_step. reflexivity.
Qed.

(** ** The attribute list after mi_insert_attr *)

(** A resident attribute with these fields passes the checks. *)
Lemma enum_check_resident r used p :
  0 <= p -> p + attr_size r p <= used -> used < 2 ^ 32 ->
  Z.land (attr_type r p) 0xf = 0 -> attr_type r p <= 0x100 ->
  attr_non_res r p = 0 ->
  SIZEOF_RESIDENT <= attr_size r p ->
  attr_res_data_off r p + attr_res_data_size r p <= attr_size r p ->
  enum_check r used p (u32 p) = Some p.
Proof.
  intros Hp Hfit Hu Hl Hty Hnr Hs Hd. unfold enum_check.
  pose proof (attr_size_range r p) as Hsr.
  assert (Hdo : 0 <= attr_res_data_off r p)
    by (unfold attr_res_data_off; apply (get_le_range 2)).
  assert (Hds : 0 <= attr_res_data_size r p)
    by (unfold attr_res_data_size; apply (get_le_range 4)).
  unfold SIZEOF_RESIDENT, ATTR_END in *.
  rewrite (u32_small p) by lia. rewrite (u32_small (p + 8)) by lia.
  rewrite (u32_small (p + attr_size r p)) by lia.
  rewrite (u32_small (_ + _)) by lia.
  rewrite Hl, Hnr. cbn [Z.eqb negb orb].
  destruct (Z.gtb_spec (p + 8) used); [lia|].
  destruct (Z.eqb_spec (attr_type r p) 4294967295); [lia|].
  destruct (Z.gtb_spec (attr_type r p) 256); [lia|].
  destruct (Z.gtb_spec (p + attr_size r p) used); [lia|].
  destruct (Z.ltb_spec (attr_size r p) 24); [lia|].
  destruct (Z.gtb_spec (attr_res_data_off r p) (attr_size r p)); [lia|].
  destruct (Z.gtb_spec (attr_res_data_off r p + attr_res_data_size r p)
              (attr_size r p)); [lia|].
  reflexivity.
Qed.

Lemma mi_new_attt_id_sbi mi : sbi (snd (mi_new_attt_id mi)) = sbi mi.
Proof.
  unfold mi_new_attt_id. destruct (_ <? 0x7FFF); [reflexivity|].
  destruct (new_attt_id_loop _ mi None 0 0) as [[f m]|]; reflexivity.
Qed.

Section InsertEnum.

Context {C : Collaborators}.

(** The result of a successful [mi_insert_attr], with the stores spelled
    out. *)
Lemma mi_insert_attr_shape mi ty name nl asize no attr :
  let r := mrec_bytes mi in
  let used := rec_used r in
  let res := mi_insert_attr mi ty name nl asize no in
  let mi1 := snd (mi_new_attt_id mi) in
  fst res = Some attr -> 0 <= attr -> attr + 8 <= used ->
  snd res
  = with_dirty
      (with_mrec mi1
         (set_rec_used
            (memcpy
               (set_attr_id
                  (set_attr_name_off
                     (set_attr_name_len
                        (set_attr_size
                           (set_attr_type
                              (memset
                                 (memmove (mrec_bytes mi1) (attr + asize)
                                    attr (used - attr))
                                 attr x00 asize)
                              attr ty)
                           attr asize)
                        attr nl)
                     attr no)
                  attr (fst (mi_new_attt_id mi)))
               (attr + no) name (nl * 2))
            (u32 (used + asize))))
      true.
Proof.
  intros r used res mi1. subst res mi1. unfold mi_insert_attr.
  fold r. fold used.
  pose proof (rec_used_range r) as Hu. fold used in Hu.
  destruct (_ >? record_size (sbi mi)); [discriminate|].
  destruct (insert_scan _ mi None ty name nl) as [[|a|]|];
    try discriminate; destruct (mi_new_attt_id mi) as [id mi1];
    cbn [fst snd]; intros Hsome Ha Hau; inversion Hsome as [Hattr].
  - destruct (Z_lt_ge_dec used 8) as [Hlt|Hge].
    + exfalso. unfold u32 in Hattr.
      replace (used - 8) with (used - 8 + 2 ^ 32 + (-1) * 2 ^ 32)
        in Hattr by lia.
      rewrite Z.mod_add in Hattr by lia.
      rewrite Z.mod_small in Hattr by lia. lia.
    + rewrite (u32_small (used - 8)) in * by lia. subst attr.
      replace (used - (used - 8)) with 8 by lia. reflexivity.
  - subst a. unfold size_t. rewrite (u64_small attr) by lia.
    rewrite (u64_small (used - attr)) by lia. reflexivity.
Qed.

(** [mi_insert_attr] on a well-formed record. *)
Lemma mi_insert_attr_ok mi ty name nl asize no attr :
  let r := mrec_bytes mi in
  let used := rec_used r in
  let res := mi_insert_attr mi ty name nl asize no in
  let r' := mrec_bytes (snd res) in
  record_ok mi ->
  fst res = Some attr ->
  Z.land ty 0xf = 0 -> 0 <= ty <= 0x100 ->
  SIZEOF_RESIDENT <= asize ->
  used + asize <= record_size (sbi mi) ->
  0 <= nl < 2 ^ 8 -> 0 <= no < 2 ^ 16 ->
  (nl = 0 \/ (SIZEOF_RESIDENT <= no /\ no + 2 * nl <= asize)) ->
  exists pre post,
    attr_list mi = pre ++ post
    /\ (forall a, In a pre -> compare_attr r a ty name nl < 0)
    /\ (forall b post', post = b :: post' ->
          0 <= compare_attr r b ty name nl)
    /\ attr = match post with
              | b :: _ => b
              | [] => used - 8
              end
    /\ attr_list (snd res) = pre ++ attr :: map (fun b => b + asize) post
    /\ (attr_type r' attr = ty
        /\ attr_size r' attr = asize
        /\ attr_non_res r' attr = 0
        /\ attr_name_len r' attr = nl
        /\ attr_name_off r' attr = no
        /\ attr_flags r' attr = 0
        /\ attr_id r' attr = fst (mi_new_attt_id mi)
        /\ attr_res_data_size r' attr = 0
        /\ attr_res_data_off r' attr = 0)
    /\ (forall j, 0 <= j < 2 * nl ->
          getb r' (attr + no + j) = getb name j)
    /\ (forall j, OFF_res_data_size <= j < asize ->
          ~ no <= j < no + 2 * nl -> getb r' (attr + j) = x00)
    /\ (forall a j, In a pre -> 0 <= j < attr_size r a ->
          getb r' (a + j) = getb r (a + j))
    /\ (forall b j, In b post -> 0 <= j < attr_size r b ->
          getb r' (b + asize + j) = getb r (b + j))
    /\ (forall i, MFTRECORD_FIXUP_OFFSET_1 <= i < attr ->
          getb r' i = getb r i)
    /\ (forall i, attr <= i < used -> getb r' (i + asize) = getb r i)
    /\ rec_used r' = used + asize
    /\ dirty (snd res) = true
    /\ record_ok (snd res)
    /\ rec_next_attr_id r'
       = rec_next_attr_id (mrec_bytes (snd (mi_new_attt_id mi))).
Proof.
  intros r used res r' (Hst & Hfit & (Hm1 & Hm2) & Hrs & Htb & Hb)
    Hsome Hland Hty Hs Hroom Hnl Hno Hname.
  fold r in Hst, Hm1, Hm2, Hrs, Htb, Hb. fold used in Hst, Hm2.
  set (o := rec_attr_off r) in *.
  pose proof (enum_start_first _ _ _ _ Hst) as (_ & _ & Hou & Ho & Hut).
  unfold MFTRECORD_FIXUP_OFFSET_1, SIZEOF_RESIDENT in *.
  (* the walk through the old record *)
  pose proof (attr_list_chain mi) as Hc.
  destruct (chain_walk_start mi _ Hc Hfit Hst) as (q & Hw & Hq).
  fold r used o in Hw, Hq.
  assert (Hqe : q = attr_end mi).
  { rewrite (walk_last _ _ _ _ _ Hw None eq_refl).
    now rewrite last_attr_or_none. }
  rewrite <- Hqe in Hm1, Hm2.
  (* the insertion point *)
  destruct (mi_insert_attr_where mi ty name nl asize no)
    as (pre & post & Hl & Hpre & Hpost & _ & Hat).
  fold r used res in Hpre, Hpost, Hat.
  specialize (Hat attr Hsome).
  rewrite Hl in Hw.
  destruct (walk_app_inv _ _ _ _ _ _ Hw) as (m & Hw1 & Hw3).
  pose proof (walk_bounds _ _ _ _ _ Hw1) as (Hom & _ & Hinpre).
  pose proof (walk_bounds _ _ _ _ _ Hw3) as (Hmq & _ & Hinpost).
  assert (Ham : attr = m).
  { destruct post as [|b post'].
    - inversion Hw3; subst. rewrite u32_small in * by lia. lia.
    - apply walk_head in Hw3. congruence. }
  subst m.
  exists pre, post. split; [exact Hl|]. split; [exact Hpre|].
  split; [exact Hpost|]. split.
  { destruct post as [|b post']; [|exact Hat].
    inversion Hw3; subst. lia. }
  (* the new record *)
  pose proof (mi_insert_attr_shape mi ty name nl asize no attr Hsome
                ltac:(lia) ltac:(fold r; fold used; lia)) as Hshape.
  fold r used res in Hshape.
  set (mi1 := snd (mi_new_attt_id mi)) in *.
  set (id := fst (mi_new_attt_id mi)) in *.
  pose proof (mi_new_attt_id_bytes mi) as (Hlen1 & Hb1).
  fold r mi1 in Hlen1, Hb1.
  set (r1 := mrec_bytes mi1) in *.
  assert (Hr' : r' = mrec_bytes (snd res)) by reflexivity.
  rewrite Hshape in Hr'.
  rewrite mrec_bytes_with_dirty, mrec_bytes_with_mrec in Hr'.
  pose proof (insert_stores_bytes r1 attr asize used ty nl no id name
                ltac:(unfold MFTRECORD_FIXUP_OFFSET_1; lia) ltac:(lia)
                ltac:(unfold SIZEOF_RESIDENT; lia)
                ltac:(unfold blen in *; rewrite Hlen1; lia)
                ltac:(unfold blen in *; rewrite Hlen1; lia)
                Hnl Hno
                ltac:(unfold SIZEOF_RESIDENT; exact Hname)
                ltac:(lia) (mi_new_attt_id_range mi))
    as (Hlen & Hused' & Hfront & Hup & _ & Hfields & Hnm & Hzero).
  cbv zeta in Hlen, Hused', Hfront, Hup, Hfields, Hnm, Hzero.
  rewrite <- Hr' in Hlen, Hused', Hfront, Hup, Hfields, Hnm, Hzero.
  clear Hr' Hshape.
  unfold OFF_used, OFF_next_attr_id in *.
  assert (Hlow : forall i, 0x2A <= i < attr -> getb r' i = getb r i).
  { intros i Hi. rewrite Hfront by lia. apply Hb1. lia. }
  assert (Hmove : forall i, attr <= i < used ->
                    getb r' (i + asize) = getb r i).
  { intros i Hi. rewrite Hup by lia.
    replace (i + asize - asize) with i by lia. apply Hb1. lia. }
  assert (Hhdr : forall k off, off + Z.of_nat k <= 0x18
                               \/ (0x1C <= off /\ off + Z.of_nat k <= 0x28) ->
                   get_le k r' off = get_le k r off).
  { intros k off Hk. apply get_le_ext. intros j Hj.
    rewrite Hfront by lia. apply Hb1. lia. }
  assert (Ht' : rec_total r' = rec_total r)
    by (apply Hhdr; right; unfold OFF_total; simpl; lia).
  assert (Ho' : rec_attr_off r' = o)
    by (apply Hhdr; left; unfold OFF_attr_off; simpl; lia).
  assert (Hi' : is_rec_inuse r' = is_rec_inuse r).
  { unfold is_rec_inuse, rec_flags. rewrite Hhdr; [reflexivity|].
    left. unfold OFF_flags. simpl. lia. }
  set (used' := rec_used r') in *.
  pose proof (enum_start_header r r' used used' Ht' Ho' Hi' Hst
                ltac:(lia)) as Hst'. fold o in Hst'.
  destruct (Z.geb_spec o used') as [Hge|_]; [lia|].
  destruct Hfields as (Fty & Fsz & Fnr & Fnl & Fno & Ffl & Fid & Fds & Fdo).
  (* the walk through the new record *)
  assert (Hw1' : attr_walk r' used' o pre attr).
  { pose proof (walk_transfer r r' used used' 0 o pre attr Hw1) as T.
    rewrite map_add_0, !Z.add_0_r in T. apply T; try lia.
    intros i Hi. rewrite Z.add_0_r. apply Hlow. lia. }
  assert (Hacc : enum_check r' used' attr (u32 attr) = Some attr).
  { apply enum_check_resident; rewrite ?Fty, ?Fsz, ?Fnr, ?Fds, ?Fdo;
      unfold SIZEOF_RESIDENT; try lia; try reflexivity; assumption. }
  assert (Hw3' : attr_walk r' used' (attr + asize)
                   (map (fun b => b + asize) post) (q + asize)).
  { apply (walk_transfer r r' used used' asize attr post q Hw3);
      try lia.
    intros i Hi. apply Hmove. lia. }
  assert (Hw' : attr_walk r' used' o
                  (pre ++ attr :: map (fun b => b + asize) post)
                  (q + asize)).
  { apply (walk_app _ _ _ _ attr _ _ Hw1'). apply walk_cons.
    - exact Hacc.
    - rewrite Fsz. lia.
    - rewrite Fsz. exact Hw3'. }
  assert (Hwin : forall j, 0 <= j < used - q ->
                   getb r' (q + asize + j) = getb r (q + j)).
  { intros j Hj. replace (q + asize + j) with (q + j + asize) by lia.
    apply Hmove. lia. }
  assert (Hq' : enum_check r' used' (q + asize) (u32 (q + asize)) = None).
  { apply (enum_check_end_shift r r' used used' q (q + asize));
      try assumption; lia. }
  assert (Hst'' : enum_start r' used' None
                  = Some (rec_attr_off r', rec_attr_off r'))
    by (now rewrite Ho').
  assert (Hc' : enum_chain (snd res) None
                  (pre ++ attr :: map (fun b => b + asize) post)).
  { apply (walk_chain_start (snd res) _ (q + asize)); fold r';
      fold used'; rewrite ?Ho'; assumption. }
  assert (Hl' : attr_list (snd res)
                = pre ++ attr :: map (fun b => b + asize) post).
  { apply (enum_chain_unique (snd res) None);
      [apply attr_list_chain|exact Hc']. }
  assert (Hqe' : attr_end (snd res) = q + asize).
  { unfold attr_end. fold r'. rewrite Hl'.
    rewrite (walk_last _ _ _ _ _ Hw' None Ho').
    now rewrite last_attr_or_none. }
  split; [exact Hl'|].
  split; [repeat split; assumption|].
  split; [exact Hnm|]. split; [exact Hzero|].
  split. { intros a j Ha Hj. apply Hinpre in Ha. apply Hlow. lia. }
  split. { intros b j Hb' Hj. apply Hinpost in Hb'.
           replace (b + asize + j) with (b + j + asize) by lia.
           apply Hmove. lia. }
  split. { intros i Hi. apply Hlow. lia. }
  split; [exact Hmove|]. split; [exact Hused'|].
  split. { subst res. unfold mi_insert_attr in *.
           destruct (_ >? record_size (sbi mi)); [discriminate|].
           destruct (insert_scan _ mi None ty name nl) as [[|a|]|];
             try discriminate; destruct (mi_new_attt_id mi);
             reflexivity. }
  split.
  2:{ fold r1. unfold rec_next_attr_id, OFF_next_attr_id.
      apply get_le_ext. intros j Hj. apply Hfront; lia. }
  unfold record_ok. fold r'. fold used'.
  split; [exact Hst''|]. split; [|split; [|split; [|split]]].
  - unfold attrs_fit. fold r'. fold used'. rewrite Hl'. intros a Ha.
    pose proof (walk_bounds _ _ _ _ _ Hw') as (_ & _ & Hin).
    apply Hin in Ha. lia.
  - unfold ends_at_marker. fold r'. fold used'. rewrite Hqe'. split; [|lia].
    rewrite <- Hm1. unfold attr_type, OFF_type.
    apply (get_le_window 4 _ _ _ _ _ _ Hwin); lia.
  - rewrite Ht', Hrs. f_equal.
    assert (Hsbi : sbi (snd res) = sbi mi1).
    { subst res. unfold mi_insert_attr in *.
      destruct (_ >? record_size (sbi mi)); [discriminate|].
      destruct (insert_scan _ mi None ty name nl) as [[|a|]|];
        try discriminate; subst mi1; destruct (mi_new_attt_id mi);
        reflexivity. }
    rewrite Hsbi. subst mi1. symmetry. apply mi_new_attt_id_sbi.
  - unfold blen in *. rewrite Ht', Hlen, Hlen1. exact Htb.
  - unfold blen in *. rewrite Hlen, Hlen1. exact Hb.
Qed.


(** X13.  Insert, then remove: after a successful [mi_insert_attr] (as
    in X12), [mi_remove_attr] on the attribute just inserted succeeds
    and gives back the record that was there: the same attribute list,
    the same [used], the same bytes from the first attribute up to
    [used], and a well-formed record. *)
Theorem mi_insert_remove_roundtrip (mi : mft_inode) (ty : Z)
    (name : list byte) (nl asize no attr : Z) :
  let r := mrec_bytes mi in
  let used := rec_used r in
  let res := mi_insert_attr mi ty name nl asize no in
  record_ok mi ->
  fst res = Some attr ->
  Z.land ty 0xf = 0 -> 0 <= ty <= 0x100 ->
  SIZEOF_RESIDENT <= asize ->
  used + asize <= record_size (sbi mi) ->
  0 <= nl < 2 ^ 8 -> 0 <= no < 2 ^ 16 ->
  (nl = 0 \/ (SIZEOF_RESIDENT <= no /\ no + 2 * nl <= asize)) ->
  let res2 := mi_remove_attr (snd res) attr in
  let r2 := mrec_bytes (snd res2) in
  fst res2 = true
  /\ attr_list (snd res2) = attr_list mi
  /\ rec_used r2 = used
  /\ (forall i, MFTRECORD_FIXUP_OFFSET_1 <= i < used ->
        getb r2 i = getb r i)
  /\ record_ok (snd res2).
Proof.
  intros r used res Hok Hsome Hland Hty Hs Hroom Hnl Hno Hname res2 r2.
  destruct (mi_insert_attr_ok mi ty name nl asize no attr Hok Hsome Hland
              Hty Hs Hroom Hnl Hno Hname)
    as (pre & post & Hl & _ & _ & Hat & Hl' & (_ & Fsz & _) & _ & _ & _ & _
        & Hlow & Hmove & Hused' & _ & Hok' & _).
  fold r used res in Hl', Fsz, Hlow, Hmove, Hused', Hok', Hat.
  set (mi' := snd res) in *. set (r' := mrec_bytes mi') in *.
  destruct (mi_remove_attr_ok mi' attr pre
              (map (fun b => b + asize) post) Hok' Hl')
    as (H1 & H2 & _ & _ & H5 & H6).
  fold r' res2 in H1, H2, H5, H6. fold r2 in H5. rewrite Fsz in H2, H5.
  pose proof (mi_remove_attr_list mi' attr pre
                (map (fun b => b + asize) post) Hl')
    as Hrl.
  destruct Hok' as (Hst' & Hfit' & Hmark' & Hrs' & Htb' & Hb').
  fold r' in Hst', Hrs', Htb', Hb'.
  destruct (Hrl Hfit' (ends_at_marker_properly mi' Hmark') Htb' Hb')
    as (_ & _ & _ & _ & _ & _ & _ & _ & Ha & _ & _ & Hwf & _).
  pose proof (mi_remove_attr_bytes mi' attr Hwf)
    as (_ & _ & Hdown & Hfront & _).
  cbv zeta in Hdown, Hfront. fold r' res2 in Hdown, Hfront.
  fold r2 in Hdown, Hfront. rewrite Fsz, Hused' in Hdown.
  unfold MFTRECORD_FIXUP_OFFSET_1, OFF_used in *.
  split; [exact H1|]. split; [|split; [|split]].
  - rewrite H2, Hl, map_map. f_equal.
    rewrite <- (map_id post) at 2. apply map_ext. intros b. lia.
  - rewrite H5, Hused'. lia.
  - intros i Hi. destruct (Z_lt_ge_dec i attr) as [Hlt|Hge].
    + rewrite Hfront by lia. apply Hlow. lia.
    + rewrite Hdown by lia. apply Hmove. lia.
  - exact H6.
Qed.

End InsertEnum.


Lemma mi_insert_remove_roundtrip_witness :
  let C := trace_collab no_disk no_packer in
  let mi := sample_mi 1024 30 record_ids_0134 in
  let res := mi_insert_attr (C := C) mi 0x40 [] 0 0x20 0x18 in
  let res2 := mi_remove_attr (snd res) 0x68 in
  fst res = Some 0x68
  /\ fst res2 = true
  /\ attr_list (snd res2) = [0x38; 0x50; 0x68; 0x80]
  /\ rec_used (mrec_bytes (snd res2)) = 0xA0.
Proof.
  intros C mi res res2.
  assert (Hl : attr_list mi = [0x38; 0x50; 0x68; 0x80])
    by (vm_compute; reflexivity).
  assert (Hwf : record_ok mi).
  { unfold record_ok. split; [vm_compute; reflexivity|]. split.
    - intros a Ha. rewrite Hl in Ha. cbn [In] in Ha.
      destruct Ha as [<-|[<-|[<-|[<-|[]]]]]; vm_compute; discriminate.
    - split; [split|split; [|split]];
        vm_compute; first [reflexivity|discriminate]. }
  assert (Hsome : fst res = Some 0x68) by (vm_compute; reflexivity).
  destruct (mi_insert_remove_roundtrip (C := C) mi 0x40 [] 0 0x20 0x18
              0x68 Hwf Hsome eq_refl
              ltac:(split; discriminate) ltac:(discriminate)
              ltac:(vm_compute; discriminate)
              ltac:(split; [discriminate|reflexivity])
              ltac:(split; [discriminate|reflexivity])
              (or_introl eq_refl))
    as (H1 & H2 & H3 & _).
  split; [exact Hsome|]. split; [exact H1|].
  split; [exact (eq_trans H2 Hl)|exact H3].
Defined.

(** ** mi_insert_attr: the order of the list, and finding the new
    attribute *)

Lemma s32_signed x : - 2 ^ 31 <= x < 2 ^ 31 -> s32 x = x.
Proof.
  intros H. destruct (Z_lt_ge_dec x 0) as [Hneg|Hpos];
    [|apply s32_small; lia].
  unfold s32, u32.
  assert (E : x mod 2 ^ 32 = x + 2 ^ 32)
    by (symmetry; apply (Z.mod_unique x (2 ^ 32) (-1)); lia).
  rewrite E. destruct (Z.ltb_spec (x + 2 ^ 32) (2 ^ 31)); lia.
Qed.

(** What [mi_enum_attr] has checked of every attribute of the list. *)
Lemma attr_list_checked mi a :
  In a (attr_list mi) ->
  let r := mrec_bytes mi in
  SIZEOF_RESIDENT <= attr_size r a
  /\ 0 <= attr_type r a <= 0x100.
Proof.
  intros Ha r.
  destruct (enum_chain_in mi None _ (attr_list_chain mi) a Ha) as (s & E).
  unfold mi_enum_attr in E. fold r in E.
  destruct (enum_start r (rec_used r) s) as [[p off]|]; [|discriminate].
  pose proof (enum_check_inv _ _ _ _ _ E) as [-> _].
  split; [exact (enum_check_size _ _ _ _ _ E)|].
  apply enum_check_valid in E. destruct E as (_ & _ & _ & _ & Hle & _).
  split; [|exact Hle]. unfold attr_type. apply (get_le_range 4).
Qed.

Lemma sorted_insert (l1 l2 : list Z) (v : Z) :
  Sorted Z.le (l1 ++ l2) ->
  (forall x, In x l1 -> x <= v) ->
  (forall y l2', l2 = y :: l2' -> v <= y) ->
  Sorted Z.le (l1 ++ v :: l2).
Proof.
  intros Hs H1 H2. apply StronglySorted_Sorted.
  apply Sorted_StronglySorted in Hs; [|intros x y z; apply Z.le_trans].
  assert (H2' : Forall (Z.le v) l2).
  { assert (Hs2 : StronglySorted Z.le l2).
    { clear - Hs. induction l1 as [|x l1 IH]; [exact Hs|].
      inversion Hs; subst. now apply IH. }
    destruct l2 as [|y l2']; [constructor|].
    specialize (H2 y l2' eq_refl). inversion Hs2; subst.
    constructor; [exact H2|].
    eapply Forall_impl; [|eassumption]. intros z Hz. cbv beta in Hz. lia. }
  clear H2. induction l1 as [|x l1 IH]; cbn [app] in *.
  - constructor; assumption.
  - inversion Hs as [|x' l' Hs' Hall]; subst. constructor.
    + apply IH; [exact Hs'|]. intros z Hz. apply H1. now right.
    + apply Forall_app in Hall. destruct Hall as [Ha1 Ha2].
      apply Forall_app. split; [exact Ha1|].
      constructor; [apply H1; now left|exact Ha2].
Qed.

Lemma locate_found r ty name nl id : forall pre a post,
  (forall x, In x pre ->
     attr_type r x <= ty /\ attr_matches r ty name nl id x = false) ->
  attr_type r a <= ty ->
  attr_matches r ty name nl id a = true ->
  locate r ty name nl id (pre ++ a :: post) = Some a.
Proof.
  induction pre as [|b pre IH]; intros a post Hpre Ha Hm; cbn [app locate].
  - destruct (Z.gtb_spec (attr_type r a) ty); [lia|]. now rewrite Hm.
  - destruct (Hpre b (or_introl eq_refl)) as [Hb Hnb].
    destruct (Z.gtb_spec (attr_type r b) ty); [lia|]. rewrite Hnb.
    apply IH; try assumption. intros x Hx. apply Hpre. now right.
Qed.

Section InsertMore.

Context {C : Collaborators}.

(** [compare_attr] orders by type first. *)
Lemma compare_attr_type r a ty name nl :
  0 <= attr_type r a <= 0x100 -> 0 <= ty <= 0x100 ->
  (compare_attr r a ty name nl < 0 -> attr_type r a <= ty)
  /\ (0 <= compare_attr r a ty name nl -> ty <= attr_type r a).
Proof.
  intros Ha Hty. unfold compare_attr.
  rewrite s32_signed by lia.
  destruct (Z.eqb_spec (attr_type r a - ty) 0) as [E|E]; cbn [negb]; lia.
Qed.

(** The types of the attributes after the insertion. *)
Lemma mi_insert_attr_types mi ty name nl asize no attr :
  let r := mrec_bytes mi in
  let used := rec_used r in
  let res := mi_insert_attr mi ty name nl asize no in
  let r' := mrec_bytes (snd res) in
  record_ok mi ->
  fst res = Some attr ->
  Z.land ty 0xf = 0 -> 0 <= ty <= 0x100 ->
  SIZEOF_RESIDENT <= asize ->
  used + asize <= record_size (sbi mi) ->
  0 <= nl < 2 ^ 8 -> 0 <= no < 2 ^ 16 ->
  (nl = 0 \/ (SIZEOF_RESIDENT <= no /\ no + 2 * nl <= asize)) ->
  exists pre post,
    attr_list mi = pre ++ post
    /\ attr_list (snd res) = pre ++ attr :: map (fun b => b + asize) post
    /\ (forall a, In a pre ->
          attr_type r' a = attr_type r a /\ attr_id r' a = attr_id r a
          /\ attr_type r a <= ty)
    /\ (forall b, In b post ->
          attr_type r' (b + asize) = attr_type r b
          /\ attr_id r' (b + asize) = attr_id r b)
    /\ (forall b post', post = b :: post' -> ty <= attr_type r b)
    /\ attr_type r' attr = ty
    /\ attr_name_len r' attr = nl
    /\ attr_name_off r' attr = no
    /\ attr_id r' attr = fst (mi_new_attt_id mi)
    /\ (forall j, 0 <= j < 2 * nl ->
          getb r' (attr + no + j) = getb name j).
Proof.
  intros r used res r' Hok Hsome Hland Hty Hs Hroom Hnl Hno Hname.
  destruct (mi_insert_attr_ok mi ty name nl asize no attr Hok Hsome Hland
              Hty Hs Hroom Hnl Hno Hname)
    as (pre & post & Hl & Hpre & Hpost & _ & Hl'
        & (Fty & _ & _ & Fnl & Fno & _ & Fid & _) & Hnm & _ & Hbpre
        & Hbpost & _).
  fold r used res in Hpre, Hpost, Hl', Hbpre, Hbpost, Hnm, Fty, Fnl, Fno, Fid.
  fold r' in Hbpre, Hbpost, Hnm, Fty, Fnl, Fno, Fid.
  assert (Hchk : forall a, In a (pre ++ post) ->
                   SIZEOF_RESIDENT <= attr_size r a
                   /\ 0 <= attr_type r a <= 0x100).
  { intros a Ha. rewrite <- Hl in Ha. exact (attr_list_checked mi a Ha). }
  unfold SIZEOF_RESIDENT in *.
  exists pre, post. split; [exact Hl|]. split; [exact Hl'|].
  split; [|split; [|split]].
  - intros a Ha.
    destruct (Hchk a ltac:(apply in_or_app; now left)) as [Hsa Hta].
    split; [|split].
    + unfold attr_type, OFF_type. apply get_le_shift. intros j Hj.
      rewrite <- !Z.add_assoc. apply Hbpre; [exact Ha|lia].
    + unfold attr_id, OFF_id. apply get_le_shift. intros j Hj.
      rewrite <- !Z.add_assoc. apply Hbpre; [exact Ha|lia].
    + apply (compare_attr_type r a ty name nl Hta Hty). now apply Hpre.
  - intros b Hb.
    destruct (Hchk b ltac:(apply in_or_app; now right)) as [Hsb Htb].
    split.
    + unfold attr_type, OFF_type. apply get_le_shift. intros j Hj.
      replace (b + asize + 0 + j) with (b + asize + (0 + j)) by lia.
      replace (b + 0 + j) with (b + (0 + j)) by lia.
      apply Hbpost; [exact Hb|lia].
    + unfold attr_id, OFF_id. apply get_le_shift. intros j Hj.
      replace (b + asize + 14 + j) with (b + asize + (14 + j)) by lia.
      replace (b + 14 + j) with (b + (14 + j)) by lia.
      apply Hbpost; [exact Hb|lia].
  - intros b post' ->.
    destruct (Hchk b ltac:(apply in_or_app; right; now left)) as [_ Htb].
    apply (compare_attr_type r b ty name nl Htb Hty).
    now apply (Hpost b post').
  - repeat split; assumption.
Qed.

(** X14.  [mi_insert_attr] keeps the attribute list in the order of the
    types, the order [mi_find_attr] counts on when it gives up at the
    first larger type: if the types of the attributes of a well-formed
    record ascend along the list, they still do after a successful
    insertion (as in X12). *)
Theorem mi_insert_attr_sorted (mi : mft_inode) (ty : Z) (name : list byte)
    (nl asize no attr : Z) :
  let r := mrec_bytes mi in
  let used := rec_used r in
  let res := mi_insert_attr mi ty name nl asize no in
  let r' := mrec_bytes (snd res) in
  record_ok mi ->
  fst res = Some attr ->
  Z.land ty 0xf = 0 -> 0 <= ty <= 0x100 ->
  SIZEOF_RESIDENT <= asize ->
  used + asize <= record_size (sbi mi) ->
  0 <= nl < 2 ^ 8 -> 0 <= no < 2 ^ 16 ->
  (nl = 0 \/ (SIZEOF_RESIDENT <= no /\ no + 2 * nl <= asize)) ->
  Sorted Z.le (map (attr_type r) (attr_list mi)) ->
  Sorted Z.le (map (attr_type r') (attr_list (snd res))).
Proof.
  intros r used res r' Hok Hsome Hland Hty Hs Hroom Hnl Hno Hname Hsorted.
  destruct (mi_insert_attr_types mi ty name nl asize no attr Hok Hsome
              Hland Hty Hs Hroom Hnl Hno Hname)
    as (pre & post & Hl & Hl' & Hpre & Hpost & Hhd & Fty & _).
  fold r used res in Hl', Hpre, Hpost, Hhd, Fty.
  fold r' in Hpre, Hpost, Fty. clearbody r'.
  rewrite Hl' , map_app. cbn [map]. rewrite map_map, Fty.
  rewrite (map_ext_in (attr_type r') (attr_type r) pre)
    by (intros a Ha; now apply Hpre).
  rewrite (map_ext_in (fun b => attr_type r' (b + asize)) (attr_type r) post)
    by (intros b Hb; now apply Hpost).
  rewrite Hl, map_app in Hsorted.
  apply sorted_insert; [exact Hsorted| |].
  - intros x Hx. apply in_map_iff in Hx. destruct Hx as (a & <- & Ha).
    now apply Hpre.
  - intros y l2' E. destruct post as [|b post']; [discriminate|].
    cbn [map] in E. inversion E; subst. now apply (Hhd b post').
Qed.

(** X15.  Insert, then find: after a successful [mi_insert_attr] (as in
    X12) that gave the new attribute an id no other attribute of the
    record has, [mi_find_attr] with the type, the name and that id
    returns the new attribute. *)
Theorem mi_insert_then_find (mi : mft_inode) (ty : Z) (name : list byte)
    (nl asize no attr : Z) :
  let r := mrec_bytes mi in
  let used := rec_used r in
  let res := mi_insert_attr mi ty name nl asize no in
  let id := fst (mi_new_attt_id mi) in
  record_ok mi ->
  fst res = Some attr ->
  Z.land ty 0xf = 0 -> 0 <= ty <= 0x100 ->
  SIZEOF_RESIDENT <= asize ->
  used + asize <= record_size (sbi mi) ->
  0 <= nl < 2 ^ 8 -> 0 <= no < 2 ^ 16 ->
  (nl = 0 \/ (SIZEOF_RESIDENT <= no /\ no + 2 * nl <= asize)) ->
  (forall a, In a (attr_list mi) -> attr_id r a <> id) ->
  mi_find_attr (snd res) None ty name nl (Some id) = Some attr.
Proof.
  intros r used res id Hok Hsome Hland Hty Hs Hroom Hnl Hno Hname Hfresh.
  destruct (mi_insert_attr_types mi ty name nl asize no attr Hok Hsome
              Hland Hty Hs Hroom Hnl Hno Hname)
    as (pre & post & Hl & Hl' & Hpre & _ & _ & Fty & Fnl & Fno & Fid & Hnm).
  fold r used res in Hl', Hpre, Fty, Fnl, Fno, Fid, Hnm. fold id in Fid.
  set (mi' := snd res) in *. set (r' := mrec_bytes mi') in *.
  pose proof (attr_list_chain mi') as Hc.
  unfold mi_find_attr.
  rewrite (find_loop_chain mi' None _ ty name nl (Some id) Hc)
    by (eapply enum_chain_fuel; exact Hc).
  fold r'. rewrite Hl'. apply locate_found.
  - intros x Hx. destruct (Hpre x Hx) as (Et & Ei & Hle).
    split; [rewrite Et; exact Hle|].
    destruct (attr_matches r' ty name nl (Some id) x) eqn:M;
      [|reflexivity].
    apply attr_matches_iff in M. destruct M as (_ & _ & _ & Mid).
    exfalso. apply (Hfresh x); [rewrite Hl; apply in_or_app; now left|].
    congruence.
  - rewrite Fty. lia.
  - apply attr_matches_iff. split; [exact Fty|]. split; [exact Fnl|].
    split; [|now rewrite Fid].
    rewrite Fno. unfold slice. apply map_ext_in. intros k Hk.
    apply in_seq in Hk. rewrite Z.add_0_l. apply Hnm. lia.
Qed.

End InsertMore.

Lemma mi_insert_attr_sorted_witness :
  let C := trace_collab no_disk no_packer in
  let mi := sample_mi 1024 30 record_ids_0134 in
  let res := mi_insert_attr (C := C) mi 0x40 [] 0 0x20 0x18 in
  map (attr_type (mrec_bytes mi)) (attr_list mi) = [0x10; 0x30; 0x80; 0x90]
  /\ map (attr_type (mrec_bytes (snd res))) (attr_list (snd res))
     = [0x10; 0x30; 0x40; 0x80; 0x90]
  /\ Sorted Z.le (map (attr_type (mrec_bytes (snd res)))
                    (attr_list (snd res))).
Proof.
  intros C mi res.
  assert (Hl : attr_list mi = [0x38; 0x50; 0x68; 0x80])
    by (vm_compute; reflexivity).
  assert (Hwf : record_ok mi).
  { unfold record_ok. split; [vm_compute; reflexivity|]. split.
    - intros a Ha. rewrite Hl in Ha. cbn [In] in Ha.
      destruct Ha as [<-|[<-|[<-|[<-|[]]]]]; vm_compute; discriminate.
    - split; [split|split; [|split]];
        vm_compute; first [reflexivity|discriminate]. }
  assert (Hsome : fst res = Some 0x68) by (vm_compute; reflexivity).
  assert (Ht : map (attr_type (mrec_bytes mi)) (attr_list mi)
               = [0x10; 0x30; 0x80; 0x90]) by (vm_compute; reflexivity).
  split; [exact Ht|]. split; [vm_compute; reflexivity|].
  apply (mi_insert_attr_sorted (C := C) mi 0x40 [] 0 0x20 0x18 0x68 Hwf
           Hsome eq_refl
           ltac:(split; discriminate) ltac:(discriminate)
           ltac:(vm_compute; discriminate)
           ltac:(split; [discriminate|reflexivity])
           ltac:(split; [discriminate|reflexivity])
           (or_introl eq_refl)).
  rewrite Ht. repeat constructor; discriminate.
Defined.

Lemma mi_insert_then_find_witness :
  let C := trace_collab no_disk no_packer in
  let mi := sample_mi 1024 30 record_ids_0134 in
  let res := mi_insert_attr (C := C) mi 0x40 [] 0 0x20 0x18 in
  fst (mi_new_attt_id mi) = 2
  /\ fst res = Some 0x68
  /\ mi_find_attr (snd res) None 0x40 [] 0 (Some 2) = Some 0x68.
Proof.
  intros C mi res.
  assert (Hl : attr_list mi = [0x38; 0x50; 0x68; 0x80])
    by (vm_compute; reflexivity).
  assert (Hwf : record_ok mi).
  { unfold record_ok. split; [vm_compute; reflexivity|]. split.
    - intros a Ha. rewrite Hl in Ha. cbn [In] in Ha.
      destruct Ha as [<-|[<-|[<-|[<-|[]]]]]; vm_compute; discriminate.
    - split; [split|split; [|split]];
        vm_compute; first [reflexivity|discriminate]. }
  assert (Hsome : fst res = Some 0x68) by (vm_compute; reflexivity).
  assert (Hid : fst (mi_new_attt_id mi) = 2) by (vm_compute; reflexivity).
  split; [exact Hid|]. split; [exact Hsome|].
  rewrite <- Hid.
  apply (mi_insert_then_find (C := C) mi 0x40 [] 0 0x20 0x18 0x68 Hwf
           Hsome eq_refl
           ltac:(split; discriminate) ltac:(discriminate)
           ltac:(vm_compute; discriminate)
           ltac:(split; [discriminate|reflexivity])
           ltac:(split; [discriminate|reflexivity])
           (or_introl eq_refl)).
  intros a Ha. rewrite Hl in Ha. cbn [In] in Ha. rewrite Hid.
  destruct Ha as [<-|[<-|[<-|[<-|[]]]]]; vm_compute; discriminate.
Defined.

(** ** The attribute list after mi_resize_attr has grown an attribute *)

(** An attribute that passes the checks still passes them when its size
    and, if it is resident, its data size have grown by [d], or when it is
    non-resident and its size has changed to [SIZEOF_NONRESIDENT] or
    more. *)
Lemma enum_check_grow r r' used used' p d :
  enum_check r used p (u32 p) = Some p ->
  attr_type r' p = attr_type r p ->
  attr_size r' p = attr_size r p + d ->
  attr_non_res r' p = attr_non_res r p ->
  attr_name_len r' p = attr_name_len r p ->
  attr_name_off r' p = attr_name_off r p ->
  attr_flags r' p = attr_flags r p ->
  attr_res_data_off r' p = attr_res_data_off r p ->
  (attr_non_res r p = 0 ->
   attr_res_data_size r' p = u32 (attr_res_data_size r p + d)) ->
  (attr_non_res r p <> 0 ->
   attr_nres_svcn r' p = attr_nres_svcn r p
   /\ attr_nres_run_off r' p = attr_nres_run_off r p
   /\ attr_nres_c_unit r' p = attr_nres_c_unit r p) ->
  0 <= d
  \/ (attr_non_res r p <> 0 /\ SIZEOF_NONRESIDENT <= attr_size r p + d) ->
  0 <= p -> p + attr_size r p + d <= used' -> used' < 2 ^ 31 ->
  enum_check r' used' p (u32 p) = Some p.
Proof.
  intros Hacc Ety Esz Enr Enl Eno Efl Edo Eds Enres Hd Hp Hfit Hu'.
  pose proof (enum_check_size _ _ _ _ _ Hacc) as Hsz.
  pose proof (enum_check_valid _ _ _ _ _ Hacc)
    as (_ & _ & Hne & Hland & Hle & Hres & Hnres).
  pose proof (attr_size_range r p) as Hsr.
  unfold enum_check, is_attr_ext. rewrite Ety, Esz, Enr, Enl, Eno, Efl, Edo.
  unfold SIZEOF_RESIDENT, SIZEOF_NONRESIDENT, SIZEOF_NONRESIDENT_EX in *.
  rewrite (u32_small p) by lia. rewrite (u32_small (p + 8)) by lia.
  rewrite (u32_small (p + _)) by lia.
  destruct (Z.gtb_spec (p + 8) used'); [lia|].
  destruct (Z.eqb_spec (attr_type r p) ATTR_END); [contradiction|].
  rewrite Hland. cbn [Z.eqb negb orb].
  destruct (Z.gtb_spec (attr_type r p) 256); [lia|].
  destruct (Z.gtb_spec (p + (attr_size r p + d)) used'); [lia|].
  destruct (Z.eqb_spec (attr_non_res r p) 0) as [E0|E0].
  - destruct Hd as [Hd|[Hd _]]; [|contradiction].
    destruct (Hres E0) as (_ & Hdo & Hsum). rewrite (Eds E0).
    destruct (Z.ltb_spec (attr_size r p + d) 24); [lia|].
    destruct (Z.gtb_spec (attr_res_data_off r p) (attr_size r p + d));
      [lia|].
    assert (Esum : u32 (attr_res_data_off r p
                        + u32 (attr_res_data_size r p + d))
                   = u32 (attr_res_data_off r p + attr_res_data_size r p)
                     + d).
    { pose proof (u32_range (attr_res_data_off r p
                             + attr_res_data_size r p)) as Hr.
      unfold u32 in *. rewrite Zplus_mod_idemp_r.
      replace (attr_res_data_off r p + (attr_res_data_size r p + d))
        with (attr_res_data_off r p + attr_res_data_size r p + d) by lia.
      rewrite <- Zplus_mod_idemp_l. apply Z.mod_small. lia. }
    rewrite Esum.
    destruct (Z.gtb_spec
                (u32 (attr_res_data_off r p + attr_res_data_size r p) + d)
                (attr_size r p + d)); [lia|reflexivity].
  - destruct (Enres E0) as (-> & -> & ->).
    destruct (Hnres E0) as (Hmin & Hnm & Hcu & Hex).
    fold (is_attr_ext r p) in *.
    rewrite (u32_small (attr_size r p + d + 8)) by lia.
    destruct (Z.eqb_spec (attr_name_len r p) 0) as [En|En]; cbn [negb andb].
    + destruct (Z.eqb_spec (attr_nres_svcn r p) 0) as [Es|Es];
        cbn [negb orb].
      * destruct (is_attr_ext r p) eqn:Ex; cbn [negb].
        -- specialize (Hex Es eq_refl).
           destruct (Z.ltb_spec (attr_size r p + d + 8) 72);
             [lia|reflexivity].
        -- destruct (Z.ltb_spec (attr_size r p + d + 8) 64); [lia|].
           rewrite (Hcu (or_intror eq_refl)). reflexivity.
      * destruct (Z.ltb_spec (attr_size r p + d + 8) 64); [lia|].
        rewrite (Hcu (or_introl Es)). reflexivity.
    + specialize (Hnm En).
      destruct (Z.gtb_spec (attr_name_off r p + 2 * attr_name_len r p)
                  (attr_nres_run_off r p)); [lia|].
      destruct (Z.eqb_spec (attr_nres_svcn r p) 0) as [Es|Es];
        cbn [negb orb].
      * destruct (is_attr_ext r p) eqn:Ex; cbn [negb].
        -- specialize (Hex Es eq_refl).
           destruct (Z.ltb_spec (attr_size r p + d + 8) 72);
             [lia|reflexivity].
        -- destruct (Z.ltb_spec (attr_size r p + d + 8) 64); [lia|].
           rewrite (Hcu (or_intror eq_refl)). reflexivity.
      * destruct (Z.ltb_spec (attr_size r p + d + 8) 64); [lia|].
        rewrite (Hcu (or_introl Es)). reflexivity.
Qed.

(** [mi_resize_attr] with [bytes > 0] on an attribute of a well-formed
    record. *)
Lemma mi_resize_attr_grow_ok (mi : mft_inode) (attr n : Z)
    (pre post : list Z) :
  let r := mrec_bytes mi in
  let used := rec_used r in
  let asize := attr_size r attr in
  let d := round_up_to_8 n in
  let res := mi_resize_attr mi attr n in
  let r' := mrec_bytes (snd res) in
  record_ok mi ->
  attr_list mi = pre ++ attr :: post ->
  0 < n < 2 ^ 31 ->
  used + d <= rec_total r ->
  fst res = true
  /\ attr_list (snd res) = pre ++ attr :: map (fun b => b + d) post
  /\ attr_size r' attr = asize + d
  /\ rec_used r' = used + d
  /\ (forall a j, In a pre -> 0 <= j < attr_size r a ->
        getb r' (a + j) = getb r (a + j))
  /\ (forall b j, In b post -> 0 <= j < attr_size r b ->
        getb r' (b + d + j) = getb r (b + j))
  /\ (forall i, attr + asize <= i < attr + asize + d -> getb r' i = x00)
  /\ record_ok (snd res).
Proof.
  intros r used asize d res r' (Hst & Hfit & (Hm1 & Hm2) & Hrs & Htb & Hb)
    Hl Hn Hroom.
  fold r in Hst, Hm1, Hm2, Hrs, Htb, Hb. fold used in Hst, Hm2.
  set (o := rec_attr_off r) in *.
  pose proof (enum_start_first _ _ _ _ Hst) as (_ & _ & Hou & Ho & Hut).
  pose proof (round_up_to_8_bounds n) as Hd. fold d in Hd.
  unfold MFTRECORD_FIXUP_OFFSET_1, SIZEOF_RESIDENT in *.
  (* the walk through the old record *)
  pose proof (attr_list_chain mi) as Hc.
  destruct (chain_walk_start mi _ Hc Hfit Hst) as (q & Hw & Hq).
  fold r used o in Hw, Hq.
  assert (Hqe : q = attr_end mi).
  { rewrite (walk_last _ _ _ _ _ Hw None eq_refl).
    now rewrite last_attr_or_none. }
  rewrite <- Hqe in Hm1, Hm2. rewrite Hl in Hw.
  destruct (walk_app_inv _ _ _ _ _ _ Hw) as (m & Hw1 & Hw2).
  inversion Hw2 as [|p' l' q' Hacc Hfa Hw3]; subst p' l' q' m.
  fold asize in Hfa, Hw3.
  pose proof (enum_check_size _ _ _ _ _ Hacc) as Hsz. fold asize in Hsz.
  unfold SIZEOF_RESIDENT in Hsz.
  pose proof (walk_bounds _ _ _ _ _ Hw1) as (Hoa & _ & Hinpre).
  pose proof (walk_bounds _ _ _ _ _ Hw3) as (Haq & _ & Hinpost).
  (* the new record *)
  assert (Hwf : attr_in_record mi attr).
  { unfold attr_in_record, MFTRECORD_FIXUP_OFFSET_1.
    fold r. fold used asize. repeat split; lia. }
  pose proof (mi_resize_attr_grow_bytes mi attr n Hwf
                ltac:(unfold SIZEOF_RESIDENT; fold r; fold asize; lia)
                Hn Hroom)
    as (Hok & Hused' & Hsize' & Hup & Hgap & Hds & Hsame & Hdirty & Hfront
        & Hlen).
  fold r res in Hok, Hused', Hsize', Hup, Hgap, Hds, Hsame, Hdirty, Hfront,
    Hlen.
  fold r' used asize d in Hused', Hsize', Hup, Hgap, Hds, Hsame, Hfront,
    Hlen.
  unfold OFF_used, OFF_size, OFF_res_data_size in *.
  assert (Hhdr : forall k off, off + Z.of_nat k <= 0x18
                               \/ (0x1C <= off /\ off + Z.of_nat k <= 0x2A) ->
                   get_le k r' off = get_le k r off).
  { intros k off Hk. apply get_le_ext. intros j Hj. apply Hfront; lia. }
  assert (Ht' : rec_total r' = rec_total r)
    by (apply Hhdr; right; unfold OFF_total; simpl; lia).
  assert (Ho' : rec_attr_off r' = o)
    by (apply Hhdr; left; unfold OFF_attr_off; simpl; lia).
  assert (Hi' : is_rec_inuse r' = is_rec_inuse r).
  { unfold is_rec_inuse, rec_flags. rewrite Hhdr; [reflexivity|].
    left. unfold OFF_flags. simpl. lia. }
  set (used' := rec_used r') in *.
  pose proof (enum_start_header r r' used used' Ht' Ho' Hi' Hst
                ltac:(lia)) as Hst'. fold o in Hst'.
  destruct (Z.geb_spec o used') as [Hge|_]; [lia|].
  assert (Hfld : forall k off, 0 <= off -> off + Z.of_nat k <= asize ->
                   off + Z.of_nat k <= 4 \/ 8 <= off ->
                   attr_non_res r attr <> 0
                   \/ off + Z.of_nat k <= 0x10 \/ 0x14 <= off ->
                   get_le k r' (attr + off) = get_le k r (attr + off)).
  { intros k off H0 H1 H2 H3. apply get_le_ext. intros j Hj.
    apply Hsame; lia. }
  (* the walk through the new record *)
  assert (Hw1' : attr_walk r' used' o pre attr).
  { pose proof (walk_transfer r r' used used' 0 o pre attr Hw1) as T.
    rewrite map_add_0, !Z.add_0_r in T. apply T; try lia.
    intros i Hi. rewrite Z.add_0_r. apply Hfront; lia. }
  assert (Hacc' : enum_check r' used' attr (u32 attr) = Some attr).
  { pose proof (enum_check_valid _ _ _ _ _ Hacc)
      as (_ & _ & _ & _ & _ & _ & Hnres).
    unfold SIZEOF_NONRESIDENT in Hnres. fold asize in Hnres.
    apply (enum_check_grow r r' used used' attr d Hacc);
      fold asize; try lia; try assumption.
    - apply (Hfld 4%nat OFF_type); unfold OFF_type; lia.
    - apply (Hfld 1%nat OFF_non_res); unfold OFF_non_res; lia.
    - apply (Hfld 1%nat OFF_name_len); unfold OFF_name_len; lia.
    - apply (Hfld 2%nat OFF_name_off); unfold OFF_name_off; lia.
    - apply (Hfld 2%nat OFF_aflags); unfold OFF_aflags; lia.
    - apply (Hfld 2%nat OFF_res_data_off); unfold OFF_res_data_off; lia.
    - intros E0. destruct (Hnres E0) as (Hmin & _).
      repeat split.
      + apply (Hfld 8%nat OFF_nres_svcn); unfold OFF_nres_svcn; lia.
      + apply (Hfld 2%nat OFF_nres_run_off); unfold OFF_nres_run_off; lia.
      + apply (Hfld 1%nat OFF_nres_c_unit); unfold OFF_nres_c_unit; lia. }
  assert (Hw3' : attr_walk r' used' (attr + asize + d)
                   (map (fun b => b + d) post) (q + d)).
  { apply (walk_transfer r r' used used' d (attr + asize) post q Hw3);
      try lia.
    intros i Hi. apply Hup. lia. }
  assert (Hw' : attr_walk r' used' o
                  (pre ++ attr :: map (fun b => b + d) post) (q + d)).
  { apply (walk_app _ _ _ _ attr _ _ Hw1'). apply walk_cons.
    - exact Hacc'.
    - rewrite Hsize'. lia.
    - rewrite Hsize', Z.add_assoc. exact Hw3'. }
  assert (Hwin : forall j, 0 <= j < used - q ->
                   getb r' (q + d + j) = getb r (q + j)).
  { intros j Hj. replace (q + d + j) with (q + j + d) by lia.
    apply Hup. lia. }
  assert (Hq' : enum_check r' used' (q + d) (u32 (q + d)) = None).
  { apply (enum_check_end_shift r r' used used' q (q + d));
      try assumption; lia. }
  assert (Hst'' : enum_start r' used' None
                  = Some (rec_attr_off r', rec_attr_off r'))
    by (now rewrite Ho').
  assert (Hc' : enum_chain (snd res) None
                  (pre ++ attr :: map (fun b => b + d) post)).
  { apply (walk_chain_start (snd res) _ (q + d)); fold r';
      fold used'; rewrite ?Ho'; assumption. }
  assert (Hl' : attr_list (snd res)
                = pre ++ attr :: map (fun b => b + d) post).
  { apply (enum_chain_unique (snd res) None);
      [apply attr_list_chain|exact Hc']. }
  assert (Hqe' : attr_end (snd res) = q + d).
  { unfold attr_end. fold r'. rewrite Hl'.
    rewrite (walk_last _ _ _ _ _ Hw' None Ho').
    now rewrite last_attr_or_none. }
  split; [exact Hok|]. split; [exact Hl'|]. split; [exact Hsize'|].
  split; [exact Hused'|].
  split. { intros a j Ha Hj. apply Hinpre in Ha. apply Hfront; lia. }
  split. { intros b j Hb' Hj. apply Hinpost in Hb'.
           replace (b + d + j) with (b + j + d) by lia. apply Hup. lia. }
  split; [exact Hgap|].
  unfold record_ok. fold r'. fold used'.
  split; [exact Hst''|]. split; [|split; [|split; [|split]]].
  - unfold attrs_fit. fold r'. fold used'. rewrite Hl'. intros a Ha.
    pose proof (walk_bounds _ _ _ _ _ Hw') as (_ & _ & Hin).
    apply Hin in Ha. lia.
  - unfold ends_at_marker. fold r'. fold used'. rewrite Hqe'. split; [|lia].
    rewrite <- Hm1. unfold attr_type, OFF_type.
    apply (get_le_window 4 _ _ _ _ _ _ Hwin); lia.
  - rewrite Ht', Hrs. f_equal. subst res. unfold mi_resize_attr.
    repeat match goal with
           | |- context [if ?c then _ else _] => destruct c
           end; reflexivity.
  - unfold blen in *. rewrite Ht', Hlen. exact Htb.
  - unfold blen in *. rewrite Hlen. exact Hb.
Qed.

(** X16.  Growing an attribute keeps the record well-formed.  When
    [mi_resize_attr] grows an attribute of the list of a well-formed
    record by [n > 0] bytes and the record has room for [d], [n] rounded
    up to a multiple of 8, it succeeds; the enumeration yields the same
    attributes, those behind the grown one moved up by [d] with the
    bytes they had; the grown attribute is [d] bytes longer, the bytes
    added are 0; and the record is well-formed again. *)
Theorem mi_resize_attr_grow_enum (mi : mft_inode) (attr n : Z)
    (pre post : list Z) :
  let r := mrec_bytes mi in
  let used := rec_used r in
  let asize := attr_size r attr in
  let d := round_up_to_8 n in
  let res := mi_resize_attr mi attr n in
  let r' := mrec_bytes (snd res) in
  record_ok mi ->
  attr_list mi = pre ++ attr :: post ->
  0 < n < 2 ^ 31 ->
  used + d <= rec_total r ->
  fst res = true
  /\ attr_list (snd res) = pre ++ attr :: map (fun b => b + d) post
  /\ attr_size r' attr = asize + d
  /\ rec_used r' = used + d
  /\ (forall a j, In a pre -> 0 <= j < attr_size r a ->
        getb r' (a + j) = getb r (a + j))
  /\ (forall b j, In b post -> 0 <= j < attr_size r b ->
        getb r' (b + d + j) = getb r (b + j))
  /\ (forall i, attr + asize <= i < attr + asize + d -> getb r' i = x00)
  /\ record_ok (snd res).
Proof.
  intros r used asize d res r' Hok Hl Hn Hroom.
  exact (mi_resize_attr_grow_ok mi attr n pre post Hok Hl Hn Hroom).
Qed.

Lemma mi_resize_attr_grow_enum_witness :
  let mi := sample_mi 1024 30 record_ids_0134 in
  let res := mi_resize_attr mi 0x50 5 in
  attr_list mi = [0x38; 0x50; 0x68; 0x80]
  /\ fst res = true
  /\ attr_list (snd res) = [0x38; 0x50; 0x70; 0x88]
  /\ attr_size (mrec_bytes (snd res)) 0x50 = 0x20
  /\ record_ok (snd res).
Proof.
  intros mi res.
  assert (Hl : attr_list mi = [0x38] ++ 0x50 :: [0x68; 0x80])
    by (vm_compute; reflexivity).
  assert (Hwf : record_ok mi).
  { unfold record_ok. split; [vm_compute; reflexivity|]. split.
    - intros a Ha. rewrite Hl in Ha. cbn [app In] in Ha.
      destruct Ha as [<-|[<-|[<-|[<-|[]]]]]; vm_compute; discriminate.
    - split; [split|split; [|split]];
        vm_compute; first [reflexivity|discriminate]. }
  destruct (mi_resize_attr_grow_enum mi 0x50 5 [0x38] [0x68; 0x80] Hwf Hl
              ltac:(split; reflexivity) ltac:(vm_compute; discriminate))
    as (Hok & Hl' & Hs & _ & _ & _ & _ & Hok').
  split; [exact Hl|]. split; [exact Hok|].
  split; [refine (eq_trans Hl' _); vm_compute; reflexivity|].
  split; [refine (eq_trans Hs _); vm_compute; reflexivity|exact Hok'].
Defined.

(** ** mi_format_new: the record it leaves *)

Section FormatExtra.

Context {C : Collaborators}.

Lemma mi_read_sbi_rno w mi is_mft :
  sbi (snd (fst (mi_read w mi is_mft))) = sbi mi
  /\ rno (snd (fst (mi_read w mi is_mft))) = rno mi.
Proof.
  unfold mi_read.
  set (vbo := u64 (Z.shiftl (rno mi) (record_bits (sbi mi)))).
  set (bpr := record_size (sbi mi)).
  pose proof (read_bh_keeps w mi vbo bpr) as H1. cbv zeta in H1.
  destruct (read_bh w mi vbo bpr) as [[err mi1] w1]. cbn [fst snd] in H1.
  destruct H1 as (Hs1 & Hr1 & _).
  destruct (err =? 0); [now split|].
  destruct (err =? 1); [now split|].
  destruct (negb (err =? - ENOENT)); [now split|].
  destruct (attr_load_runs_vcn w1 (sbi mi1) _) as [err2 w2].
  destruct (negb (err2 =? 0)); [now split|].
  pose proof (read_bh_keeps w2 mi1 vbo bpr) as H2. cbv zeta in H2.
  destruct (read_bh w2 mi1 vbo bpr) as [[err3 mi3] w3].
  cbn [fst snd] in H2. destruct H2 as (Hs3 & Hr3 & _).
  destruct (err3 =? 1); [cbn; split; congruence|].
  destruct (negb (err3 =? 0)); cbn; split; congruence.
Qed.

Lemma format_new_seq_sbi_rno w mi rn is_mft :
  sbi (snd (fst (format_new_seq w mi rn is_mft))) = sbi mi
  /\ rno (snd (fst (format_new_seq w mi rn is_mft))) = rno mi.
Proof.
  unfold format_new_seq.
  destruct (rn =? MFT_REC_MFT); [now split|].
  destruct (rn <? MFT_REC_FREE); [now split|].
  destruct (rn >=? mft_used (sbi mi)); [now split|].
  pose proof (mi_read_sbi_rno w mi is_mft) as H.
  destruct (mi_read w mi is_mft) as [[err mi1] w1]. cbn [fst snd] in H.
  destruct (negb (err =? 0)); [exact H|].
  destruct (rec_sign _ =? _); exact H.
Qed.

Lemma lor_in_use_odd (flags : Z) :
  Z.land (u16 (Z.lor RECORD_FLAG_IN_USE flags)) RECORD_FLAG_IN_USE = 1.
Proof.
  unfold RECORD_FLAG_IN_USE, u16.
  rewrite <- Z.land_ones by lia. rewrite <- Z.land_assoc.
  change (Z.land (Z.ones 16) 1) with 1. rewrite land_1_mod.
  rewrite Zmod_odd, <- Z.bit0_odd, Z.lor_spec. reflexivity.
Qed.

(** X17.  What [mi_format_new] leaves behind.  When the buffer cannot be
    allocated it returns [-ENOMEM] and does nothing else.  Otherwise the
    record of the [mft_inode] is the template [sbi->new_rec] in its
    first [record_size] bytes, but for the sequence number and the
    flags, which are the flags given with [RECORD_FLAG_IN_USE] set: the
    record is in use.  The [mft_inode] belongs to the volume and the
    record number given and is dirty. *)
Theorem mi_format_new_spec (w : world) (mi : mft_inode)
    (sb : ntfs_sb_info) (rn flags : Z) (is_mft : bool) :
  let res := mi_format_new w mi sb rn flags is_mft in
  let mi' := snd (fst res) in
  let r' := mrec_bytes mi' in
  (forall w0, ntfs_alloc w (record_size sb) = (None, w0) ->
     res = (- ENOMEM,
            {| sbi := sb; rno := rn; mrec := None; dirty := dirty mi;
               nbufs := nbufs mi |},
            w0))
  /\ (forall r0 w0, ntfs_alloc w (record_size sb) = (Some r0, w0) ->
        sbi mi' = sb /\ rno mi' = rn
        /\ length r' = length r0
        /\ dirty mi' = true
        /\ (forall i, 0 <= i < record_size sb -> i < blen r0 ->
              ~ OFF_seq <= i < OFF_seq + 2 ->
              ~ OFF_flags <= i < OFF_flags + 2 ->
              getb r' i = getb (new_rec sb) i)
        /\ (OFF_flags + 2 <= blen r0 ->
            rec_flags r' = u16 (Z.lor RECORD_FLAG_IN_USE flags)
            /\ is_rec_inuse r' = true)).
Proof.
  intros res mi' r'. split.
  - intros w0 Ha. subst res. unfold mi_format_new, mi_init. rewrite Ha.
    reflexivity.
  - intros r0 w0 Ha. subst r' mi' res. unfold mi_format_new, mi_init.
    rewrite Ha. cbn [Z.eqb negb].
    set (mi0 := {| sbi := sb; rno := rn; mrec := Some r0;
                   dirty := dirty mi; nbufs := nbufs mi |}).
    pose proof (format_new_seq_length w0 mi0 rn is_mft) as Hl.
    pose proof (format_new_seq_sbi_rno w0 mi0 rn is_mft) as [Hs Hr].
    destruct (format_new_seq w0 mi0 rn is_mft) as [[seq mi1] w1].
    cbn [fst snd] in Hl, Hs, Hr.
    change (mrec_bytes mi0) with r0 in Hl.
    change (sbi mi0) with sb in Hs. change (rno mi0) with rn in Hr.
    set (r1 := mrec_bytes mi1) in *.
    set (r2 := set_rec_flags
                 (set_rec_seq (memcpy r1 0 (new_rec sb) (record_size sb))
                    seq)
                 (Z.lor RECORD_FLAG_IN_USE flags)).
    assert (Hfacts :
      forall m, mrec_bytes m = r2 -> sbi m = sbi mi1 -> rno m = rno mi1 ->
                dirty m = true ->
        sbi m = sb /\ rno m = rn
        /\ length (mrec_bytes m) = length r0
        /\ dirty m = true
        /\ (forall i, 0 <= i < record_size sb -> i < blen r0 ->
              ~ OFF_seq <= i < OFF_seq + 2 ->
              ~ OFF_flags <= i < OFF_flags + 2 ->
              getb (mrec_bytes m) i = getb (new_rec sb) i)
        /\ (OFF_flags + 2 <= blen r0 ->
            rec_flags (mrec_bytes m)
            = u16 (Z.lor RECORD_FLAG_IN_USE flags)
            /\ is_rec_inuse (mrec_bytes m) = true)).
    { intros m -> Hsm Hrm Hdm.
      assert (Hl2 : length r2 = length r0).
      { unfold r2, set_rec_flags, set_rec_seq.
        now rewrite !length_set_le, length_memcpy. }
      assert (Hfl : OFF_flags + 2 <= blen r0 ->
                    rec_flags r2 = u16 (Z.lor RECORD_FLAG_IN_USE flags)).
      { intros Hb. unfold rec_flags, r2, set_rec_flags.
        unfold OFF_flags in *.
        rewrite get_le_set_le_same; [reflexivity|lia|].
        unfold set_rec_seq, blen in *.
        rewrite length_set_le, length_memcpy, Hl. simpl. lia. }
      split; [congruence|]. split; [congruence|]. split; [exact Hl2|].
      split; [exact Hdm|]. split.
      - intros i Hi Hib Hseq Hflg. unfold r2, set_rec_flags, set_rec_seq.
        unfold OFF_seq, OFF_flags in *.
        rewrite !getb_set_le. change (Z.of_nat 2) with 2.
        do 2 range_is_false. cbn [andb]. rewrite getb_memcpy.
        range_is_true.
        replace (in_range 0 (blen r1) i) with true
          by (symmetry; apply in_range_true; unfold blen in *;
              rewrite Hl; lia).
        cbn [andb]. f_equal. lia.
      - intros Hb. split; [now apply Hfl|].
        unfold is_rec_inuse. rewrite (Hfl Hb), lor_in_use_odd.
        reflexivity. }
    destruct (nbufs _ =? 0).
    + destruct (ntfs_get_bh w1 sb _ _) as [[err nb] w2]. cbn [fst snd].
      apply Hfacts; reflexivity.
    + cbn [fst snd]. apply Hfacts; reflexivity.
Qed.

End FormatExtra.

(** ** The attribute list after mi_pack_runs *)

Section PackEnum.

Context {C : Collaborators}.

Variable mi : mft_inode.
Variable attr : Z.
Variable run : runs_tree.
Variable len : Z.

Hypothesis Hwf : nonres_in_record mi attr.

Let r := mrec_bytes mi.
Let used := rec_used r.
Let asize := attr_size r attr.
Let run_off := attr_nres_run_off r attr.
Let run_size := asize - run_off.
Let dsize := record_size (sbi mi) - used.
Let next := attr + asize.
Let tail := used - attr - asize.
Let pr := run_pack run (clst (attr_nres_svcn r attr)) len (run_size + dsize).
Let out := firstn (Z.to_nat (run_size + dsize)) (pr_bytes pr).
Let nrs := round_up_to_8 (pr_err pr).
Let delta := nrs - run_size.

(** The bytes of the record after a successful [mi_pack_runs] whose
    serializer stayed within the space it was given. *)
Lemma mi_pack_runs_bytes :
  0 <= pr_err pr <= run_size + dsize ->
  (run_size + dsize) mod 8 = 0 ->
  let res := mi_pack_runs mi attr run len in
  let r' := mrec_bytes (snd res) in
  fst res = 0
  /\ rec_used r' = used + delta
  /\ attr_size r' attr = asize + delta
  /\ 0 <= nrs <= run_size + dsize
  /\ (forall i, i < attr + run_off ->
        ~ OFF_used <= i < OFF_used + 4 ->
        ~ attr + OFF_size <= i < attr + OFF_size + 4 ->
        ~ attr + OFF_nres_evcn <= i < attr + OFF_nres_evcn + 8 ->
        getb r' i = getb r i)
  /\ (forall i, next <= i < used -> getb r' (i + delta) = getb r i)
  /\ (forall j, 0 <= j < blen out -> j < nrs ->
        getb r' (attr + run_off + j) = getb out j)
  /\ length r' = length r
  /\ sbi (snd res) = sbi mi
  /\ dirty (snd res) = true.
Proof.
  intros Herr Hal res r'.
  destruct (pack_facts mi attr run len Hwf)
    as (H1 & H2 & H3 & H4 & H5 & H6 & H7 & H8).
  fold r in H2, H3, H4, H5, H6, H7, H8.
  fold asize run_off used in H2, H3, H4, H5, H8.
  fold run_size dsize in H8. fold pr in H8. fold out in H8.
  pose proof (rec_used_range r) as Hur. fold used in Hur.
  pose proof (attr_size_range r attr) as Hsr. fold asize in Hsr.
  pose proof (round_up_to_8_bounds (pr_err pr)) as Hnb. fold nrs in Hnb.
  assert (Hnle : nrs <= run_size + dsize)
    by (apply round_up_to_8_le; [lia|exact Hal]).
  assert (Hq : QuadAlign (pr_err pr) = nrs)
    by (apply QuadAlign_round_up; subst run_size dsize; lia).
  set (packed := memcpy (memmove r (next + dsize) next tail)
                   (attr + run_off) out (blen out)).
  set (r3 := memmove packed (next + nrs - run_size) (next + dsize) tail).
  assert (Hres : res
    = (0, with_dirty
            (with_mrec mi
               (set_rec_used
                  (set_attr_nres_evcn
                     (set_attr_size r3 attr (asize + delta))
                     attr
                     (u64 (clst (clst (attr_nres_svcn r attr)
                                 + pr_plen pr - 1))))
                  (used + delta)))
            true)).
  { subst res. rewrite (mi_pack_runs_eq mi attr run len Hwf).
    fold r. fold used asize run_off. fold run_size dsize next tail.
    fold pr. fold out. fold packed.
    destruct (Z.ltb_spec (pr_err pr) 0); [lia|]. cbv zeta.
    rewrite Hq. fold r3.
    replace (asize + nrs - run_size) with (asize + delta)
      by (subst delta; lia).
    replace (used + nrs - run_size) with (used + delta)
      by (subst delta; lia).
    rewrite (u32_small (asize + delta))
      by (subst delta run_size dsize; lia).
    rewrite (u32_small (used + delta))
      by (subst delta run_size dsize; lia).
    reflexivity. }
  assert (Hlp : length packed = length r)
    by (unfold packed; now rewrite length_memcpy, length_memmove).
  assert (Hl3 : length r3 = length r)
    by (unfold r3; now rewrite length_memmove).
  assert (Hr' : r' = set_rec_used
                       (set_attr_nres_evcn
                          (set_attr_size r3 attr (asize + delta))
                          attr
                          (u64 (clst (clst (attr_nres_svcn r attr)
                                      + pr_plen pr - 1))))
                       (used + delta)).
  { subst r'. now rewrite Hres. }
  assert (Hget : forall i,
             ~ OFF_used <= i < OFF_used + 4 ->
             ~ attr + OFF_size <= i < attr + OFF_size + 4 ->
             ~ attr + OFF_nres_evcn <= i < attr + OFF_nres_evcn + 8 ->
             getb r' i = getb r3 i).
  { intros i Hu Hs He. rewrite Hr'.
    unfold set_rec_used, set_attr_nres_evcn, set_attr_size.
    rewrite !getb_set_le. change (Z.of_nat 4) with 4.
    change (Z.of_nat 8) with 8. do 3 range_is_false. reflexivity. }
  assert (Hlow : forall i, i < attr + run_off -> getb packed i = getb r i)
    by (intros i Hi; now apply (getb_packed_low mi attr run len Hwf)).
  assert (Htl : forall i, next <= i < used ->
                  getb packed (i + dsize) = getb r i)
    by (intros i Hi; now apply (getb_packed_tail mi attr run len Hwf)).
  unfold OFF_used, OFF_size, OFF_nres_evcn in *.
  split; [now rewrite Hres|].
  split; [|split; [|split; [|split; [|split; [|split; [|split;
    [|split]]]]]]].
  - rewrite Hr'. unfold rec_used at 1, set_rec_used, OFF_used.
    rewrite get_le_set_le_same.
    + apply Z.mod_small. change (256 ^ Z.of_nat 4) with (2 ^ 32).
      subst delta run_size dsize. lia.
    + lia.
    + unfold set_attr_nres_evcn, set_attr_size, blen.
      rewrite !length_set_le, Hl3. fold (blen r). simpl. lia.
  - rewrite Hr'. unfold attr_size at 1, set_rec_used, set_attr_nres_evcn,
      set_attr_size, OFF_used, OFF_nres_evcn, OFF_size.
    rewrite !get_le_set_le_other by (simpl; lia).
    rewrite get_le_set_le_same.
    + apply Z.mod_small. change (256 ^ Z.of_nat 4) with (2 ^ 32).
      subst delta run_size dsize. lia.
    + lia.
    + unfold blen. rewrite Hl3. fold (blen r). simpl. lia.
  - lia.
  - intros i Hi Hu Hs He. rewrite Hget by assumption.
    unfold r3. rewrite getb_memmove. range_is_false. cbn [andb].
    now apply Hlow.
  - intros i Hi. rewrite Hget by (subst delta run_size next; lia).
    unfold r3. rewrite getb_memmove.
    replace (in_range (next + nrs - run_size) tail (i + delta)) with true
      by (symmetry; apply in_range_true; subst delta tail next; lia).
    replace (in_range 0 (blen packed) (i + delta)) with true
      by (symmetry; apply in_range_true; unfold blen; rewrite Hlp;
          fold (blen r); subst delta run_size dsize next; lia).
    cbn [andb].
    replace (next + dsize + (i + delta - (next + nrs - run_size)))
      with (i + dsize) by (subst delta; lia).
    now apply Htl.
  - intros j Hj Hjn. rewrite Hget by lia.
    unfold r3. rewrite getb_memmove.
    replace (in_range (next + nrs - run_size) tail (attr + run_off + j))
      with false
      by (symmetry; apply in_range_false; subst next run_size; lia).
    cbn [andb]. unfold packed. rewrite getb_memcpy. range_is_true.
    replace (in_range 0 (blen (memmove r (next + dsize) next tail))
               (attr + run_off + j)) with true
      by (symmetry; apply in_range_true; unfold blen;
          rewrite length_memmove; fold (blen r);
          subst run_size dsize; lia).
    cbn [andb]. f_equal. lia.
  - rewrite Hr'. unfold set_rec_used, set_attr_nres_evcn, set_attr_size.
    now rewrite !length_set_le.
  - now rewrite Hres.
  - now rewrite Hres.
Qed.

Variables pre post : list Z.

Hypothesis Hok : record_ok mi.
Hypothesis Hl : attr_list mi = pre ++ attr :: post.
Hypothesis Hnr : attr_non_res r attr <> 0.

(** [mi_pack_runs] on a non-resident attribute of the list of a
    well-formed record. *)
Lemma mi_pack_runs_ok :
  0 <= pr_err pr <= run_size + dsize ->
  (run_size + dsize) mod 8 = 0 ->
  let res := mi_pack_runs mi attr run len in
  let r' := mrec_bytes (snd res) in
  fst res = 0
  /\ attr_list (snd res) = pre ++ attr :: map (fun b => b + delta) post
  /\ attr_size r' attr = run_off + nrs
  /\ rec_used r' = used + delta
  /\ (forall j, 0 <= j < blen out -> j < nrs ->
        getb r' (attr + run_off + j) = getb out j)
  /\ (forall a j, In a pre -> 0 <= j < attr_size r a ->
        getb r' (a + j) = getb r (a + j))
  /\ (forall b j, In b post -> 0 <= j < attr_size r b ->
        getb r' (b + delta + j) = getb r (b + j))
  /\ record_ok (snd res).
Proof.
  intros Herr Hal res r'.
  destruct (mi_pack_runs_bytes Herr Hal)
    as (Hres0 & Hused' & Hsize' & Hnrs & Hlow & Hup & Hrun & Hlen & Hsbi
        & Hdirty).
  fold res in Hres0, Hused', Hsize', Hlow, Hup, Hrun, Hlen, Hsbi, Hdirty.
  fold r' in Hused', Hsize', Hlow, Hup, Hrun, Hlen.
  destruct (pack_facts mi attr run len Hwf)
    as (H1 & H2 & H3 & H4 & H5 & H6 & H7 & H8).
  fold r in H2, H3, H4, H5, H6, H7.
  fold asize run_off used in H2, H3, H4, H5.
  destruct Hok as (Hst & Hfit & (Hm1 & Hm2) & Hrs & Htb & Hb).
  fold r in Hst, Hm1, Hm2, Hrs, Htb, Hb. fold used in Hst, Hm2.
  set (o := rec_attr_off r) in *.
  pose proof (enum_start_first _ _ _ _ Hst) as (_ & _ & Hou & Ho & Hut).
  unfold MFTRECORD_FIXUP_OFFSET_1, SIZEOF_RESIDENT in *.
  (* the walk through the old record *)
  pose proof (attr_list_chain mi) as Hc.
  destruct (chain_walk_start mi _ Hc Hfit Hst) as (q & Hw & Hq).
  fold r used o in Hw, Hq.
  assert (Hqe : q = attr_end mi).
  { rewrite (walk_last _ _ _ _ _ Hw None eq_refl).
    now rewrite last_attr_or_none. }
  rewrite <- Hqe in Hm1, Hm2. rewrite Hl in Hw.
  destruct (walk_app_inv _ _ _ _ _ _ Hw) as (m & Hw1 & Hw2).
  inversion Hw2 as [|p' l' q' Hacc Hfa Hw3]; subst p' l' q' m.
  fold asize in Hfa, Hw3. fold next in Hw3.
  pose proof (walk_bounds _ _ _ _ _ Hw1) as (Hoa & _ & Hinpre).
  pose proof (walk_bounds _ _ _ _ _ Hw3) as (Haq & _ & Hinpost).
  unfold OFF_used, OFF_size, OFF_nres_evcn in *.
  (* the header of the new record *)
  assert (Hhdr : forall k off, off + Z.of_nat k <= 0x18
                               \/ (0x1C <= off /\ off + Z.of_nat k <= 0x2A) ->
                   get_le k r' off = get_le k r off).
  { intros k off Hk. apply get_le_ext. intros j Hj. apply Hlow; lia. }
  assert (Ht' : rec_total r' = rec_total r)
    by (apply Hhdr; right; unfold OFF_total; simpl; lia).
  assert (Ho' : rec_attr_off r' = o)
    by (apply Hhdr; left; unfold OFF_attr_off; simpl; lia).
  assert (Hi' : is_rec_inuse r' = is_rec_inuse r).
  { unfold is_rec_inuse, rec_flags. rewrite Hhdr; [reflexivity|].
    left. unfold OFF_flags. simpl. lia. }
  set (used' := rec_used r') in *.
  assert (Hd1 : used' = used + delta) by exact Hused'.
  assert (Hd2 : asize + delta = run_off + nrs)
    by (subst delta run_size; lia).
  assert (Hd3 : used + delta <= rec_total r)
    by (subst delta run_size dsize; lia).
  pose proof (enum_start_header r r' used used' Ht' Ho' Hi' Hst
                ltac:(lia)) as Hst'. fold o in Hst'.
  unfold SIZEOF_NONRESIDENT in *.
  destruct (Z.geb_spec o used') as [Hge|_]; [lia|].
  assert (Hfld : forall k off, 0 <= off -> off + Z.of_nat k <= 0x40 ->
                   off + Z.of_nat k <= 4 \/ 8 <= off ->
                   off + Z.of_nat k <= 0x18 \/ 0x20 <= off ->
                   get_le k r' (attr + off) = get_le k r (attr + off)).
  { intros k off H0 Hk Hs He. apply get_le_ext. intros j Hj.
    apply Hlow; lia. }
  (* the walk through the new record *)
  assert (Hw1' : attr_walk r' used' o pre attr).
  { pose proof (walk_transfer r r' used used' 0 o pre attr Hw1) as T.
    rewrite map_add_0, !Z.add_0_r in T. apply T; try lia.
    intros i Hi. rewrite Z.add_0_r. apply Hlow; lia. }
  assert (Hacc' : enum_check r' used' attr (u32 attr) = Some attr).
  { apply (enum_check_grow r r' used used' attr delta Hacc);
      fold asize; try lia; try assumption.
    - apply (Hfld 4%nat OFF_type); unfold OFF_type; lia.
    - apply (Hfld 1%nat OFF_non_res); unfold OFF_non_res; lia.
    - apply (Hfld 1%nat OFF_name_len); unfold OFF_name_len; lia.
    - apply (Hfld 2%nat OFF_name_off); unfold OFF_name_off; lia.
    - apply (Hfld 2%nat OFF_aflags); unfold OFF_aflags; lia.
    - apply (Hfld 2%nat OFF_res_data_off); unfold OFF_res_data_off; lia.
    - intros _. repeat split.
      + apply (Hfld 8%nat OFF_nres_svcn); unfold OFF_nres_svcn; lia.
      + apply (Hfld 2%nat OFF_nres_run_off); unfold OFF_nres_run_off; lia.
      + apply (Hfld 1%nat OFF_nres_c_unit); unfold OFF_nres_c_unit; lia.
    - right. split; [exact Hnr|]. unfold SIZEOF_NONRESIDENT. lia. }
  assert (Hw3' : attr_walk r' used' (attr + asize + delta)
                   (map (fun b => b + delta) post) (q + delta)).
  { apply (walk_transfer r r' used used' delta (attr + asize) post q Hw3);
      try lia.
    intros i Hi. apply Hup. subst next. lia. }
  assert (Hw' : attr_walk r' used' o
                  (pre ++ attr :: map (fun b => b + delta) post)
                  (q + delta)).
  { apply (walk_app _ _ _ _ attr _ _ Hw1'). apply walk_cons.
    - exact Hacc'.
    - rewrite Hsize'. lia.
    - rewrite Hsize', Z.add_assoc. exact Hw3'. }
  assert (Hwin : forall j, 0 <= j < used - q ->
                   getb r' (q + delta + j) = getb r (q + j)).
  { intros j Hj. replace (q + delta + j) with (q + j + delta) by lia.
    apply Hup. subst next. lia. }
  assert (Hq' : enum_check r' used' (q + delta) (u32 (q + delta)) = None).
  { apply (enum_check_end_shift r r' used used' q (q + delta));
      try assumption; lia. }
  assert (Hst'' : enum_start r' used' None
                  = Some (rec_attr_off r', rec_attr_off r'))
    by (now rewrite Ho').
  assert (Hc' : enum_chain (snd res) None
                  (pre ++ attr :: map (fun b => b + delta) post)).
  { apply (walk_chain_start (snd res) _ (q + delta)); fold r';
      fold used'; rewrite ?Ho'; assumption. }
  assert (Hl' : attr_list (snd res)
                = pre ++ attr :: map (fun b => b + delta) post).
  { apply (enum_chain_unique (snd res) None);
      [apply attr_list_chain|exact Hc']. }
  assert (Hqe' : attr_end (snd res) = q + delta).
  { unfold attr_end. fold r'. rewrite Hl'.
    rewrite (walk_last _ _ _ _ _ Hw' None Ho').
    now rewrite last_attr_or_none. }
  split; [exact Hres0|]. split; [exact Hl'|].
  split; [rewrite Hsize'; exact Hd2|].
  split; [exact Hused'|]. split; [exact Hrun|].
  split. { intros a j Ha Hj. apply Hinpre in Ha. apply Hlow; lia. }
  split. { intros b j Hb' Hj. apply Hinpost in Hb'.
           replace (b + delta + j) with (b + j + delta) by lia.
           apply Hup. subst next. lia. }
  unfold record_ok. fold r'. fold used'.
  split; [exact Hst''|]. split; [|split; [|split; [|split]]].
  - unfold attrs_fit. fold r'. fold used'. rewrite Hl'. intros a Ha.
    pose proof (walk_bounds _ _ _ _ _ Hw') as (_ & _ & Hin).
    apply Hin in Ha. lia.
  - unfold ends_at_marker. fold r'. fold used'. rewrite Hqe'. split; [|lia].
    rewrite <- Hm1. unfold attr_type, OFF_type.
    apply (get_le_window 4 _ _ _ _ _ _ Hwin); lia.
  - rewrite Ht', Hrs, Hsbi. reflexivity.
  - unfold blen in *. rewrite Ht', Hlen. exact Htb.
  - unfold blen in *. rewrite Hlen. exact Hb.
Qed.

End PackEnum.

Section PackEnumTheorem.

Context {C : Collaborators}.

(** X18.  [mi_pack_runs] keeps the record well-formed.  For a
    non-resident attribute of the list of a well-formed record, with its
    run list behind the non-resident header, and a serializer that
    succeeds within the space it was given (a multiple of 8 bytes):
    [mi_pack_runs] returns 0; the attribute now ends where its new run
    list, rounded up to a multiple of 8, ends; the serializer's bytes
    are the run list; the enumeration yields the same attributes, those
    behind the packed one moved by the change in size with the bytes
    they had; and the record is well-formed again. *)
Theorem mi_pack_runs_enum (mi : mft_inode) (attr : Z) (run : runs_tree)
    (len : Z) (pre post : list Z) :
  let r := mrec_bytes mi in
  let used := rec_used r in
  let asize := attr_size r attr in
  let run_off := attr_nres_run_off r attr in
  let run_size := asize - run_off in
  let dsize := record_size (sbi mi) - used in
  let pr :=
    run_pack run (clst (attr_nres_svcn r attr)) len (run_size + dsize) in
  let out := firstn (Z.to_nat (run_size + dsize)) (pr_bytes pr) in
  let nrs := round_up_to_8 (pr_err pr) in
  let delta := nrs - run_size in
  let res := mi_pack_runs mi attr run len in
  let r' := mrec_bytes (snd res) in
  record_ok mi ->
  attr_list mi = pre ++ attr :: post ->
  attr_non_res r attr <> 0 ->
  SIZEOF_NONRESIDENT <= run_off <= asize ->
  0 <= pr_err pr <= run_size + dsize ->
  (run_size + dsize) mod 8 = 0 ->
  fst res = 0
  /\ attr_list (snd res) = pre ++ attr :: map (fun b => b + delta) post
  /\ attr_size r' attr = run_off + nrs
  /\ rec_used r' = used + delta
  /\ (forall j, 0 <= j < blen out -> j < nrs ->
        getb r' (attr + run_off + j) = getb out j)
  /\ (forall a j, In a pre -> 0 <= j < attr_size r a ->
        getb r' (a + j) = getb r (a + j))
  /\ (forall b j, In b post -> 0 <= j < attr_size r b ->
        getb r' (b + delta + j) = getb r (b + j))
  /\ record_ok (snd res).
Proof.
  intros r used asize run_off run_size dsize pr out nrs delta res r'
    Hok Hl Hnr Hro Herr Hal.
  assert (Hwf : nonres_in_record mi attr).
  { pose proof Hok as (Hst & Hfit & _ & Hrs & Htb & Hb).
    fold r in Hst, Hrs, Htb, Hb.
    pose proof (enum_start_first _ _ _ _ Hst) as (_ & _ & _ & _ & Hut).
    assert (Hin : In attr (attr_list mi))
      by (rewrite Hl; apply in_or_app; right; now left).
    pose proof (enum_chain_behind_header mi None _ (attr_list_chain mi) I
                  attr Hin) as Ha.
    specialize (Hfit attr Hin). fold r in Hfit.
    unfold nonres_in_record. fold r. fold run_off asize.
    repeat split; try tauto; try lia. }
  exact (mi_pack_runs_ok mi attr run len Hwf pre post Hok Hl Hnr Herr Hal).
Qed.

End PackEnumTheorem.

(** Packing 12 bytes of runs into the first attribute of [record_nonres],
    whose run list had 8 bytes. *)
Lemma mi_pack_runs_enum_witness :
  let C := trace_collab no_disk packer_7_of in
  let mi := sample_mi 1024 30 record_nonres in
  let res := mi_pack_runs (C := C) mi 0x38 tt 1000 in
  attr_list mi = [0x38; 0x80]
  /\ fst res = 0
  /\ attr_list (snd res) = [0x38; 0x88]
  /\ attr_size (mrec_bytes (snd res)) 0x38 = 0x50
  /\ record_ok (snd res).
Proof.
  intros C mi res.
  assert (Hl : attr_list mi = [] ++ 0x38 :: [0x80])
    by (vm_compute; reflexivity).
  assert (Hwf : record_ok mi).
  { unfold record_ok. split; [vm_compute; reflexivity|]. split.
    - intros a Ha. rewrite Hl in Ha. cbn [app In] in Ha.
      destruct Ha as [<-|[<-|[]]]; vm_compute; discriminate.
    - split; [split|split; [|split]];
        vm_compute; first [reflexivity|discriminate]. }
  destruct (mi_pack_runs_enum (C := C) mi 0x38 tt 1000 [] [0x80] Hwf Hl
              ltac:(vm_compute; discriminate)
              ltac:(vm_compute; split; discriminate)
              ltac:(vm_compute; split; discriminate)
              ltac:(vm_compute; reflexivity))
    as (Hok & Hl' & Hs & _ & _ & _ & _ & Hok').
  split; [exact Hl|]. split; [exact Hok|].
  split; [refine (eq_trans Hl' _); vm_compute; reflexivity|].
  split; [refine (eq_trans Hs _); vm_compute; reflexivity|exact Hok'].
Defined.

(** ** mi_find_attr on a list in the order of the types *)

Lemma locate_none_sorted r ty name nl id : forall l,
  Sorted Z.le (map (attr_type r) l) ->
  locate r ty name nl id l = None ->
  forall a, In a l -> attr_matches r ty name nl id a = false.
Proof.
  induction l as [|b l IH]; intros Hs Hn a Ha; [destruct Ha|].
  cbn [map] in Hs. cbn [locate] in Hn.
  apply Sorted_StronglySorted in Hs; [|intros x y z; apply Z.le_trans].
  inversion Hs as [|x l' Hs' Hall]; subst.
  destruct (Z.gtb_spec (attr_type r b) ty) as [Hgt|Hle].
  - (* the search stops: every type from here on is above [ty] *)
    assert (Hty : ty < attr_type r a).
    { destruct Ha as [<-|Ha]; [exact Hgt|].
      rewrite Forall_forall in Hall.
      specialize (Hall (attr_type r a) (in_map _ _ _ Ha)). lia. }
    destruct (attr_matches r ty name nl id a) eqn:M; [|reflexivity].
    apply attr_matches_iff in M. lia.
  - destruct (attr_matches r ty name nl id b) eqn:M; [discriminate|].
    destruct Ha as [<-|Ha]; [exact M|].
    apply IH; try assumption. now apply StronglySorted_Sorted.
Qed.

(** X19.  Why [mi_find_attr] may give up at the first larger type: when
    the types ascend along the attribute list, a search from the start
    that returns [NULL] has missed nothing: no attribute of the record
    has the type, name and id asked for. *)
Theorem mi_find_attr_sorted (mi : mft_inode) (ty : Z) (name : list byte)
    (nl : Z) (id : option Z) :
  let r := mrec_bytes mi in
  Sorted Z.le (map (attr_type r) (attr_list mi)) ->
  mi_find_attr mi None ty name nl id = None ->
  forall a, In a (attr_list mi) ->
    attr_type r a = ty ->
    attr_name_len r a = nl ->
    slice r (a + attr_name_off r a) (nl * 2) = slice name 0 (nl * 2) ->
    match id with Some i => i <> attr_id r a | None => False end.
Proof.
  intros r Hs Hn a Ha Hty Hnl Hname.
  pose proof (attr_list_chain mi) as Hc.
  unfold mi_find_attr in Hn.
  rewrite (find_loop_chain mi None _ ty name nl id Hc) in Hn
    by (eapply enum_chain_fuel; exact Hc).
  fold r in Hn.
  pose proof (locate_none_sorted r ty name nl id _ Hs Hn a Ha) as M.
  destruct id as [i|].
  - intros Hi. assert (attr_matches r ty name nl (Some i) a = true);
      [|congruence].
    apply attr_matches_iff. repeat split; assumption.
  - assert (attr_matches r ty name nl None a = true); [|congruence].
    apply attr_matches_iff. repeat split; assumption.
Qed.

(** No attribute of type 0x40 in [record_ids_0134]: the search stops at
    the attribute of type 0x80. *)
Lemma mi_find_attr_sorted_witness :
  let mi := sample_mi 1024 30 record_ids_0134 in
  let r := mrec_bytes mi in
  mi_find_attr mi None 0x40 [] 0 (Some 3) = None
  /\ attr_type r 0x68 = 0x80
  /\ attr_id r 0x68 = 3
  /\ forall a, In a (attr_list mi) -> attr_type r a = 0x40 ->
       attr_name_len r a = 0 ->
       slice r (a + attr_name_off r a) (0 * 2) = slice [] 0 (0 * 2) ->
       3 <> attr_id r a.
Proof.
  intros mi r.
  assert (Hs : Sorted Z.le (map (attr_type r) (attr_list mi))).
  { replace (map (attr_type r) (attr_list mi))
      with [0x10; 0x30; 0x80; 0x90] by (vm_compute; reflexivity).
    repeat constructor; discriminate. }
  assert (E : mi_find_attr mi None 0x40 [] 0 (Some 3) = None)
    by (vm_compute; reflexivity).
  split; [exact E|]. split; [vm_compute; reflexivity|].
  split; [vm_compute; reflexivity|].
  exact (mi_find_attr_sorted mi 0x40 [] 0 (Some 3) Hs E).
Defined.

(** ** The ids of the attributes *)

(** The two paths of [mi_new_attt_id]. *)
Lemma mi_new_attt_id_fast (mi : mft_inode) :
  let r := mrec_bytes mi in
  MFTRECORD_FIXUP_OFFSET_1 <= blen r ->
  rec_next_attr_id r < 0x7FFF ->
  fst (mi_new_attt_id mi) = rec_next_attr_id r
  /\ rec_next_attr_id (mrec_bytes (snd (mi_new_attt_id mi)))
     = rec_next_attr_id r + 1.
Proof.
  intros r Hlen Hlt. unfold mi_new_attt_id. fold r.
  destruct (Z.ltb_spec (rec_next_attr_id r) 0x7FFF) as [_|]; [|lia].
  cbn [fst snd]. split; [reflexivity|].
  subst r. rewrite rec_next_attr_id_set by exact Hlen.
  pose proof (get_le_range 2 (mrec_bytes mi) OFF_next_attr_id) as Hr.
  fold (rec_next_attr_id (mrec_bytes mi)) in Hr.
  change (256 ^ Z.of_nat 2) with 65536 in Hr.
  rewrite (u16_small (rec_next_attr_id (mrec_bytes mi) + 1)) by lia.
  apply u16_small. lia.
Qed.

Lemma mi_new_attt_id_slow (mi : mft_inode) :
  let r := mrec_bytes mi in
  let f := fst (mi_new_attt_id mi) in
  MFTRECORD_FIXUP_OFFSET_1 <= blen r ->
  0x7FFF <= rec_next_attr_id r ->
  Z.of_nat (length (attr_list mi)) < 65536 ->
  0 <= f
  /\ ~ In f (attr_ids mi)
  /\ (forall i, 0 <= i < f -> In i (attr_ids mi))
  /\ rec_next_attr_id (mrec_bytes (snd (mi_new_attt_id mi)))
     = u16 (max_id_of (attr_ids mi) + 1).
Proof.
  intros r f Hlen Hge Hn.
  pose proof (attr_list_chain mi) as Hc.
  assert (Hids : forall x, In x (attr_ids mi) -> 0 <= x).
  { intros x Hx. apply in_map_iff in Hx. destruct Hx as (a & <- & _).
    apply attr_id_range. }
  assert (Hlen' : Z.of_nat (length (attr_ids mi)) < 65536)
    by (unfold attr_ids; now rewrite length_map).
  destruct (id_scan_correct (attr_ids mi) Hids Hlen'
              (new_attt_id_fuel mi) [] (attr_ids mi) 0 0)
    as (g & Hscan & Hg0 & Hnin & Hlow);
    try reflexivity; try lia; try (now left).
  { intros x []. }
  { pose proof (enum_chain_fuel _ _ _ Hc) as Hfu.
    unfold new_attt_id_fuel. unfold attr_ids.
    rewrite length_map. nia. }
  assert (Hloop : new_attt_id_loop (new_attt_id_fuel mi) mi None 0 0
                  = Some (g, max_id_of (attr_ids mi))).
  { rewrite (new_attt_id_loop_scan mi _ Hc _ None _ 0 0 Hc).
    exact Hscan. }
  assert (Hres : mi_new_attt_id mi
                 = (g, with_dirty
                         (with_mrec mi
                            (set_rec_next_attr_id r
                               (u16 (max_id_of (attr_ids mi) + 1))))
                         true)).
  { unfold mi_new_attt_id. fold r.
    destruct (Z.ltb_spec (rec_next_attr_id r) 0x7FFF); [lia|].
    now rewrite Hloop. }
  subst f. rewrite Hres. cbn [fst snd].
  split; [exact Hg0|]. split; [exact Hnin|]. split; [exact Hlow|].
  rewrite mrec_bytes_with_dirty.
  subst r. rewrite rec_next_attr_id_set by exact Hlen.
  unfold u16. now rewrite Z.mod_mod by lia.
Qed.

Section InsertIds.

Context {C : Collaborators}.

(** The ids of the attributes after a successful [mi_insert_attr]. *)
Lemma mi_insert_attr_ids_list mi ty name nl asize no attr :
  let r := mrec_bytes mi in
  let used := rec_used r in
  let res := mi_insert_attr mi ty name nl asize no in
  let r' := mrec_bytes (snd res) in
  record_ok mi ->
  fst res = Some attr ->
  Z.land ty 0xf = 0 -> 0 <= ty <= 0x100 ->
  SIZEOF_RESIDENT <= asize ->
  used + asize <= record_size (sbi mi) ->
  0 <= nl < 2 ^ 8 -> 0 <= no < 2 ^ 16 ->
  (nl = 0 \/ (SIZEOF_RESIDENT <= no /\ no + 2 * nl <= asize)) ->
  Permutation (attr_ids (snd res))
    (fst (mi_new_attt_id mi) :: attr_ids mi)
  /\ rec_next_attr_id r'
     = rec_next_attr_id (mrec_bytes (snd (mi_new_attt_id mi)))
  /\ MFTRECORD_FIXUP_OFFSET_1 <= blen r.
Proof.
  intros r used res r' Hok Hsome Hland Hty Hs Hroom Hnl Hno Hname.
  destruct (mi_insert_attr_types mi ty name nl asize no attr Hok Hsome
              Hland Hty Hs Hroom Hnl Hno Hname)
    as (pre & post & Hl & Hl' & Hpre & Hpost & _ & _ & _ & _ & Fid & _).
  destruct (mi_insert_attr_ok mi ty name nl asize no attr Hok Hsome Hland
              Hty Hs Hroom Hnl Hno Hname)
    as (_ & _ & _ & _ & _ & _ & _ & _ & _ & _ & _ & _ & _ & _ & _ & _ & _
        & Hcnt).
  fold r used res in Hl', Hpre, Hpost, Fid, Hcnt.
  fold r' in Hpre, Hpost, Fid, Hcnt.
  split; [|split; [exact Hcnt|]].
  - unfold attr_ids. fold r r'. rewrite Hl', Hl, !map_app. cbn [map].
    rewrite map_map, Fid.
    rewrite (map_ext_in (attr_id r') (attr_id r) pre)
      by (intros a Ha; now apply Hpre).
    rewrite (map_ext_in (fun b => attr_id r' (b + asize)) (attr_id r) post)
      by (intros b Hb; now apply Hpost).
    symmetry. apply Permutation_middle.
  - destruct Hok as (Hst & _ & _ & _ & Htb & _). fold r in Hst, Htb.
    pose proof (enum_start_first _ _ _ _ Hst) as (_ & _ & _ & Ho & Hut).
    lia.
Qed.

(** X20.  [mi_insert_attr] keeps the ids of the attributes distinct.  In
    a well-formed record whose attributes have distinct ids, all below
    the counter [next_attr_id] as long as the counter is below 0x7FFF
    (and with fewer than 65536 attributes), the id that a successful
    [mi_insert_attr] (as in X12) gives the new attribute is an id that
    no attribute had, and the ids are distinct afterwards.  If the
    counter was below 0x7FFF, the ids are all below the new counter
    again. *)
Theorem mi_insert_attr_ids_distinct (mi : mft_inode) (ty : Z)
    (name : list byte) (nl asize no attr : Z) :
  let r := mrec_bytes mi in
  let used := rec_used r in
  let res := mi_insert_attr mi ty name nl asize no in
  let r' := mrec_bytes (snd res) in
  let id := fst (mi_new_attt_id mi) in
  record_ok mi ->
  fst res = Some attr ->
  Z.land ty 0xf = 0 -> 0 <= ty <= 0x100 ->
  SIZEOF_RESIDENT <= asize ->
  used + asize <= record_size (sbi mi) ->
  0 <= nl < 2 ^ 8 -> 0 <= no < 2 ^ 16 ->
  (nl = 0 \/ (SIZEOF_RESIDENT <= no /\ no + 2 * nl <= asize)) ->
  NoDup (attr_ids mi) ->
  Z.of_nat (length (attr_list mi)) < 65536 ->
  (rec_next_attr_id r < 0x7FFF ->
   forall x, In x (attr_ids mi) -> x < rec_next_attr_id r) ->
  ~ In id (attr_ids mi)
  /\ In id (attr_ids (snd res))
  /\ NoDup (attr_ids (snd res))
  /\ (rec_next_attr_id r < 0x7FFF ->
      forall x, In x (attr_ids (snd res)) -> x < rec_next_attr_id r').
Proof.
  intros r used res r' id Hok Hsome Hland Hty Hs Hroom Hnl Hno Hname
    Hnd Hn Hbelow.
  destruct (mi_insert_attr_ids_list mi ty name nl asize no attr Hok Hsome
              Hland Hty Hs Hroom Hnl Hno Hname) as (Hperm & Hcnt & Hlen).
  fold r used res in Hperm, Hcnt, Hlen. fold r' in Hcnt. fold id in Hperm.
  assert (Hfresh : ~ In id (attr_ids mi)).
  { destruct (Z_lt_ge_dec (rec_next_attr_id r) 0x7FFF) as [Hlt|Hge].
    - destruct (mi_new_attt_id_fast mi Hlen Hlt) as [Hid _].
      fold id r in Hid. intros Hin. specialize (Hbelow Hlt _ Hin). lia.
    - destruct (mi_new_attt_id_slow mi Hlen ltac:(fold r; lia) Hn)
        as (_ & Hnin & _). exact Hnin. }
  split; [exact Hfresh|]. split; [|split].
  - apply (Permutation_in id (Permutation_sym Hperm)). now left.
  - apply (Permutation_NoDup (Permutation_sym Hperm)).
    constructor; assumption.
  - intros Hlt x Hx.
    destruct (mi_new_attt_id_fast mi Hlen Hlt) as [Hid Hnext].
    fold id r in Hid, Hnext. rewrite Hcnt, Hnext.
    apply (Permutation_in x Hperm) in Hx. destruct Hx as [<-|Hx]; [lia|].
    specialize (Hbelow Hlt _ Hx). lia.
Qed.

(** X21.  The slow path of [mi_new_attt_id] can hand out an id twice.
    When the counter is exhausted and the least unused id [id > 0] lies
    above all ids of the record (the ids are 0 .. id-1), [mi_new_attt_id]
    returns [id] and sets the counter to the largest id plus one, which
    is [id] itself.  So after a successful [mi_insert_attr] (as in X12)
    has given [id] to the new attribute, the next call of
    [mi_new_attt_id] returns the id of that attribute again, if
    [id < 0x7FFF]. *)
Theorem mi_new_attt_id_repeats (mi : mft_inode) (ty : Z)
    (name : list byte) (nl asize no attr : Z) :
  let r := mrec_bytes mi in
  let used := rec_used r in
  let res := mi_insert_attr mi ty name nl asize no in
  let r' := mrec_bytes (snd res) in
  let id := fst (mi_new_attt_id mi) in
  record_ok mi ->
  fst res = Some attr ->
  Z.land ty 0xf = 0 -> 0 <= ty <= 0x100 ->
  SIZEOF_RESIDENT <= asize ->
  used + asize <= record_size (sbi mi) ->
  0 <= nl < 2 ^ 8 -> 0 <= no < 2 ^ 16 ->
  (nl = 0 \/ (SIZEOF_RESIDENT <= no /\ no + 2 * nl <= asize)) ->
  Z.of_nat (length (attr_list mi)) < 65536 ->
  0x7FFF <= rec_next_attr_id r ->
  (forall x, In x (attr_ids mi) -> x < id) ->
  0 < id < 0x7FFF ->
  attr_id r' attr = id
  /\ In id (attr_ids (snd res))
  /\ rec_next_attr_id r' = id
  /\ fst (mi_new_attt_id (snd res)) = id.
Proof.
  intros r used res r' id Hok Hsome Hland Hty Hs Hroom Hnl Hno Hname
    Hn Hge Habove Hid.
  destruct (mi_insert_attr_ids_list mi ty name nl asize no attr Hok Hsome
              Hland Hty Hs Hroom Hnl Hno Hname) as (Hperm & Hcnt & Hlen).
  fold r used res in Hperm, Hcnt, Hlen. fold r' in Hcnt. fold id in Hperm.
  destruct (mi_insert_attr_types mi ty name nl asize no attr Hok Hsome
              Hland Hty Hs Hroom Hnl Hno Hname)
    as (_ & _ & _ & _ & _ & _ & _ & _ & _ & _ & Fid & _).
  fold r used res in Fid. fold r' id in Fid.
  destruct (mi_new_attt_id_slow mi Hlen Hge Hn)
    as (_ & Hnin & Hlow & Hnext).
  fold id r in Hnin, Hlow, Hnext.
  (* the largest id is [id - 1] *)
  assert (Hmax : max_id_of (attr_ids mi) = id - 1).
  { symmetry. apply max_id_of_unique.
    - intros x Hx. apply in_map_iff in Hx. destruct Hx as (a & <- & _).
      apply attr_id_range.
    - intros x Hx. specialize (Habove x Hx). lia.
    - right. apply Hlow. lia. }
  assert (Hcnt' : rec_next_attr_id r' = id).
  { rewrite Hcnt, Hnext, Hmax. replace (id - 1 + 1) with id by lia.
    apply u16_small. lia. }
  split; [exact Fid|]. split; [|split; [exact Hcnt'|]].
  - apply (Permutation_in id (Permutation_sym Hperm)). now left.
  - assert (Hlen' : MFTRECORD_FIXUP_OFFSET_1 <= blen r').
    { destruct (mi_insert_attr_ok mi ty name nl asize no attr Hok Hsome
                  Hland Hty Hs Hroom Hnl Hno Hname)
        as (_ & _ & _ & _ & _ & _ & _ & _ & _ & _ & _ & _ & _ & _ & _ & _
            & (Hst' & _ & _ & _ & Htb' & _) & _).
      fold r used res in Hst', Htb'. fold r' in Hst', Htb'.
      pose proof (enum_start_first _ _ _ _ Hst') as (_ & _ & _ & Ho & Hut).
      lia. }
    destruct (mi_new_attt_id_fast (snd res) Hlen'
                ltac:(fold r'; rewrite Hcnt'; lia)) as [Hf _].
    fold r' in Hf. now rewrite Hf.
Qed.

End InsertIds.

Lemma mi_insert_attr_ids_distinct_witness :
  let C := trace_collab no_disk no_packer in
  let mi := sample_mi 1024 30 record_ids_0134 in
  let res := mi_insert_attr (C := C) mi 0x40 [] 0 0x20 0x18 in
  attr_ids mi = [0; 1; 3; 4]
  /\ fst (mi_new_attt_id mi) = 2
  /\ NoDup (attr_ids (snd res)).
Proof.
  intros C mi res.
  assert (Hl : attr_list mi = [0x38; 0x50; 0x68; 0x80])
    by (vm_compute; reflexivity).
  assert (Hwf : record_ok mi).
  { unfold record_ok. split; [vm_compute; reflexivity|]. split.
    - intros a Ha. rewrite Hl in Ha. cbn [In] in Ha.
      destruct Ha as [<-|[<-|[<-|[<-|[]]]]]; vm_compute; discriminate.
    - split; [split|split; [|split]];
        vm_compute; first [reflexivity|discriminate]. }
  assert (Hsome : fst res = Some 0x68) by (vm_compute; reflexivity).
  assert (Hids : attr_ids mi = [0; 1; 3; 4]) by (vm_compute; reflexivity).
  split; [exact Hids|]. split; [vm_compute; reflexivity|].
  apply (mi_insert_attr_ids_distinct (C := C) mi 0x40 [] 0 0x20 0x18 0x68
           Hwf Hsome eq_refl
           ltac:(split; discriminate) ltac:(discriminate)
           ltac:(vm_compute; discriminate)
           ltac:(split; [discriminate|reflexivity])
           ltac:(split; [discriminate|reflexivity])
           (or_introl eq_refl)).
  - rewrite Hids. repeat constructor; cbn [In]; intuition discriminate.
  - rewrite Hl. reflexivity.
  - intros Hlt. exfalso. vm_compute in Hlt. discriminate Hlt.
Defined.

(** With the ids 0, 1, 2 and an exhausted counter, the new attribute gets
    the id 3, and 3 is the id handed out next. *)
Lemma mi_new_attt_id_repeats_witness :
  let C := trace_collab no_disk no_packer in
  let mi := sample_mi 1024 30 record_ids_012 in
  let res := mi_insert_attr (C := C) mi 0x40 [] 0 0x20 0x18 in
  attr_ids mi = [0; 1; 2]
  /\ fst res = Some 0x68
  /\ attr_id (mrec_bytes (snd res)) 0x68 = 3
  /\ fst (mi_new_attt_id (snd res)) = 3.
Proof.
  intros C mi res.
  assert (Hl : attr_list mi = [0x38; 0x50; 0x68])
    by (vm_compute; reflexivity).
  assert (Hwf : record_ok mi).
  { unfold record_ok. split; [vm_compute; reflexivity|]. split.
    - intros a Ha. rewrite Hl in Ha. cbn [In] in Ha.
      destruct Ha as [<-|[<-|[<-|[]]]]; vm_compute; discriminate.
    - split; [split|split; [|split]];
        vm_compute; first [reflexivity|discriminate]. }
  assert (Hsome : fst res = Some 0x68) by (vm_compute; reflexivity).
  assert (Hids : attr_ids mi = [0; 1; 2]) by (vm_compute; reflexivity).
  assert (Hid : fst (mi_new_attt_id mi) = 3) by (vm_compute; reflexivity).
  destruct (mi_new_attt_id_repeats (C := C) mi 0x40 [] 0 0x20 0x18 0x68
              Hwf Hsome eq_refl
              ltac:(split; discriminate) ltac:(discriminate)
              ltac:(vm_compute; discriminate)
              ltac:(split; [discriminate|reflexivity])
              ltac:(split; [discriminate|reflexivity])
              (or_introl eq_refl))
    as (H1 & _ & _ & H4).
  - rewrite Hl. reflexivity.
  - vm_compute. discriminate.
  - intros x Hx. rewrite Hids in Hx. rewrite Hid. cbn [In] in Hx.
    destruct Hx as [<-|[<-|[<-|[]]]]; reflexivity.
  - rewrite Hid. split; reflexivity.
  - split; [exact Hids|]. split; [exact Hsome|].
    split; [exact (eq_trans H1 Hid)|exact (eq_trans H4 Hid)].
Defined.

(** ** mi_enum_attr: a size that wraps around *)

(** X22.  [mi_enum_attr] compares the end of an attribute with [used] as
    a 32-bit sum and has no test for the sum wrapping around.  So the
    first call returns a resident attribute of valid type whose declared
    size is so large that offset plus size reaches 2^32, although the
    attribute ends far behind [used] and behind the buffer; and the
    position that the next call examines, the end of this attribute, is
    outside the buffer. *)
Theorem mi_enum_attr_size_wraps (mi : mft_inode) :
  let r := mrec_bytes mi in
  let used := rec_used r in
  let o := rec_attr_off r in
  let s := attr_size r o in
  enum_start r used None = Some (o, o) ->
  o + 8 <= used ->
  blen r <= 2 ^ 32 ->
  Z.land (attr_type r o) 0xf = 0 -> attr_type r o <= 0x100 ->
  attr_non_res r o = 0 ->
  2 ^ 32 <= o + s ->
  u32 (attr_res_data_off r o + attr_res_data_size r o) <= s ->
  mi_enum_attr mi None = Some o
  /\ used < o + s
  /\ blen r <= current_attr r (Some o).
Proof.
  intros r used o s Hst H8 Hb Hland Hty Hnr Hwrap Hdata.
  pose proof (enum_start_first _ _ _ _ Hst) as (_ & _ & Hou & Ho & Hut).
  pose proof (attr_size_range r o) as Hsr. fold s in Hsr.
  pose proof (rec_used_range r) as Hur. fold used in Hur.
  pose proof (rec_attr_off_range r) as Hor. fold o in Hor.
  assert (Hdo : 0 <= attr_res_data_off r o < 2 ^ 16)
    by (unfold attr_res_data_off; apply (get_le_range 2)).
  unfold MFTRECORD_FIXUP_OFFSET_1 in Ho.
  split; [|split; [lia|unfold current_attr; fold s; lia]].
  unfold mi_enum_attr. fold r. fold used. rewrite Hst.
  unfold enum_check. fold s.
  assert (Hsum : u32 (o + s) = o + s - 2 ^ 32).
  { unfold u32. symmetry. apply (Z.mod_unique (o + s) (2 ^ 32) 1); lia. }
  rewrite (u32_small (o + 8)) by lia. rewrite Hsum, Hland, Hnr.
  cbn [Z.eqb negb orb]. unfold ATTR_END, SIZEOF_RESIDENT.
  destruct (Z.gtb_spec (o + 8) used); [lia|].
  destruct (Z.eqb_spec (attr_type r o) 4294967295); [lia|].
  destruct (Z.gtb_spec (attr_type r o) 256); [lia|].
  destruct (Z.gtb_spec (o + s - 2 ^ 32) used); [lia|].
  destruct (Z.ltb_spec s 24); [lia|].
  destruct (Z.gtb_spec (attr_res_data_off r o) s); [lia|].
  destruct (Z.gtb_spec
              (u32 (attr_res_data_off r o + attr_res_data_size r o)) s);
    [lia|reflexivity].
Qed.

Lemma mi_enum_attr_size_wraps_witness :
  let mi := sample_mi 1024 30 record_wrapped_size in
  let r := mrec_bytes mi in
  attr_size r 0x38 = 0xFFFFFFF0
  /\ rec_used r = 0x60
  /\ mi_enum_attr mi None = Some 0x38
  /\ blen r <= current_attr r (Some 0x38).
Proof.
  intros mi r.
  destruct (mi_enum_attr_size_wraps mi
              ltac:(vm_compute; reflexivity) ltac:(vm_compute; discriminate)
              ltac:(vm_compute; discriminate) ltac:(vm_compute; reflexivity)
              ltac:(vm_compute; discriminate) ltac:(vm_compute; reflexivity)
              ltac:(vm_compute; discriminate)
              ltac:(vm_compute; discriminate))
    as (H1 & _ & H3).
  split; [vm_compute; reflexivity|]. split; [vm_compute; reflexivity|].
  split; [exact H1|exact H3].
Defined.
